(** * Alpha indices of scikit-maad: a shallow embedding of
    [maad/features/alpha_indices.py] and the properties of its core
    operations.

    Numbers.  The arrays of the source hold IEEE-754 doubles; its
    specification describes a Signal as an "ordered sequence of real
    numbers".  The embedding follows the specification's reading for finite
    values (arithmetic is exact: no rounding, no overflow) and keeps the
    IEEE special values wherever the source can produce them: numpy's
    division by zero gives [inf] or [nan] and a warning, never an exception.
    - [num]: rationals extended with [+inf], [-inf] and [nan]; executable.
      Finite results are kept in lowest terms ([Qred]), so that equal
      numbers are equal terms.  Used by binning, scoring, events and the
      band-energy indices.
    - [R]: Stdlib's reals with [ln] and [sqrt]; used where the source takes
      logarithms or square roots (entropy, spectral entropy, Shannon
      entropy, surface roughness, kurtosis and skewness, the bioacoustics
      index).  Division is the total division of [R]; no property below
      rests on a quotient by zero.
    - [Q]: plain rationals, for the ranks of the acoustic richness index,
      whose data are finite and whose results are quotients of counts.

    Arrays.  A numpy array is 1-D ([Arr1], a list) or 2-D ([Arr2], a list
    of rows together with its number of columns, so that a shape [(0, c)]
    is not lost).  Python exceptions are results [Raise e]; printed lines
    are returned where a function prints instead of raising; the value a
    function leaves in a caller's array is returned next to its result
    where the source mutates it ([gini]).  The plots drawn under
    [display=True] are left out. *)

From Stdlib Require Import String ZArith QArith Qround Qreduction Qabs.
From Stdlib Require Import Reals.
From Stdlib Require Import List Bool Lia Psatz.
From Stdlib Require Import Sorting.Permutation Sorting.Sorted.
Import ListNotations.

Set Implicit Arguments.

(* ================================================================== *)
(** ** Exceptions and results *)

(** The exception classes the modelled code paths can raise.  [Exception]
    carries its message: [intoBins] raises a bare [Exception]. *)
Inductive exn : Type :=
| Exception (msg : string)
| IndexError
| ValueError
| ZeroDivisionError
| UnboundLocalError
| AxisError
| TypeError
| OverflowError.

Inductive result (A : Type) : Type :=
| Ok (a : A)
| Raise (e : exn).
Arguments Ok {A} a.
Arguments Raise {A} e.

Definition bind {A B} (m : result A) (k : A -> result B) : result B :=
  match m with
  | Ok a => k a
  | Raise e => Raise e
  end.

Notation "x <- m ;; k" := (bind m (fun x => k))
  (at level 61, m at next level, right associativity).
Notation "' p <- m ;; k" := (bind m (fun p => k))
  (at level 61, p pattern, m at next level, right associativity).

Definition is_ok {A} (r : result A) : bool :=
  match r with Ok _ => true | Raise _ => false end.

(* ================================================================== *)
(** ** Numbers: rationals with the IEEE special values *)

Inductive num : Type :=
| Fin (q : Q)
| PInf
| NInf
| NaN.

Declare Scope num_scope.
Delimit Scope num_scope with num.
Bind Scope num_scope with num.

Module Num.

Definition zero : num := Fin 0.
Definition one : num := Fin 1.
Definition of_Z (z : Z) : num := Fin (inject_Z z).
Definition of_nat (n : nat) : num := of_Z (Z.of_nat n).

Definition is_finite (x : num) : bool :=
  match x with Fin _ => true | _ => false end.
Definition is_nan (x : num) : bool :=
  match x with NaN => true | _ => false end.

(** Sign of a rational: [Lt], [Eq] or [Gt] against zero. *)
Definition sgn (q : Q) : comparison := (q ?= 0)%Q.

Definition opp (x : num) : num :=
  match x with
  | Fin q => Fin (Qred (- q))
  | PInf => NInf
  | NInf => PInf
  | NaN => NaN
  end.

Definition add (x y : num) : num :=
  match x, y with
  | NaN, _ | _, NaN => NaN
  | PInf, NInf | NInf, PInf => NaN
  | PInf, _ | _, PInf => PInf
  | NInf, _ | _, NInf => NInf
  | Fin a, Fin b => Fin (Qred (a + b))
  end.

Definition sub (x y : num) : num := add x (opp y).

(** An infinity times a finite factor: [nan] against zero. *)
Definition inf_times (positive : bool) (q : Q) : num :=
  match sgn q with
  | Eq => NaN
  | Gt => if positive then PInf else NInf
  | Lt => if positive then NInf else PInf
  end.

Definition mul (x y : num) : num :=
  match x, y with
  | NaN, _ | _, NaN => NaN
  | Fin a, Fin b => Fin (Qred (a * b))
  | PInf, Fin q | Fin q, PInf => inf_times true q
  | NInf, Fin q | Fin q, NInf => inf_times false q
  | PInf, PInf | NInf, NInf => PInf
  | PInf, NInf | NInf, PInf => NInf
  end.

(** numpy's true division: a finite value over zero is an infinity of its
    sign, zero over zero and infinity over infinity are [nan]. *)
Definition div (x y : num) : num :=
  match x, y with
  | NaN, _ | _, NaN => NaN
  | Fin a, Fin b =>
      match sgn b with
      | Eq => match sgn a with Eq => NaN | Gt => PInf | Lt => NInf end
      | _ => Fin (Qred (a / b))
      end
  | Fin _, (PInf | NInf) => Fin 0
  | (PInf | NInf), (PInf | NInf) => NaN
  | PInf, Fin b => match sgn b with Lt => NInf | _ => PInf end
  | NInf, Fin b => match sgn b with Lt => PInf | _ => NInf end
  end.

Definition abs (x : num) : num :=
  match x with
  | Fin q => Fin (Qred (Qabs q))
  | PInf | NInf => PInf
  | NaN => NaN
  end.

(** Comparisons: every comparison with [nan] is false. *)
Definition leb (x y : num) : bool :=
  match x, y with
  | NaN, _ | _, NaN => false
  | NInf, _ | _, PInf => true
  | _, NInf | PInf, _ => false
  | Fin a, Fin b => Qle_bool a b
  end.

Definition ltb (x y : num) : bool :=
  match x, y with
  | NaN, _ | _, NaN => false
  | NInf, NInf | PInf, PInf => false
  | NInf, _ | _, PInf => true
  | _, NInf | PInf, _ => false
  | Fin a, Fin b => negb (Qle_bool b a)
  end.

Definition eqb (x y : num) : bool :=
  match x, y with
  | Fin a, Fin b => Qeq_bool a b
  | PInf, PInf | NInf, NInf => true
  | _, _ => false
  end.

Definition geb (x y : num) : bool := leb y x.
Definition gtb (x y : num) : bool := ltb y x.

(** [x ** 2]. *)
Definition square (x : num) : num := mul x x.

End Num.

Infix "+" := Num.add : num_scope.
Infix "-" := Num.sub : num_scope.
Infix "*" := Num.mul : num_scope.
Infix "/" := Num.div : num_scope.
Infix "<?" := Num.ltb : num_scope.
Infix "<=?" := Num.leb : num_scope.
Infix ">=?" := Num.geb (at level 70) : num_scope.
Infix "=?" := Num.eqb : num_scope.

(** [x] is the finite number of value [q], in whatever representation. *)
Definition has_value (x : num) (q : Q) : Prop :=
  exists q', x = Fin q' /\ (q' == q)%Q.

(* ================================================================== *)
(** ** Arrays *)

Inductive ndarray (A : Type) : Type :=
| Arr1 (v : list A)
| Arr2 (ncols : nat) (rows : list (list A)).
Arguments Arr1 {A} v.
Arguments Arr2 {A} ncols rows.

Definition ndim {A} (x : ndarray A) : nat :=
  match x with Arr1 _ => 1 | Arr2 _ _ => 2 end.

(** [x.shape[axis]]; [None] when the array has no such axis. *)
Definition shape {A} (x : ndarray A) (axis : nat) : option nat :=
  match x, axis with
  | Arr1 v, O => Some (length v)
  | Arr2 _ rows, O => Some (length rows)
  | Arr2 c _, S O => Some c
  | _, _ => None
  end.

(** Every row of a 2-D array has [ncols] entries. *)
Definition wf_array {A} (x : ndarray A) : Prop :=
  match x with
  | Arr1 _ => True
  | Arr2 c rows => Forall (fun r => length r = c) rows
  end.

(** All entries, in row-major order ([x.flatten()]). *)
Definition flatten {A} (x : ndarray A) : list A :=
  match x with
  | Arr1 v => v
  | Arr2 _ rows => concat rows
  end.

Definition amap {A B} (f : A -> B) (x : ndarray A) : ndarray B :=
  match x with
  | Arr1 v => Arr1 (map f v)
  | Arr2 c rows => Arr2 c (map (map f) rows)
  end.

(** The columns of a list of rows of width [ncols]. *)
Fixpoint transpose {A} (ncols : nat) (rows : list (list A)) : list (list A) :=
  match rows with
  | [] => repeat [] ncols
  | r :: rs => map (fun p => fst p :: snd p) (combine r (transpose ncols rs))
  end.

(** The lines of an array along [axis]: the vector itself, the columns
    ([axis = 0]) or the rows ([axis = 1]) of a matrix. *)
Definition lines {A} (x : ndarray A) (axis : nat) : list (list A) :=
  match x, axis with
  | Arr1 v, _ => [v]
  | Arr2 c rows, 0%nat => transpose c rows
  | Arr2 _ rows, _ => rows
  end.

(** Boolean-mask selection [l[mask]] for a mask of the length of [l]. *)
Fixpoint select {A} (mask : list bool) (l : list A) : list A :=
  match mask, l with
  | b :: mask', a :: l' => if b then a :: select mask' l' else select mask' l'
  | _, _ => []
  end.

(** numpy refuses a boolean index whose length differs from the axis. *)
Definition masked {A} (mask : list bool) (l : list A) : result (list A) :=
  if Nat.eqb (length mask) (length l) then Ok (select mask l)
  else Raise IndexError.

Definition getitem {A} (l : list A) (i : nat) : result A :=
  match nth_error l i with
  | Some a => Ok a
  | None => Raise IndexError
  end.

(** [l[-1]]. *)
Definition getlast {A} (l : list A) : result A :=
  match rev l with
  | a :: _ => Ok a
  | [] => Raise IndexError
  end.

Definition count_true (l : list bool) : nat :=
  length (filter (fun b => b) l).

(** Modelled from the spec: [index_bw] of [maad.util], which is not part of
    the sources at hand: "returns a boolean/index selector for positions
    within [lo, hi]".  [leb] is the order of the numbers at hand. *)
Definition index_bw_by {A} (leb : A -> A -> bool) (fn : list A)
  (flim : A * A) : list bool :=
  map (fun f => leb (fst flim) f && leb f (snd flim)) fn.

(** Every entry is a finite number (no [inf], no [nan]). *)
Definition all_finite (x : ndarray num) : Prop :=
  Forall (fun v => Num.is_finite v = true) (flatten x).

Module Np.

Local Open Scope num_scope.

(** [np.sum] of a list. *)
Definition sum (l : list num) : num := fold_right Num.add Num.zero l.

(** [np.sum] over all the entries of an array. *)
Definition sum_all (x : ndarray num) : num := sum (flatten x).

(** [np.mean]; the mean of an empty slice is [nan] (and a warning). *)
Definition mean (l : list num) : num := sum l / Num.of_nat (length l).

Definition mean_nat (l : list nat) : num := mean (map Num.of_nat l).

(** [np.diff(l, 1)]: consecutive differences. *)
Fixpoint diff (l : list num) : list num :=
  match l with
  | a :: (b :: _) as tl => (b - a) :: diff tl
  | _ => []
  end.

(** [np.arange(start, stop, step)] on floats: [ceil((stop-start)/step)]
    values [start + i*step].  A zero step, or a bound or step that is not
    finite, is refused (the exception class depends on whether the
    arguments are Python or numpy scalars). *)
Definition arange (start stop step : num) : result (list num) :=
  match start, stop, step with
  | Fin a, Fin b, Fin s =>
      if Qeq_bool s 0 then Raise ZeroDivisionError
      else
        let len := Z.to_nat (Qceiling ((b - a) / s)) in
        Ok (map (fun i => Fin a + Num.of_nat i * Fin s) (seq 0 len))
  | _, _, _ => Raise ValueError
  end.

End Np.

(* ================================================================== *)
(** ** Binning engine: [intoBins] *)

Module Binning.

Local Open Scope num_scope.

(** The exception of the resolution test of [intoBins]: the source raises a
    bare [Exception] with this message; the specification calls it
    [InvalidArgument]. *)
Definition InvalidArgument : exn :=
  Exception
    "WARNING: bin step must be larger or equal than the actual resolution of x".

(** [mean(x[indices,:], axis=0)]: the column means of the selected rows. *)
Definition mean_rows_selected (x : ndarray num) (indices : list bool)
  : result (list num) :=
  match x with
  | Arr1 _ => Raise IndexError
  | Arr2 c rows =>
      sel <- masked indices rows ;;
      Ok (map Np.mean (transpose c sel))
  end.

(** [mean(x[:,indices], axis=1)]: the row means over the selected columns. *)
Definition mean_cols_selected (x : ndarray num) (indices : list bool)
  : result (list num) :=
  match x with
  | Arr1 _ => Raise IndexError
  | Arr2 c rows =>
      if Nat.eqb (length indices) c
      then Ok (map (fun r => Np.mean (select indices r)) rows)
      else Raise IndexError
  end.

(** [(an>=b0)*(an<b)]. *)
Definition in_bin (an : list num) (b0 b : num) : list bool :=
  map (fun a => (a >=? b0) && (a <? b)) an.

(** The loop over [bins[1:]]: [b0] is the lower edge of the current bin.
    Returns the lists [xbin] and [s]; nothing is appended to [xbin] for an
    axis other than 0 and 1. *)
Fixpoint bin_loop (x : ndarray num) (an : list num) (axis : nat) (b0 : num)
  (uppers : list num) : result (list (list num) * list nat) :=
  match uppers with
  | [] => Ok ([], [])
  | b :: rest =>
      let indices := in_bin an b0 b in
      row <- match axis with
             | 0%nat => r <- mean_rows_selected x indices ;; Ok [r]
             | 1%nat => r <- mean_cols_selected x indices ;; Ok [r]
             | _ => Ok []
             end ;;
      ' (xbin, s) <- bin_loop x an axis b rest ;;
      Ok (row ++ xbin, count_true indices :: s)
  end.

(** [np.asarray(xbin)] of a list of equally long vectors. *)
Definition asarray (xbin : list (list num)) : ndarray num :=
  match xbin with
  | [] => Arr1 []
  | r :: _ => Arr2 (length r) xbin
  end.

Definition intoBins (x : ndarray num) (an : list num) (bin_step : num)
  (axis : nat) (bin_min bin_max : option num)
  : result (ndarray num * list num) :=
  an1 <- getitem an 1 ;;
  an0 <- getitem an 0 ;;
  if bin_step <? (an1 - an0) then Raise InvalidArgument
  else
    bin_min <- match bin_min with None => getitem an 0 | Some b => Ok b end ;;
    bin_max <- match bin_max with None => getlast an | Some b => Ok b end ;;
    bins <- Np.arange bin_min (bin_max + bin_step) bin_step ;;
    b0 <- getitem bins 0 ;;
    ' (xbin, s) <- bin_loop x an axis b0 (tl bins) ;;
    let m := Np.mean_nat s in
    Ok (amap (fun v => v * m) (asarray xbin), removelast bins).

End Binning.

(* ================================================================== *)
(** ** Thresholded scoring and the Gini coefficient *)

(** A numpy reduction returns a scalar for a 1-D array and a vector for a
    2-D array. *)
Inductive value (A : Type) : Type :=
| Scalar (a : A)
| Vector (v : list A).
Arguments Scalar {A} a.
Arguments Vector {A} v.

Definition values {A} (v : value A) : list A :=
  match v with
  | Scalar a => [a]
  | Vector l => l
  end.

Module Stats.

Local Open Scope num_scope.

(** [sum(x, axis=axis)] of a boolean array, with [x.shape[axis]]. *)
Definition count_axis (x : ndarray bool) (axis : nat)
  : result (value nat * nat) :=
  match x, axis with
  | Arr1 v, 0%nat => Ok (Scalar (count_true v), length v)
  | Arr2 c rows, 0%nat =>
      Ok (Vector (map count_true (transpose c rows)), length rows)
  | Arr2 c rows, 1%nat => Ok (Vector (map count_true rows), c)
  | _, _ => Raise AxisError
  end.

(** [s = sum(x,axis=axis)/x.shape[axis]] for a count [k]. *)
Definition fraction (n k : nat) : num := Num.of_nat k / Num.of_nat n.

Definition score (x : ndarray num) (threshold : num) (axis : nat)
  : result (value num * value nat) :=
  let x := amap (fun v => v >=? threshold) x in
  ' (count, n) <- count_axis x axis ;;
  let s := match count with
           | Scalar k => Scalar (fraction n k)
           | Vector ks => Vector (map (fraction n) ks)
           end in
  Ok (s, count).

(** [np.max] over all the entries; a [nan] entry makes the result [nan]. *)
Definition max2 (a b : num) : num :=
  if Num.is_nan a then NaN else if Num.is_nan b then NaN
  else if a <=? b then b else a.

Definition amax (x : ndarray num) : result num :=
  match flatten x with
  | [] => Raise ValueError
  | a :: l => Ok (fold_left max2 l a)
  end.

(** The order of [ndarray.sort]: ascending, [nan] last. *)
Definition sort_leb (a b : num) : bool :=
  if Num.is_nan b then true
  else if Num.is_nan a then false
  else a <=? b.

Fixpoint insert (a : num) (l : list num) : list num :=
  match l with
  | [] => [a]
  | b :: l' => if sort_leb a b then a :: l else b :: insert a l'
  end.

Fixpoint sort (l : list num) : list num :=
  match l with
  | [] => []
  | a :: l' => insert a (sort l')
  end.

(** [np.arange(1, n+1, 1)]. *)
Definition ranks (n : nat) : list num := map Num.of_nat (seq 1 n).

(** Element-wise product [x * y]. *)
Definition mul_lists (x y : list num) : list num :=
  map (fun p => fst p * snd p) (combine x y).

(** [gini(x, corr)] on a 1-D array.  [x.sort()] sorts the caller's array in
    place: the second component is the content of [x] when the call
    returns. *)
Definition gini (x : list num) (corr : bool) : num * list num :=
  if Np.sum x =? Num.zero then (Fin 0, x)
  else
    let n := length x in
    let x := sort x in
    let G := Np.sum (mul_lists x (ranks n)) in
    let G := Num.of_nat 2 * G / Np.sum x - Num.of_nat (n + 1) in
    let G := if corr then G / Num.of_Z (Z.of_nat n - 1)
             else G / Num.of_nat n in
    (G, x).

End Stats.

(* ================================================================== *)
(** ** Composite indices: ACI and the soundscape index *)

Module Indices.

Local Open Scope string_scope.
Local Open Scope num_scope.

(** The divisor of the ['global'] normalisation: [sum(Sxx)]. *)
Definition global_denominator (Sxx : ndarray num) : num := Np.sum_all Sxx.

(** [abs(diff(Sxx,1))]: along the last axis. *)
Definition abs_diff (row : list num) : list num := map Num.abs (Np.diff row).

Definition acousticComplexityIndex (Sxx : ndarray num) (norm : string)
  : result (ndarray num * list num * num) :=
  ACI_xx <-
    (if String.eqb norm "per_bin" then
       match Sxx with
       | Arr1 _ => Raise AxisError
       | Arr2 c rows =>
           Ok (Arr2 (pred c)
                 (map (fun row => map (fun d => d / Np.sum row) (abs_diff row))
                    rows))
       end
     else if String.eqb norm "global" then
       let d := global_denominator Sxx in
       match Sxx with
       | Arr1 v => Ok (Arr1 (map (fun a => a / d) (abs_diff v)))
       | Arr2 c rows =>
           Ok (Arr2 (pred c)
                 (map (fun row => map (fun a => a / d) (abs_diff row)) rows))
       end
     else Raise UnboundLocalError) ;;
  match ACI_xx with
  | Arr1 _ => Raise AxisError
  | Arr2 _ rows =>
      let ACI_per_bin := map Np.sum rows in
      let ACI_sum := Np.sum ACI_per_bin in
      Ok (ACI_xx, ACI_per_bin, ACI_sum)
  end.

(** [index_bw] on the numbers of this module. *)
Definition index_bw (fn : list num) (flim : num * num) : list bool :=
  index_bw_by Num.leb fn flim.

(** [x[indf, ]]: the rows (entries, for a 1-D array) under the mask. *)
Definition getrows (x : ndarray num) (indf : list bool)
  : result (ndarray num) :=
  match x with
  | Arr1 v => sel <- masked indf v ;; Ok (Arr1 sel)
  | Arr2 c rows => sel <- masked indf rows ;; Ok (Arr2 c sel)
  end.

Definition _energy_per_freqbin (PSDxx : ndarray num) (fn : list num)
  (flim : num * num) (bin_step : num) : result num :=
  fn_last <- getlast fn ;;
  ' (PSDxx_bins, bins) <-
    Binning.intoBins PSDxx fn bin_step 0 (Some (Fin 0)) (Some fn_last) ;;
  let indf := index_bw bins flim in
  sel <- getrows PSDxx_bins indf ;;
  Ok (Np.sum_all sel).


(** [if step is None : step = fn[1]-fn[0]]. *)
Definition step_used (fn : list num) (step : option num) : result num :=
  match step with
  | None => a1 <- getitem fn 1 ;; a0 <- getitem fn 0 ;; Ok (a1 - a0)
  | Some s => Ok s
  end.






Definition soundscapeIndex (Sxx : ndarray num) (fn : list num)
  (flim_bioPh flim_antroPh : num * num) (step : option num)
  : result (num * num * num * num) :=
  step <- step_used fn step ;;
  let PSDxx := amap Num.square Sxx in
  bioPh <- _energy_per_freqbin PSDxx fn flim_bioPh step ;;
  antroPh <- _energy_per_freqbin PSDxx fn flim_antroPh step ;;
  let NDSI := (bioPh - antroPh) / (bioPh + antroPh) in
  let ratioBA := bioPh / antroPh in
  Ok (NDSI, ratioBA, antroPh, bioPh).








End Indices.

(* ================================================================== *)
(** ** Acoustic events *)

Module Events.

Local Open Scope num_scope.

(** Modelled from the spec: [rle] of [maad.util], which is not part of the
    sources at hand: "run-length encoding returning parallel arrays of run
    lengths and run values". *)
Fixpoint rle (x : list bool) : list nat * list bool :=
  match x with
  | [] => ([], [])
  | a :: tl =>
      match rle tl with
      | (n :: ls, v :: vs) =>
          if Bool.eqb a v then (S n :: ls, v :: vs)
          else (1%nat :: n :: ls, a :: v :: vs)
      | _ => ([1%nat], [a])
      end
  end.

(** [x[i]] with scipy's [border_value=0] outside the array. *)
Definition at_border (x : list bool) (i : Z) : bool :=
  if (i <? 0)%Z then false else nth (Z.to_nat i) x false.

(** scipy's [binary_erosion] of a 1-D array by a flat structure of [m]
    ones centred at [m/2]. *)
Definition binary_erosion (x : list bool) (m : nat) : list bool :=
  map (fun i =>
         forallb (fun j => at_border x
                             (Z.of_nat i + Z.of_nat j - Z.of_nat (m / 2)))
           (seq 0 m))
    (seq 0 (length x)).

(** scipy's [binary_dilation] by the same structure (reflected). *)
Definition binary_dilation (x : list bool) (m : nat) : list bool :=
  map (fun i =>
         existsb (fun j => at_border x
                             (Z.of_nat i - Z.of_nat j + Z.of_nat (m / 2)))
           (seq 0 m))
    (seq 0 (length x)).

(** Python's [round] on a float: to the nearest integer, halves to even. *)
Definition round_half_even (q : Q) : Z :=
  let f := Qfloor q in
  match (q - inject_Z f ?= 1 # 2)%Q with
  | Lt => f
  | Gt => (f + 1)%Z
  | Eq => if Z.even f then f else (f + 1)%Z
  end.

(** [int(round(rejectDuration / dt))]: Python's division refuses a zero
    divisor, [round] refuses [nan] and the infinities. *)
Definition rejectLength_of (rejectDuration dt : num) : result Z :=
  if dt =? Num.zero then Raise ZeroDivisionError
  else
    match rejectDuration / dt with
    | Fin q => Ok (round_half_even q)
    | NaN => Raise ValueError
    | _ => Raise OverflowError
    end.

Definition sum_nat (l : list nat) : nat := fold_right Nat.add 0%nat l.

(** The characteristics of the events of one binary vector:
    [(EVNsum, EVNmean, EVNcount)]. *)
Definition event_stats (dt duration : num) (b : list bool)
  : num * num * num :=
  let '(l, v) := rle b in
  let l1 := select v l in
  let EVNmean :=
    if negb (Nat.eqb (sum_nat l1) 0) then Np.mean_nat l1 * dt else Fin 0 in
  let EVNsum := Num.of_nat (sum_nat l1) * dt in
  let EVNcount := Num.of_nat (count_true v) / duration in
  (EVNsum, EVNmean, EVNcount).

(** [acoustic_events(xdB, dt, dB_threshold, rejectDuration)]; the last
    component is the binary array [EVN]. *)
Definition acoustic_events (xdB : ndarray num) (dt dB_threshold : num)
  (rejectDuration : option num)
  : result (value num * value num * value num * ndarray bool) :=
  let duration :=
    match xdB with
    | Arr1 v => Num.of_Z (Z.of_nat (length v) - 1) * dt
    | Arr2 c _ => Num.of_Z (Z.of_nat c - 1) * dt
    end in
  let EVN := amap (fun v => v >=? dB_threshold) xdB in
  EVN <- match rejectDuration with
         | None => Ok EVN
         | Some rd =>
             rejectLength <- rejectLength_of rd dt ;;
             if (rejectLength + 1 <=? 0)%Z then Raise ValueError
             else
               let m := Z.to_nat (rejectLength + 1) in
               let opening b := binary_dilation (binary_erosion b m) m in
               Ok match EVN with
                  | Arr1 v => Arr1 (opening v)
                  | Arr2 c rows => Arr2 c (map opening rows)
                  end
         end ;;
  match EVN with
  | Arr2 _ rows =>
      let st := map (event_stats dt duration) rows in
      Ok (Vector (map (fun t => fst (fst t)) st),
          Vector (map (fun t => snd (fst t)) st),
          Vector (map snd st), EVN)
  | Arr1 v =>
      let '(EVNsum, EVNmean, EVNcount) := event_stats dt duration v in
      Ok (Scalar EVNsum, Scalar EVNmean, Scalar EVNcount, EVN)
  end.

End Events.

(* ================================================================== *)
(** ** Entropy and the spectral entropies (over the reals) *)

Module Entropy.

Local Open Scope string_scope.
Local Open Scope R_scope.

(** [sys.float_info.min], the smallest positive normal double. *)
Definition _MIN_ : R := / 2 ^ 1022.

Definition Rleb (a b : R) : bool := if Rle_dec a b then true else false.
Definition Rltb (a b : R) : bool := if Rlt_dec a b then true else false.
Definition Reqb (a b : R) : bool := if Req_dec_T a b then true else false.

Definition Rsum (l : list R) : R := fold_right Rplus 0 l.
Definition Rmean (l : list R) : R := Rsum l / INR (length l).

(** [np.min] and [np.max] of a non-empty list. *)
Definition Rminimum (l : list R) : R :=
  match l with
  | [] => 0
  | a :: l' => fold_left Rmin l' a
  end.

Definition Rmaximum (l : list R) : R :=
  match l with
  | [] => 0
  | a :: l' => fold_left Rmax l' a
  end.

(** Modelled from the spec: [linear_scale] of [maad.util], which is not
    part of the sources at hand: "affine rescale of x into
    [minval, maxval]". *)
Definition linear_scale (x : ndarray R) (minval maxval : R) : ndarray R :=
  let lo := Rminimum (flatten x) in
  let hi := Rmaximum (flatten x) in
  amap (fun v => minval + (v - lo) * (maxval - minval) / (hi - lo)) x.

(** [pmf[pmf==0] = _MIN_]. *)
Definition zero_guard (p : R) : R := if Reqb p 0 then _MIN_ else p.

(** The probability mass function of one line: [datain/sum(datain,axis)]
    with its zeros replaced. *)
Definition pmf_of (line : list R) : list R :=
  map (fun a => zero_guard (a / Rsum line)) line.

(** [-sum(pmf*log(pmf),axis)/log(n)] for one line of length [n]. *)
Definition H_of (n : nat) (pmf : list R) : R :=
  - Rsum (map (fun p => p * ln p) pmf) / ln (INR n).

(** [entropy(datain, axis)]: the lines printed and the value returned
    ([None] is Python's [None]). *)
Definition entropy (datain : ndarray R) (axis : nat)
  : list string * option (value R) :=
  match shape datain axis with
  | None =>
      (["WARNING :axis is greater than the dimension of the array"], None)
  | Some 0%nat => (["WARNING: x is empty"], None)
  | Some 1%nat => ([], Some (Scalar 0))
  | Some n =>
      if Reqb (Rsum (flatten datain)) 0 then ([], Some (Scalar 0))
      else
        let datain :=
          if Rltb (Rminimum (flatten datain)) 0
          then linear_scale datain 0 1 else datain in
        ([], Some
               match datain, axis with
               | Arr1 v, _ => Scalar (H_of n (pmf_of v))
               | Arr2 c rows, 0%nat =>
                   Vector (map (fun col => H_of n (pmf_of col))
                             (transpose c rows))
               | Arr2 c rows, _ =>
                   Vector (map (fun row => H_of n (pmf_of row)) rows)
               end)
  end.

(** What the source computes for a one-hot vector with [i] zeros before
    and [j] zeros after its positive entry: each zero is replaced by
    [_MIN_] in the probability mass function and contributes
    [-_MIN_*log(_MIN_)]. *)
Definition one_hot_entropy (i j : nat) : R :=
  INR (i + j) * - (_MIN_ * ln _MIN_) / ln (INR (i + j + 1)).

(** [c * x]. *)
Definition scale (c : R) (x : ndarray R) : ndarray R :=
  amap (fun v => c * v) x.

End Entropy.

Module SpectralEntropy.

Import Entropy.
Local Open Scope string_scope.
Local Open Scope R_scope.

(** A call prints lines and then returns or raises. *)
Definition io (A : Type) : Type := (list string * result A)%type.

Definition io_bind {A B} (m : io A) (k : A -> io B) : io B :=
  match m with
  | (out, Ok a) => let (out', r) := k a in ((out ++ out')%list, r)
  | (out, Raise e) => (out, Raise e)
  end.

Definition io_lift {A} (r : result A) : io A := ([], r).

Notation "x <~ m ;; k" := (io_bind m (fun x => k))
  (at level 61, m at next level, right associativity).

(** The values [flim] can take: [None], a number, or a pair. *)
Inductive flim_arg : Type :=
| FlimNone
| FlimNumber (v : R)
| FlimTuple (fmin fmax : R).

(** [np.var] and [np.std] (population variance). *)
Definition Rvar (l : list R) : R :=
  let m := Rmean l in Rmean (map (fun a => (a - m) ^ 2) l).
Definition Rstd (l : list R) : R := sqrt (Rvar l).

Definition kurtosis (x : list R) : R :=
  let Nf := length x in
  let mean_x := Rmean x in
  let std_x := Rstd x in
  let z := map (fun a => a - mean_x) x in
  (Rsum (map (fun a => a ^ 4) z) / (INR Nf - 1)) / std_x ^ 4.

Definition skewness (x : list R) : R :=
  let Nf := length x in
  let mean_x := Rmean x in
  let std_x := Rstd x in
  let z := map (fun a => a - mean_x) x in
  (Rsum (map (fun a => a ^ 3) z) / (INR Nf - 1)) / std_x ^ 3.

(** [np.argmax]: the first index of the maximum. *)
Fixpoint argmax_from (best : R) (besti i : nat) (l : list R) : nat :=
  match l with
  | [] => besti
  | a :: l' =>
      if Rltb best a then argmax_from a i (S i) l'
      else argmax_from best besti (S i) l'
  end.

Definition argmax (l : list R) : result nat :=
  match l with
  | [] => Raise ValueError
  | a :: l' => Ok (argmax_from a 0 1 l')
  end.

(** [np.argmax] of a boolean vector: the first [True] (0 when none). *)
Fixpoint first_true (l : list bool) : nat :=
  match l with
  | [] => 0
  | b :: l' => if b then 0%nat else
                 if existsb (fun c => c) l' then S (first_true l') else 0%nat
  end.

Fixpoint mapM {A B} (f : A -> result B) (l : list A) : result (list B) :=
  match l with
  | [] => Ok []
  | a :: l' => b <- f a ;; bs <- mapM f l' ;; Ok (b :: bs)
  end.

(** [np.histogram(a, bins, range)]: [bins] bins of equal width over
    [range], the last one closed on the right; the counts only. *)
Definition histogram (a : list R) (bins : nat) (range : R * R)
  : result (list nat) :=
  let (lo, hi) := range in
  if Nat.eqb bins 0 then Raise ValueError
  else if Rltb hi lo then Raise ValueError
  else
    let (lo, hi) := if Reqb lo hi then (lo - / 2, hi + / 2) else (lo, hi) in
    let w := (hi - lo) / INR bins in
    Ok (map (fun j =>
               count_true
                 (map (fun v =>
                         Rleb (lo + INR j * w) v &&
                         (if Nat.eqb (S j) bins then Rleb v hi
                          else Rltb v (lo + INR (S j) * w)))
                    a))
          (seq 0 bins)).

(** [1 - entropy(x)] for a 1-D [x]: subtracting [None] is a [TypeError]. *)
Definition one_minus_entropy (x : list R) : io R :=
  let (out, H) := entropy (Arr1 x) 0 in
  (out, match H with
        | Some (Scalar h) => Ok (1 - h)
        | _ => Raise TypeError
        end).

(** The body of [spectral_entropy] once [flim] is a pair. *)
Definition spectral_indices (X : ndarray R) (fn : list R) (flim : R * R)
  : io (option (R * R * R * R * R * R)) :=
  let iBAND := index_bw_by Rleb fn flim in
  XB <~ io_lift match X with
                | Arr1 v => sel <- masked iBAND v ;; Raise AxisError
                | Arr2 c rows => sel <- masked iBAND rows ;; Ok (c, sel)
                end ;;
  let (c, XB) := XB : nat * list (list R) in
  EAS <~ one_minus_entropy (map Rmean XB) ;;
  ECU <~ one_minus_entropy (map Rvar XB) ;;
  X_CoV <~ io_lift (if Nat.eqb c 0 then Raise ValueError
                    else Ok (map (fun r => Rvar r / Rmaximum r) XB)) ;;
  ECV <~ one_minus_entropy X_CoV ;;
  let ioffset := first_true iBAND in
  let Nbins := count_true iBAND in
  imax_X <~ io_lift (mapM argmax (transpose c XB)) ;;
  imax_X <~ io_lift (mapM (fun i => getitem fn (i + ioffset)) imax_X) ;;
  max_X_bin <~ io_lift (histogram imax_X Nbins flim) ;;
  let total := fold_right Nat.add 0%nat max_X_bin in
  let max_X_bin := map (fun k => INR k / INR total) max_X_bin in
  EPS <~ one_minus_entropy max_X_bin ;;
  let KURT := kurtosis max_X_bin in
  let SKEW := skewness max_X_bin in
  io_lift (Ok (Some (EAS, ECU, ECV, EPS, KURT, SKEW))).

(** The line printed for a scalar [flim]. *)
Definition flim_warning : string :=
  "WARNING: flim must be a tupple (fmin, fmax) or None".

(** [spectral_entropy(X, fn, flim)]. *)
Definition spectral_entropy (X : ndarray R) (fn : list R) (flim : flim_arg)
  : io (option (R * R * R * R * R * R)) :=
  match flim with
  | FlimNumber _ => ([flim_warning], Ok None)
  | FlimTuple fmin fmax => spectral_indices X fn (fmin, fmax)
  | FlimNone =>
      flim <~ io_lift match fn with
                      | [] => Raise ValueError
                      | _ => Ok (Rminimum fn, Rmaximum fn)
                      end ;;
      spectral_indices X fn flim
  end.

End SpectralEntropy.

(* ================================================================== *)
(** ** Values of finite numbers and of reductions *)

(** The value of a finite number (0 for [inf] and [nan]). *)
Definition value_of (x : num) : Q :=
  match x with Fin q => q | _ => 0%Q end.

(** The sum of a list of rationals. *)
Definition Qsum (l : list Q) : Q := fold_right Qplus 0%Q l.

(** [c * x], entry by entry. *)
Definition scaled (c : num) (l : list num) : list num := map (Num.mul c) l.

(** The sum of the absolute values of a list of finite numbers. *)
Definition Qabs_sum (l : list num) : Q :=
  Qsum (map (fun v => Qabs (value_of v)) l).

(** [f] applied to a reduction's result, scalar or vector. *)
Definition vmap {A B} (f : A -> B) (v : value A) : value B :=
  match v with
  | Scalar a => Scalar (f a)
  | Vector l => Vector (map f l)
  end.

(* ================================================================== *)
(** ** Roughness *)

Module Roughness.

Local Open Scope string_scope.
Local Open Scope num_scope.

(** [sys.float_info.min], the smallest positive normal double,
    [2^-1022]. *)
Definition _MIN_ : num := Fin (1 # 2 ^ 1022).

(** [m[m==0] = _MIN_] and [if m==0 : m = _MIN_]. *)
Definition zero_guard (m : num) : num :=
  if m =? Num.zero then _MIN_ else m.

(** [np.max] of one line; a reduction over nothing is refused. *)
Definition max_line (l : list num) : result num := Stats.amax (Arr1 l).

(** [diff(l, 2)]: the second differences of a line. *)
Definition diff2 (l : list num) : list num := Np.diff (Np.diff l).

(** [sum(diff(l, 2)**2)] for one line. *)
Definition roughness_line (l : list num) : num :=
  Np.sum (map Num.square (diff2 l)).

(** [x/m[None,:]]: column [j] is divided by [m[j]]. *)
Definition div_columns (rows : list (list num)) (m : list num)
  : list (list num) :=
  map (fun row => map (fun p => fst p / snd p) (combine row m)) rows.

(** [x/m[:,None]]: row [i] is divided by [m[i]]. *)
Definition div_rows (rows : list (list num)) (m : list num)
  : list (list num) :=
  map (fun p => map (fun a => a / snd p) (fst p)) (combine rows m).

(** [roughness(x, norm, axis)].  With [norm='per_axis'] a vector has a
    scalar maximum, which the item assignment [m[m==0] = _MIN_] refuses;
    a [norm] that is neither ['per_axis'] nor ['global'] normalises
    nothing. *)
Definition roughness (x : ndarray num) (norm : option string) (axis : nat)
  : result (value num) :=
  x <- match norm with
       | None => Ok x
       | Some norm =>
           if String.eqb norm "per_axis" then
             match x, axis with
             | Arr1 v, 0%nat => _ <- max_line v ;; Raise TypeError
             | Arr2 c rows, 0%nat =>
                 if Nat.eqb (length rows) 0 then Raise ValueError
                 else
                   m <- SpectralEntropy.mapM max_line (transpose c rows) ;;
                   Ok (Arr2 c (div_columns rows (map zero_guard m)))
             | Arr2 c rows, 1%nat =>
                 if Nat.eqb c 0 then Raise ValueError
                 else
                   m <- SpectralEntropy.mapM max_line rows ;;
                   Ok (Arr2 c (div_rows rows (map zero_guard m)))
             | _, _ => Raise AxisError
             end
           else if String.eqb norm "global" then
             m <- Stats.amax x ;;
             Ok (amap (fun a => a / zero_guard m) x)
           else Ok x
       end ;;
  match x, axis with
  | Arr1 v, 0%nat => Ok (Scalar (roughness_line v))
  | Arr2 c rows, 0%nat => Ok (Vector (map roughness_line (transpose c rows)))
  | Arr2 _ rows, 1%nat => Ok (Vector (map roughness_line rows))
  | _, _ => Raise AxisError
  end.

(** The samples [a + i*b] of a straight line, [i = 0 .. n-1]. *)
Definition straight_line (a b : Q) (n : nat) : list num :=
  map (fun i => Fin a + Num.of_nat i * Fin b) (seq 0 n).

End Roughness.

(* ================================================================== *)
(** ** Rao's quadratic entropy *)

Module RaoQ.

Local Open Scope num_scope.

(** [a[..., np.newaxis] op a[np.newaxis, ...]]: the table of the
    [op a[i] a[j]]. *)
Definition outer (op : num -> num -> num) (a : list num)
  : list (list num) :=
  map (fun ai => map (fun aj => op ai aj) a) a.

(** The element-wise product of an [n x n] and an [m x m] table under
    numpy's broadcasting: the shapes agree, or one table is [1 x 1]. *)
Definition broadcast_mul (a b : list (list num))
  : result (list (list num)) :=
  if Nat.eqb (length a) (length b)
  then Ok (map (fun r => Stats.mul_lists (fst r) (snd r)) (combine a b))
  else
    match a, b with
    | [[v]], _ => Ok (map (map (fun d => v * d)) b)
    | _, [[d]] => Ok (map (map (fun v => v * d)) a)
    | _, _ => Raise ValueError
    end.

Definition raoQ (p bins : list num) : result num :=
  let s := Np.sum p in
  let p := map (fun a => a / s) p in
  let d := outer (fun bi bj => Num.abs (bi - bj)) bins in
  let pipj := outer Num.mul p in
  prod <- broadcast_mul pipj d ;;
  Ok (Np.sum (concat prod) / Num.of_nat (length bins ^ 2)).

End RaoQ.

(* ================================================================== *)
(** ** Time-frequency derivation *)

Module TFSD.

Local Open Scope num_scope.

(** [np.diff(x, n=1, axis=0)]: each row minus the row before it. *)
Fixpoint diff_rows (rows : list (list num)) : list (list num) :=
  match rows with
  | a :: (b :: _) as tl =>
      map (fun p => fst p - snd p) (combine b a) :: diff_rows tl
  | _ => []
  end.

(** [GRADdf_xx]: the difference along time, then along frequency. *)
Definition GRADdf_xx (rows : list (list num)) : list (list num) :=
  diff_rows (map Np.diff rows).

(** [sum(abs(g))] over all the entries of a list of rows. *)
Definition sum_abs (g : list (list num)) : num :=
  Np.sum (map Num.abs (concat g)).

(** [tfsd(Sxx, fn, flim)] with [thirdOctave=None], its default: the
    spectrogram is used as it is ([x = Sxx], [f = fn]); the conversion
    into octave bands is not part of this model. *)
Definition tfsd (Sxx : ndarray num) (fn : list num) (flim : num * num)
  : result (num * list num) :=
  match Sxx with
  | Arr1 _ => Raise AxisError
  | Arr2 _ rows =>
      let g := GRADdf_xx rows in
      sel <- masked (Indices.index_bw (removelast fn) flim) g ;;
      Ok (sum_abs sel / sum_abs g,
          map (fun row => Np.sum (map Num.abs row) / sum_abs g) sel)
  end.

End TFSD.

(* ================================================================== *)
(** ** Shannon entropy, surface roughness and the bioacoustics index
       (over the reals) *)

Module Shannon.

Import Entropy SpectralEntropy.
Local Open Scope R_scope.

(** [shannonEntropy(datain, axis)]: [datain.shape[axis]] is read first,
    then [entropy(datain, axis) * log(n)]; the product with the [None] of
    an empty axis is a [TypeError]. *)
Definition shannonEntropy (datain : ndarray R) (axis : nat)
  : io (value R) :=
  match shape datain axis with
  | None => ([], Raise IndexError)
  | Some n =>
      let (out, H) := entropy datain axis in
      (out, match H with
            | Some h => Ok (vmap (fun v => v * ln (INR n)) h)
            | None => Raise TypeError
            end)
  end.

(** The probabilities [x/sum(x)] of a line. *)
Definition probabilities (line : list R) : list R :=
  map (fun a => a / Rsum line) line.

(** Shannon's [-sum(p*log(p))], in nats. *)
Definition shannon (p : list R) : R := - Rsum (map (fun q => q * ln q) p).

End Shannon.

Module Surface.

Import Entropy.
Local Open Scope string_scope.
Local Open Scope R_scope.

(** [surfaceRoughness(Sxx, norm)]: the deviations [y] from the mean line,
    then their mean absolute value and their root mean square per row,
    and the means of both.  A [norm] other than ['per_bin'] and
    ['global'] leaves [y] unbound. *)
Definition surfaceRoughness (Sxx : ndarray R) (norm : string)
  : result (list R * list R * R * R) :=
  y <- (if String.eqb norm "per_bin" then
          match Sxx with
          | Arr1 _ => Raise AxisError
          | Arr2 c rows =>
              Ok (Arr2 c (map (fun row =>
                                 let m := Rmean row in
                                 map (fun a => a - m) row) rows))
          end
        else if String.eqb norm "global" then
          let m := Rmean (flatten Sxx) in
          Ok (amap (fun a => a - m) Sxx)
        else Raise UnboundLocalError) ;;
  match y with
  | Arr1 _ => Raise AxisError
  | Arr2 _ rows =>
      let Ra_per_bin := map (fun r => Rmean (map Rabs r)) rows in
      let Ra := Rmean Ra_per_bin in
      let Rq_per_bin :=
        map (fun r => sqrt (Rmean (map (fun a => a ^ 2) r))) rows in
      let Rq := Rmean Rq_per_bin in
      Ok (Ra_per_bin, Rq_per_bin, Ra, Rq)
  end.

End Surface.

Module Bioacoustics.

Import Entropy.
Local Open Scope R_scope.

(** Modelled from the spec: [linear2dB] of [maad.util], which is not part
    of the sources at hand: "mode distinguishes amplitude (x20 log10) vs
    power (x10 log10) scaling". *)
Definition linear2dB_amplitude (x : R) : R := 20 * (ln x / ln 10).

(** [bioacousticsIndex(Sxx, fn, flim, R_compatible)].  The quotients and
    the logarithm are those of [R]: the definition stands for the source
    where the maximum it divides by is not zero and, with [R_compatible],
    where the row means are positive (numpy gives [nan] or an infinity
    elsewhere); the properties below are stated under these conditions. *)
Definition bioacousticsIndex (Sxx : ndarray R) (fn : list R)
  (flim : R * R) (R_compatible : bool) : result R :=
  let indf := index_bw_by Rleb fn flim in
  fn1 <- getitem fn 1 ;;
  fn0 <- getitem fn 0 ;;
  let df := fn1 - fn0 in
  match flatten Sxx, Sxx with
  | [], _ => Raise ValueError
  | _, Arr1 _ => Raise AxisError
  | _, Arr2 _ rows =>
      if R_compatible then
        let m := Rmaximum (flatten Sxx) in
        let meanSxx := map (fun row => Rmean (map (fun a => a / m) row)) rows in
        let meanSxxdB := map linear2dB_amplitude meanSxx in
        sel <- masked indf meanSxxdB ;;
        match sel with
        | [] => Raise ValueError
        | _ =>
            let lo := Rminimum sel in
            Ok (Rsum (map (fun v => v - lo) sel) / df)
        end
      else
        let m := Rmaximum (map (fun a => a ^ 2) (flatten Sxx)) in
        let meanPSDxx_norm :=
          map (fun row => Rmean (map (fun a => a ^ 2 / m) row)) rows in
        Ok (sqrt (Rsum meanPSDxx_norm) * df)
  end.

End Bioacoustics.

(* ================================================================== *)
(** ** Acoustic richness *)

Module Richness.

Import SpectralEntropy.
Local Open Scope string_scope.
Local Open Scope Q_scope.

(** scipy's [rankdata] with its default method: the rank of a value is
    the mean of the positions its ties would occupy in the sorted
    array, counted from 1.  The values are finite. *)
Definition rankdata (a : list Q) : list Q :=
  map (fun x =>
         inject_Z (Z.of_nat (length (filter (fun y => negb (Qle_bool x y)) a)))
         + (inject_Z (Z.of_nat (length (filter (fun y => Qeq_bool y x) a)))
            + 1) / 2)
    a.

(** numpy's broadcasting of the product of two vectors. *)
Definition broadcast_mul (a b : list Q) : result (list Q) :=
  if Nat.eqb (length a) (length b)
  then Ok (map (fun p => fst p * snd p) (combine a b))
  else
    match a, b with
    | [v], _ => Ok (map (fun w => v * w) b)
    | _, [w] => Ok (map (fun v => v * w) a)
    | _, _ => Raise ValueError
    end.

(** The line printed when the lengths differ. *)
Definition length_warning : string :=
  "warning : Ht_array and M_array must have the same length".

(** [acousticRichnessIndex(Ht_array, M_array)]: the warning does not stop
    the call. *)
Definition acousticRichnessIndex (Ht_array M_array : list Q)
  : io (list Q) :=
  let out :=
    if Nat.eqb (length Ht_array) (length M_array) then []
    else [length_warning] in
  (out,
   prod <- broadcast_mul (rankdata Ht_array) (rankdata M_array) ;;
   Ok (map (fun v => v / inject_Z (Z.of_nat (length Ht_array ^ 2))) prod)).

End Richness.

(* ================================================================== *)
(** * Properties *)

(** ** Results and numbers *)

Unset Implicit Arguments.

(** Rational arithmetic stays folded under [simpl]. *)
#[local] Arguments Qred : simpl never.
#[local] Arguments Qplus : simpl never.
#[local] Arguments Qmult : simpl never.
#[local] Arguments Qminus : simpl never.
#[local] Arguments Qdiv : simpl never.
#[local] Arguments Qopp : simpl never.
#[local] Arguments Qabs : simpl never.
#[local] Arguments Qle_bool : simpl never.
#[local] Arguments Qeq_bool : simpl never.
#[local] Arguments Qcompare : simpl never.
#[local] Arguments inject_Z : simpl never.

Lemma bind_Ok :
  forall A B (a : A) (k : A -> result B), bind (Ok a) k = k a.
Proof. reflexivity. Qed.

Lemma bind_Raise_inv :
  forall A B (m : result A) (k : A -> result B) e,
    bind m k = Raise e ->
    m = Raise e \/ exists a, m = Ok a /\ k a = Raise e.
Proof.
  intros A B [a | e'] k e H; simpl in H.
  - right. exists a. split; [reflexivity | exact H].
  - left. inversion H. reflexivity.
Qed.

Lemma getitem_raises :
  forall A (l : list A) i e, getitem l i = Raise e -> e = IndexError.
Proof.
  intros A l i e. unfold getitem.
  destruct (nth_error l i); intro H; inversion H; reflexivity.
Qed.

Lemma getlast_raises :
  forall A (l : list A) e, getlast l = Raise e -> e = IndexError.
Proof.
  intros A l e. unfold getlast.
  destruct (rev l); intro H; inversion H; reflexivity.
Qed.

Lemma masked_raises :
  forall A (m : list bool) (l : list A) e,
    masked m l = Raise e -> e = IndexError.
Proof.
  intros A m l e. unfold masked.
  destruct (Nat.eqb _ _); intro H; inversion H; reflexivity.
Qed.

Lemma masked_same_length :
  forall A (m : list bool) (l : list A),
    length m = length l -> masked m l = Ok (select m l).
Proof.
  intros A m l H. unfold masked. rewrite H, Nat.eqb_refl. reflexivity.
Qed.

Module NumFacts.

Local Open Scope Q_scope.

Lemma sgn_Eq : forall q, Num.sgn q = Eq <-> q == 0.
Proof. intro q. unfold Num.sgn. symmetry. apply Qeq_alt. Qed.

Lemma sgn_Gt : forall q, Num.sgn q = Gt <-> 0 < q.
Proof. intro q. unfold Num.sgn. rewrite <- Qgt_alt. reflexivity. Qed.

Lemma sgn_Lt : forall q, Num.sgn q = Lt <-> q < 0.
Proof. intro q. unfold Num.sgn. rewrite <- Qlt_alt. reflexivity. Qed.

Lemma Qred_eq : forall p q, p == q -> Qred p = Qred q.
Proof. exact Qred_complete. Qed.

Lemma Qred_inject_Z : forall z, Qred (inject_Z z) = inject_Z z.
Proof.
  intro z. unfold inject_Z, Qred.
  destruct (Z.ggcd z 1) as [g [a b]] eqn:E.
  pose proof (Z.ggcd_gcd z 1) as Hg. rewrite E in Hg. simpl in Hg.
  pose proof (Z.ggcd_correct_divisors z 1) as Hd. rewrite E in Hd.
  rewrite Z.gcd_1_r in Hg. subst g. destruct Hd as [Ha Hb].
  rewrite Z.mul_1_l in Ha, Hb. subst a. subst b. reflexivity.
Qed.

Lemma ltb_Fin : forall a b, Num.ltb (Fin a) (Fin b) = true <-> a < b.
Proof.
  intros a b. simpl. rewrite negb_true_iff.
  split; intro H.
  - apply Qnot_le_lt. intro Hle. apply Qle_bool_iff in Hle. congruence.
  - destruct (Qle_bool b a) eqn:E; [| reflexivity].
    apply Qle_bool_iff in E. exfalso. apply (Qlt_not_le _ _ H E).
Qed.

Lemma leb_Fin : forall a b, Num.leb (Fin a) (Fin b) = true <-> a <= b.
Proof. intros a b. simpl. apply Qle_bool_iff. Qed.

Lemma eqb_Fin : forall a b, Num.eqb (Fin a) (Fin b) = true <-> a == b.
Proof. intros a b. simpl. apply Qeq_bool_iff. Qed.


Lemma div_Fin :
  forall a b, ~ b == 0 -> Num.div (Fin a) (Fin b) = Fin (Qred (a / b)).
Proof.
  intros a b Hb. unfold Num.div.
  destruct (Num.sgn b) eqn:E; try reflexivity.
  apply sgn_Eq in E. contradiction.
Qed.

Lemma div_zero_zero :
  forall a b, a == 0 -> b == 0 -> Num.div (Fin a) (Fin b) = NaN.
Proof.
  intros a b Ha Hb. unfold Num.div.
  apply sgn_Eq in Ha, Hb. rewrite Ha, Hb. reflexivity.
Qed.

End NumFacts.

(* ================================================================== *)
(** ** The binning engine *)

Module BinningFacts.

Import Binning.
Local Open Scope num_scope.

Lemma arange_raises :
  forall start stop step e,
    Np.arange start stop step = Raise e -> e <> InvalidArgument.
Proof.
  intros start stop step e H. unfold Np.arange in H.
  destruct start, stop, step; try (inversion H; discriminate).
  destruct (Qeq_bool q1 0); inversion H; discriminate.
Qed.

Lemma mean_rows_selected_raises :
  forall x ind e, mean_rows_selected x ind = Raise e -> e = IndexError.
Proof.
  intros [v | c rows] ind e H; simpl in H.
  - inversion H; reflexivity.
  - destruct (masked ind rows) eqn:E; simpl in H; [discriminate |].
    inversion H; subst. eapply masked_raises; eassumption.
Qed.

Lemma mean_cols_selected_raises :
  forall x ind e, mean_cols_selected x ind = Raise e -> e = IndexError.
Proof.
  intros [v | c rows] ind e H; simpl in H.
  - inversion H; reflexivity.
  - destruct (Nat.eqb _ _); inversion H; reflexivity.
Qed.

(** The loop raises nothing but numpy's [IndexError]. *)
Lemma bin_loop_raises :
  forall x an axis uppers b0 e,
    bin_loop x an axis b0 uppers = Raise e -> e = IndexError.
Proof.
  intros x an axis uppers.
  induction uppers as [| b rest IH]; intros b0 e H; simpl in H.
  - discriminate.
  - apply bind_Raise_inv in H. destruct H as [H | [row [Hrow H]]].
    + destruct axis as [| [| k]].
      * apply bind_Raise_inv in H. destruct H as [H | [r [_ H]]];
          [eapply mean_rows_selected_raises; eassumption | discriminate].
      * apply bind_Raise_inv in H. destruct H as [H | [r [_ H]]];
          [eapply mean_cols_selected_raises; eassumption | discriminate].
      * discriminate.
    + apply bind_Raise_inv in H. destruct H as [H | [[xbin s] [_ H]]].
      * eapply IH; eassumption.
      * discriminate.
Qed.

(** On a 2-D array whose binned axis has the length of [an], the loop
    completes. *)
Lemma bin_loop_ok :
  forall c rows an axis uppers b0,
    (axis = 0%nat -> length rows = length an) ->
    (axis = 1%nat -> c = length an) ->
    exists xbin s, bin_loop (Arr2 c rows) an axis b0 uppers = Ok (xbin, s).
Proof.
  intros c rows an axis uppers. induction uppers as [| b rest IH];
    intros b0 H0 H1; simpl.
  - eauto.
  - destruct (IH b H0 H1) as [xbin [s E]]. rewrite E.
    destruct axis as [| [| k]]; simpl.
    + rewrite masked_same_length
        by (unfold in_bin; rewrite length_map; symmetry; auto).
      simpl. eauto.
    + unfold in_bin. rewrite length_map, <- (H1 eq_refl), Nat.eqb_refl.
      simpl. eauto.
    + eauto.
Qed.

(** [np.arange] over a positive span with a positive step has a first
    element. *)
Lemma arange_nonempty :
  forall a b s,
    (0 < s)%Q -> (a < b)%Q ->
    exists b0 rest, Np.arange (Fin a) (Fin b) (Fin s) = Ok (b0 :: rest).
Proof.
  intros a b s Hs Hab. unfold Np.arange.
  destruct (Qeq_bool s 0) eqn:E.
  - apply Qeq_bool_iff in E. rewrite E in Hs. exfalso.
    apply (Qlt_irrefl 0 Hs).
  - assert (Hpos : (0 < (b - a) / s)%Q).
    { apply Qlt_shift_div_l; [exact Hs |]. lra. }
    assert (Hc : (0 < Qceiling ((b - a) / s))%Z).
    { pose proof (Qle_ceiling ((b - a) / s)) as Hle.
      rewrite Zlt_Qlt. eapply Qlt_le_trans; eassumption. }
    destruct (Z.to_nat (Qceiling ((b - a) / s))) as [| n] eqn:En; [lia |].
    simpl. eauto.
Qed.

(** A positive native resolution below a finite step makes the step
    positive. *)
Lemma step_positive :
  forall a0 a1 s,
    (a0 <? a1) = true -> (Fin s >=? a1 - a0) = true -> (0 < s)%Q.
Proof.
  intros a0 a1 s Hlt Hge. unfold Num.geb in Hge.
  destruct a0 as [p0 | | |], a1 as [p1 | | |]; simpl in Hlt, Hge;
    try discriminate.
  apply (proj1 (NumFacts.ltb_Fin p0 p1)) in Hlt.
  apply Qle_bool_iff in Hge.
  pose proof (Qred_correct (- p0)) as E0.
  pose proof (Qred_correct (p1 + Qred (- p0))) as E1.
  lra.
Qed.

(** X1 (the part of C2 the code keeps): [intoBins] raises the exception of
    its resolution test exactly when [bin_step] is strictly smaller than
    [an[1]-an[0]]; and with [bin_step] at least that (positive) resolution,
    finite bounds in order and a 2-D [x] whose binned axis matches [an], it
    returns the binned array and the bin positions. *)
Theorem intoBins_InvalidArgument_iff :
  forall x an bin_step axis bin_min bin_max,
    (intoBins x an bin_step axis bin_min bin_max = Raise InvalidArgument <->
     exists a0 a1 rest,
       an = a0 :: a1 :: rest /\ (bin_step <? a1 - a0) = true)
    /\
    (forall c rows a0 a1 rest lo hi,
        x = Arr2 c rows ->
        an = a0 :: a1 :: rest ->
        (axis = 0%nat -> length rows = length an) ->
        (axis = 1%nat -> c = length an) ->
        (a0 <? a1) = true ->
        (bin_step >=? a1 - a0) = true ->
        Num.is_finite bin_step = true ->
        match bin_min with Some b => b | None => a0 end = Fin lo ->
        match bin_max with Some b => Ok b | None => getlast an end
        = Ok (Fin hi) ->
        (lo <= hi)%Q ->
        exists xbin bins,
          intoBins x an bin_step axis bin_min bin_max = Ok (xbin, bins)).
Proof.
  intros x an bin_step axis bin_min bin_max. split.
  - unfold intoBins. split.
    + intro H.
      destruct an as [| a0 [| a1 rest]]; try (simpl in H; discriminate).
      exists a0, a1, rest. split; [reflexivity |].
      simpl in H. destruct (bin_step <? a1 - a0) eqn:E; [reflexivity |].
      exfalso.
      apply bind_Raise_inv in H. destruct H as [H | [lo [_ H]]].
      { destruct bin_min; [discriminate |].
        apply getitem_raises in H. discriminate. }
      apply bind_Raise_inv in H. destruct H as [H | [hi [_ H]]].
      { destruct bin_max; [discriminate |].
        apply getlast_raises in H. discriminate. }
      apply bind_Raise_inv in H. destruct H as [H | [bins [_ H]]].
      { apply arange_raises in H. congruence. }
      apply bind_Raise_inv in H. destruct H as [H | [b0 [_ H]]].
      { apply getitem_raises in H. discriminate. }
      apply bind_Raise_inv in H. destruct H as [H | [[xbin s] [_ H]]].
      { apply bin_loop_raises in H. discriminate. }
      discriminate.
    + intros [a0 [a1 [rest [-> E]]]]. simpl. rewrite E. reflexivity.
  - intros c rows a0 a1 rest lo hi -> -> H0 H1 Hlt Hge Hfin Hlo Hhi Hle.
    destruct bin_step as [s | | |]; try discriminate.
    pose proof (@step_positive _ _ _ Hlt Hge) as Hs.
    unfold intoBins. cbn [getitem nth_error bind].
    assert (E : (Fin s <? a1 - a0) = false).
    { unfold Num.geb in Hge.
      destruct (a1 - a0) as [r | | |]; simpl in Hge |- *;
        try discriminate; try reflexivity.
      rewrite Hge. reflexivity. }
    rewrite E.
    assert (Emin : match bin_min with
                   | Some b => Ok b
                   | None => Ok a0
                   end = Ok (Fin lo)).
    { destruct bin_min; simpl in Hlo; rewrite Hlo; reflexivity. }
    rewrite Emin, bind_Ok, Hhi, bind_Ok.
    destruct (@arange_nonempty lo (Qred (hi + s)) s Hs) as [b0 [bins Ea]].
    { rewrite Qred_correct. lra. }
    simpl Num.add. rewrite Ea. cbn [bind getitem nth_error].
    destruct (@bin_loop_ok c rows (a0 :: a1 :: rest) axis (tl (b0 :: bins))
                b0 H0 H1) as [xbin [ss El]].
    rewrite El. simpl. eauto.
Qed.

(** A vector is indexed with two subscripts ([x[indices,:]], [x[:,indices]])
    as soon as there is a bin: whenever [intoBins] returns on a 1-D [x]
    with [axis] 0 or 1, it returns no bin at all. *)
Lemma intoBins_vector_no_bin :
  forall v an bin_step axis bin_min bin_max xbin bins,
    (axis <= 1)%nat ->
    intoBins (Arr1 v) an bin_step axis bin_min bin_max = Ok (xbin, bins) ->
    xbin = Arr1 [] /\ bins = [].
Proof.
  intros v an bin_step axis bin_min bin_max xbin bins Hax H.
  unfold intoBins in H.
  destruct (getitem an 1) as [an1 | e]; [| discriminate]. cbn [bind] in H.
  destruct (getitem an 0) as [an0 | e]; [| discriminate]. cbn [bind] in H.
  destruct (bin_step <? an1 - an0); [discriminate |].
  destruct (match bin_min with None => Ok an0 | Some b => Ok b end)
    as [lo | e]; [| discriminate]. cbn [bind] in H.
  destruct (match bin_max with None => getlast an | Some b => Ok b end)
    as [hi | e]; [| discriminate]. cbn [bind] in H.
  destruct (Np.arange lo (hi + bin_step) bin_step) as [edges | e];
    [| discriminate]. cbn [bind] in H.
  destruct edges as [| b0 [| b1 edges]]; [discriminate | |].
  - simpl in H. inversion H. split; reflexivity.
  - exfalso. cbn [getitem nth_error bind tl bin_loop] in H.
    destruct axis as [| [| k]]; [| | lia]; discriminate H.
Qed.

(** C2 (the code departs from the claim): with [bin_step] equal to the
    native resolution, [intoBins] on the vector [1, 2, 3] over the
    positions [0, 1, 2] raises numpy's [IndexError] instead of returning the
    binned vector, although its documentation announces a "1D or 2D
    array". *)
Theorem intoBins_vector_raises :
  (Fin 1 <? Fin 1 - Fin 0) = false
  /\ intoBins (Arr1 [Fin 1; Fin 2; Fin 3]) [Fin 0; Fin 1; Fin 2] (Fin 1)
       0 None None
     = Raise IndexError.
Proof. split; vm_compute; reflexivity. Qed.

End BinningFacts.

(* ================================================================== *)
(** ** Arrays *)

Lemma transpose_map :
  forall A B (f : A -> B) c rows,
    transpose c (map (map f) rows) = map (map f) (transpose c rows).
Proof.
  intros A B f c rows. induction rows as [| r rs IH]; simpl.
  - induction c as [| c IHc]; simpl; [reflexivity | now rewrite IHc].
  - rewrite IH. generalize (transpose c rs) as cols.
    induction r as [| a r IHr]; intros [| col cols]; simpl;
      try reflexivity.
    now rewrite IHr.
Qed.

Lemma transpose_lengths :
  forall A c (rows : list (list A)),
    Forall (fun col => length col = length rows) (transpose c rows).
Proof.
  intros A c rows. induction rows as [| r rs IH]; simpl.
  - induction c as [| c IHc]; simpl; constructor; auto.
  - revert IH. generalize (transpose c rs) as cols. revert r.
    induction r as [| a r IHr]; intros [| col cols] H; simpl;
      try constructor.
    + simpl. inversion H; subst. now f_equal.
    + apply IHr. inversion H; assumption.
Qed.


Lemma count_true_map :
  forall A (f : A -> bool) l,
    count_true (map f l) = length (filter f l).
Proof.
  intros A f l. unfold count_true. induction l as [| a l IH]; simpl.
  - reflexivity.
  - destruct (f a); simpl; now rewrite IH.
Qed.

Lemma count_true_le : forall l, (count_true l <= length l)%nat.
Proof. intro l. unfold count_true. apply filter_length_le. Qed.

Lemma transpose_In :
  forall A c (rows : list (list A)) col a,
    In col (transpose c rows) -> In a col -> In a (concat rows).
Proof.
  intros A c rows. induction rows as [| r rs IH]; intros col a Hcol Ha.
  - simpl in Hcol. apply repeat_spec in Hcol. subst. contradiction.
  - simpl in Hcol. apply in_map_iff in Hcol.
    destruct Hcol as [[h t] [<- Hin]]. simpl in Ha.
    simpl. apply in_or_app. destruct Ha as [<- | Ha].
    + left. eapply in_combine_l; eassumption.
    + right. apply in_combine_r in Hin. eapply IH; eassumption.
Qed.

(** Every entry of a line is an entry of the array. *)
Lemma lines_In :
  forall A (x : ndarray A) axis line a,
    In line (lines x axis) -> In a line -> In a (flatten x).
Proof.
  intros A [v | c rows] axis line a Hl Ha; simpl in *.
  - destruct Hl as [<- | []]. exact Ha.
  - destruct axis as [| k].
    + eapply transpose_In; eassumption.
    + apply in_concat. eauto.
Qed.

(** Every line along [axis] has [shape[axis]] entries. *)
Lemma lines_length :
  forall A (x : ndarray A) axis n,
    wf_array x -> shape x axis = Some n ->
    Forall (fun line => length line = n) (lines x axis).
Proof.
  intros A [v | c rows] axis n Hwf Hs; simpl in *.
  - destruct axis; inversion Hs; subst. constructor; auto.
  - destruct axis as [| [| k]]; inversion Hs; subst.
    + apply transpose_lengths.
    + exact Hwf.
Qed.

(* ================================================================== *)
(** ** Scoring and the Gini coefficient *)

Module StatsFacts.

Import Stats.
Local Open Scope num_scope.

Lemma of_nat_pos : forall n, (0 < n)%nat -> (0 < inject_Z (Z.of_nat n))%Q.
Proof.
  intros n H. change 0%Q with (inject_Z 0). rewrite <- Zlt_Qlt. lia.
Qed.

Lemma fraction_bounds :
  forall n k,
    (0 < n)%nat -> (k <= n)%nat ->
    exists q, fraction n k = Fin q /\ (0 <= q <= 1)%Q.
Proof.
  intros n k Hn Hk. unfold fraction, Num.of_nat, Num.of_Z.
  pose proof (of_nat_pos n Hn) as Hpos.
  rewrite NumFacts.div_Fin by lra.
  eexists. split; [reflexivity |].
  rewrite Qred_correct.
  assert (H0 : (0 <= inject_Z (Z.of_nat k))%Q)
    by (change 0%Q with (inject_Z 0); rewrite <- Zle_Qle; lia).
  assert (H1 : (inject_Z (Z.of_nat k) <= inject_Z (Z.of_nat n))%Q)
    by (rewrite <- Zle_Qle; lia).
  split.
  - apply Qle_shift_div_l; [exact Hpos | lra].
  - apply Qle_shift_div_r; [exact Hpos | lra].
Qed.

Lemma fraction_zero :
  forall n, (0 < n)%nat -> fraction n 0 = Fin 0.
Proof.
  intros n Hn. unfold fraction, Num.of_nat, Num.of_Z.
  pose proof (of_nat_pos n Hn) as Hpos.
  rewrite NumFacts.div_Fin by lra.
  reflexivity.
Qed.

(** The running maximum of finite numbers is finite and bounds them. *)
Lemma fold_max2_finite :
  forall l a,
    Forall (fun v => Num.is_finite v = true) l ->
    exists m,
      fold_left max2 l (Fin a) = Fin m /\ (a <= m)%Q /\
      Forall (fun v => exists q, v = Fin q /\ (q <= m)%Q) l.
Proof.
  induction l as [| v l IH]; intros a H; simpl.
  - exists a. split; [reflexivity |]. split; [lra | constructor].
  - inversion H as [| v' l' Hv Hl]; subst.
    destruct v as [q | | |]; try discriminate.
    unfold max2 at 2. simpl Num.is_nan. cbv iota.
    destruct (Fin a <=? Fin q) eqn:E.
    + apply NumFacts.leb_Fin in E.
      destruct (IH q Hl) as [m [Em [Hm Hall]]].
      exists m. split; [exact Em |]. split; [lra |].
      constructor; [exists q; split; [reflexivity | exact Hm] | exact Hall].
    + assert (Hqa : (q <= a)%Q).
      { apply Qlt_le_weak. apply Qnot_le_lt. intro Hle.
        apply NumFacts.leb_Fin in Hle. congruence. }
      destruct (IH a Hl) as [m [Em [Hm Hall]]].
      exists m. split; [exact Em |]. split; [exact Hm |].
      constructor; [exists q; split; [reflexivity | lra] | exact Hall].
Qed.

Lemma amax_finite :
  forall x m,
    all_finite x -> amax x = Ok m ->
    exists q, m = Fin q /\
              Forall (fun v => exists p, v = Fin p /\ (p <= q)%Q) (flatten x).
Proof.
  intros x m Hfin H. unfold amax in H. unfold all_finite in Hfin.
  destruct (flatten x) as [| a l]; [discriminate |].
  inversion Hfin as [| a' l' Ha Hl]; subst.
  destruct a as [a | | |]; try discriminate.
  destruct (fold_max2_finite l a Hl) as [q [Eq [Haq Hall]]].
  inversion H; subst. exists q. split; [exact Eq |].
  constructor; [exists a; split; [reflexivity | exact Haq] | exact Hall].
Qed.

(** [score] computes, for each line along [axis], the number of entries at
    or above the threshold and its share of the line. *)
Lemma score_lines :
  forall x t axis n,
    shape x axis = Some n ->
    exists count,
      score x t axis
      = Ok (match count with
            | Scalar k => Scalar (fraction n k)
            | Vector ks => Vector (map (fraction n) ks)
            end, count) /\
      values count
      = map (fun line => length (filter (fun v => v >=? t) line))
          (lines x axis).
Proof.
  intros [v | c rows] t axis n Hs; unfold score; simpl in *.
  - destruct axis; inversion Hs; subst. simpl.
    exists (Scalar (count_true (map (fun v => v >=? t) v))).
    rewrite length_map. split; [reflexivity |].
    simpl. now rewrite count_true_map.
  - destruct axis as [| [| k]]; inversion Hs; subst; simpl.
    + eexists (Vector _). rewrite length_map. split; [reflexivity |].
      simpl. rewrite transpose_map, map_map.
      apply map_ext. intro col. apply count_true_map.
    + eexists (Vector _). split; [reflexivity |].
      simpl. rewrite map_map. apply map_ext. intro row.
      apply count_true_map.
Qed.

Lemma values_fractions :
  forall n (count : value nat),
    values (match count with
            | Scalar k => Scalar (fraction n k)
            | Vector ks => Vector (map (fraction n) ks)
            end)
    = map (fraction n) (values count).
Proof. intros n [k | ks]; reflexivity. Qed.

(** The fraction is the count over the length of the axis. *)
Lemma fraction_value :
  forall n k,
    (0 < n)%nat ->
    has_value (fraction n k)
      (inject_Z (Z.of_nat k) / inject_Z (Z.of_nat n)).
Proof.
  intros n k Hn. unfold fraction, Num.of_nat, Num.of_Z.
  pose proof (of_nat_pos n Hn) as Hpos.
  rewrite NumFacts.div_Fin by lra.
  eexists. split; [reflexivity | apply Qred_correct].
Qed.

Lemma Forall2_map_l :
  forall A B (P : B -> A -> Prop) (f : A -> B) l,
    (forall a, In a l -> P (f a) a) -> Forall2 P (map f l) l.
Proof.
  intros A B P f l H. induction l as [| a l IH]; simpl; constructor.
  - apply H. now left.
  - apply IH. intros b Hb. apply H. now right.
Qed.

Lemma filter_none :
  forall A (f : A -> bool) l,
    Forall (fun a => f a = false) l -> filter f l = [].
Proof.
  intros A f l H. induction H as [| a l Ha Hl IH]; simpl.
  - reflexivity.
  - rewrite Ha. exact IH.
Qed.

(** The maximum is at or above both arguments. *)
Lemma max2_below :
  forall a v q,
    (max2 a v <=? Fin q) = true ->
    (a <=? Fin q) = true /\ (v <=? Fin q) = true.
Proof.
  intros a v q H. unfold max2 in H.
  destruct a as [p | | |], v as [r | | |]; simpl in H; try discriminate;
    simpl; auto.
  destruct (Qle_bool p r) eqn:E; simpl in H; rewrite Qle_bool_iff in H.
  - apply Qle_bool_iff in E. rewrite !Qle_bool_iff. split; lra.
  - assert (Hrp : (r <= p)%Q).
    { apply Qlt_le_weak. apply Qnot_le_lt. intro Hle.
      apply Qle_bool_iff in Hle. congruence. }
    rewrite !Qle_bool_iff. split; lra.
Qed.

Lemma fold_max2_below :
  forall l a q,
    (fold_left max2 l a <=? Fin q) = true ->
    (a <=? Fin q) = true /\ Forall (fun v => (v <=? Fin q) = true) l.
Proof.
  induction l as [| v l IH]; intros a q H; simpl in H.
  - split; [exact H | constructor].
  - destruct (IH _ _ H) as [Hm Hl].
    destruct (max2_below a v q Hm) as [Ha Hv].
    split; [exact Ha | constructor; assumption].
Qed.

(** No entry is above a finite maximum. *)
Lemma amax_below :
  forall x q,
    amax x = Ok (Fin q) ->
    Forall (fun v => (v <=? Fin q) = true) (flatten x).
Proof.
  intros x q H. unfold amax in H.
  destruct (flatten x) as [| a l]; [discriminate |].
  assert (Hq : fold_left max2 l a = Fin q) by congruence.
  assert (Hle : (fold_left max2 l a <=? Fin q) = true).
  { rewrite Hq. apply NumFacts.leb_Fin. lra. }
  destruct (fold_max2_below l a q Hle) as [Ha Hl].
  constructor; assumption.
Qed.

(** Nothing at or below [q] is at or above [q + 1]. *)
Lemma below_successor :
  forall v q, (v <=? Fin q) = true -> (v >=? Fin q + Fin 1) = false.
Proof.
  intros [p | | |] q H; simpl in H; try discriminate; try reflexivity.
  apply Qle_bool_iff in H. apply not_true_iff_false. intro G.
  unfold Num.geb in G. simpl in G. apply Qle_bool_iff in G.
  pose proof (Qred_correct (q + 1)) as Er. lra.
Qed.

(** In exact arithmetic the successor of a finite maximum is above it. *)
Lemma finite_maximum_successor :
  forall x m,
    all_finite x -> amax x = Ok m -> (m <? m + Fin 1) = true.
Proof.
  intros x m Hfin Hm. destruct (amax_finite x m Hfin Hm) as [q [-> _]].
  apply NumFacts.ltb_Fin. pose proof (Qred_correct (q + 1)) as Er. lra.
Qed.

(** C8 (amended): for an array that is not empty along [axis], [score]
    returns, for each line along the axis, the number [k] of entries at or
    above the threshold, between 0 and [n = x.shape[axis]], and the
    fraction [k/n], between 0 and 1.  When no entry is at or above the
    threshold every count and every fraction is 0; [max(x)+1] is such a
    threshold whenever it is above [max(x)]. *)
Theorem score_in_bounds :
  forall x t axis n,
    wf_array x -> shape x axis = Some n -> (0 < n)%nat ->
    exists s count,
      score x t axis = Ok (s, count) /\
      values count
      = map (fun line => length (filter (fun v => v >=? t) line))
          (lines x axis) /\
      Forall (fun k => (0 <= k <= n)%nat) (values count) /\
      Forall2
        (fun f k =>
           has_value f (inject_Z (Z.of_nat k) / inject_Z (Z.of_nat n)))
        (values s) (values count) /\
      Forall (fun f => exists q, f = Fin q /\ (0 <= q <= 1)%Q) (values s) /\
      (Forall (fun v => (v >=? t) = false) (flatten x) ->
       Forall (fun k => k = 0%nat) (values count) /\
       Forall (fun f => f = Fin 0) (values s)) /\
      (forall m,
          amax x = Ok m -> (m <? m + Fin 1) = true ->
          exists s0 count0,
            score x (m + Fin 1) axis = Ok (s0, count0) /\
            Forall (fun k => k = 0%nat) (values count0) /\
            Forall (fun f => f = Fin 0) (values s0)).
Proof.
  intros x t axis n Hwf Hs Hn.
  pose proof (lines_length _ x axis n Hwf Hs) as Hlen.
  destruct (score_lines x t axis n Hs) as [count [E Hv]].
  assert (Hk : Forall (fun k => (0 <= k <= n)%nat) (values count)).
  { rewrite Hv. apply Forall_map.
    eapply Forall_impl; [| exact Hlen]. intros line Hl. simpl in *.
    split; [lia |]. rewrite <- Hl. apply filter_length_le. }
  assert (Hzero : forall t0 count0,
             values count0
             = map (fun line => length (filter (fun v => v >=? t0) line))
                 (lines x axis) ->
             Forall (fun v => (v >=? t0) = false) (flatten x) ->
             Forall (fun k => k = 0%nat) (values count0) /\
             Forall (fun f => f = Fin 0)
               (map (fraction n) (values count0))).
  { intros t0 count0 Hv0 Hnone.
    assert (H0 : Forall (fun k => k = 0%nat) (values count0)).
    { rewrite Hv0. apply Forall_map. apply Forall_forall.
      intros line Hline. rewrite filter_none; [reflexivity |].
      apply Forall_forall. intros a Ha.
      rewrite Forall_forall in Hnone. apply Hnone.
      eapply lines_In; eassumption. }
    split; [exact H0 |]. apply Forall_map.
    eapply Forall_impl; [| exact H0]. intros k ->. simpl.
    apply fraction_zero. exact Hn. }
  eexists. exists count. split; [exact E |]. split; [exact Hv |].
  split; [exact Hk |]. rewrite values_fractions.
  split; [| split; [| split]].
  - apply Forall2_map_l. intros k _. apply fraction_value. exact Hn.
  - apply Forall_map.
    eapply Forall_impl; [| exact Hk]. intros k [_ Hle]. simpl.
    apply fraction_bounds; assumption.
  - apply (Hzero t). exact Hv.
  - intros m Hm Hsucc.
    destruct m as [q | | |]; try discriminate.
    destruct (score_lines x (Fin q + Fin 1) axis n Hs) as [count0 [E0 Hv0]].
    eexists. exists count0. split; [exact E0 |].
    rewrite values_fractions.
    apply (Hzero (Fin q + Fin 1)); [exact Hv0 |].
    eapply Forall_impl; [| exact (amax_below x q Hm)].
    intros v Hle. apply below_successor. exact Hle.
Qed.

(** C8 (the claim as stated fails): [max(x)+1] is not above an infinite
    maximum, and the fraction of an empty axis is 0/0.  Both entries of
    [-inf, -inf] are at or above [max(x)+1 = -inf]: the count is 2 and the
    fraction 1; on an empty vector the fraction is [nan]. *)
Lemma score_of_infinite_maximum :
  amax (Arr1 [NInf; NInf]) = Ok NInf
  /\ score (Arr1 [NInf; NInf]) (NInf + Fin 1) 0
     = Ok (Scalar (Fin 1), Scalar 2%nat)
  /\ score (Arr1 []) (Fin 0) 0 = Ok (Scalar NaN, Scalar 0%nat).
Proof. repeat split; vm_compute; reflexivity. Qed.

End StatsFacts.

Module GiniFacts.

Import Stats.
Local Open Scope num_scope.

Lemma insert_perm : forall a l, Permutation (a :: l) (insert a l).
Proof.
  intros a l. induction l as [| b l IH]; simpl.
  - apply Permutation_refl.
  - destruct (sort_leb a b).
    + apply Permutation_refl.
    + eapply perm_trans; [apply perm_swap |]. now apply perm_skip.
Qed.

Lemma sort_perm : forall l, Permutation l (sort l).
Proof.
  induction l as [| a l IH]; simpl.
  - constructor.
  - eapply perm_trans; [apply perm_skip; exact IH | apply insert_perm].
Qed.

(** What [gini] leaves in the caller's array: the array itself when its
    sum is zero, its ascending sort otherwise. *)
Lemma gini_leaves :
  forall x corr,
    snd (gini x corr) = if Np.sum x =? Num.zero then x else sort x.
Proof.
  intros x corr. unfold gini. destruct (Np.sum x =? Num.zero); reflexivity.
Qed.

(** The values survive the call: only their order can change. *)
Lemma gini_leaves_permutation :
  forall x corr, Permutation x (snd (gini x corr)).
Proof.
  intros x corr. rewrite gini_leaves.
  destruct (Np.sum x =? Num.zero); [apply Permutation_refl | apply sort_perm].
Qed.

(** C1 (the code departs from the claim): [gini] sorts the caller's array
    in place.  Called on [3, 1, 2] it returns [2/9] and leaves [1, 2, 3] in
    [x]: the values are kept, their order is not. *)
Theorem gini_sorts_in_place :
  gini [Fin 3; Fin 1; Fin 2] false = (Fin (2 # 9), [Fin 1; Fin 2; Fin 3])
  /\ snd (gini [Fin 3; Fin 1; Fin 2] false) <> [Fin 3; Fin 1; Fin 2].
Proof.
  split.
  - vm_compute. reflexivity.
  - vm_compute. intro H. discriminate H.
Qed.

End GiniFacts.

(* ================================================================== *)
(** ** The acoustic complexity index *)

Module ACIFacts.

Import Indices.
Local Open Scope string_scope.
Local Open Scope num_scope.

(** Dividing by a zero sum never yields a finite number. *)
Lemma div_by_zero_not_finite :
  forall a d,
    (d =? Num.zero) = true -> Num.is_finite (a / d) = false.
Proof.
  intros a d Hd. destruct d as [q | | |]; try discriminate.
  apply NumFacts.eqb_Fin in Hd. apply NumFacts.sgn_Eq in Hd.
  destruct a as [p | | |]; unfold Num.div; try rewrite Hd;
    try reflexivity.
  destruct (Num.sgn p); reflexivity.
Qed.

(** C4 (amended): with [norm='global'] the index never raises on a
    spectrogram, whatever its total energy: numpy's element-wise division
    by zero yields [nan] or [inf].  The divisor [sum(Sxx)] is not guarded:
    when it is zero no entry of [ACI_xx] is a finite number. *)
Theorem ACI_global_returns :
  forall c rows,
    exists xx per_bin s,
      acousticComplexityIndex (Arr2 c rows) "global"
      = Ok (Arr2 (pred c) xx, per_bin, s) /\
      ((global_denominator (Arr2 c rows) =? Num.zero) = true ->
       Forall (Forall (fun e => Num.is_finite e = false)) xx).
Proof.
  intros c rows. unfold acousticComplexityIndex.
  change ("global" =? "per_bin")%string with false.
  change ("global" =? "global")%string with true.
  cbn [bind]. do 3 eexists. split; [reflexivity |].
  intro Hd. apply Forall_map. apply Forall_forall. intros row _.
  apply Forall_map. apply Forall_forall. intros a _.
  apply div_by_zero_not_finite. exact Hd.
Qed.

(** C4 (the claim as stated fails): on the all-zero 2x2 spectrogram the
    divisor is zero, and the call returns [nan] everywhere instead of
    numbers. *)
Lemma ACI_global_zero_energy_is_nan :
  global_denominator (Arr2 2 [[Fin 0; Fin 0]; [Fin 0; Fin 0]]) = Fin 0
  /\ acousticComplexityIndex (Arr2 2 [[Fin 0; Fin 0]; [Fin 0; Fin 0]])
       "global"
     = Ok (Arr2 1 [[NaN]; [NaN]], [NaN; NaN], NaN)
  /\ ~ (exists xx per_bin s,
           acousticComplexityIndex (Arr2 2 [[Fin 0; Fin 0]; [Fin 0; Fin 0]])
             "global" = Ok (xx, per_bin, s)
           /\ all_finite xx).
Proof.
  split; [vm_compute; reflexivity |].
  split; [vm_compute; reflexivity |].
  intros [xx [pb [s [E Hfin]]]].
  vm_compute in E. inversion E; subst.
  unfold all_finite in Hfin. simpl in Hfin.
  inversion Hfin as [| v l Hv Hl]. discriminate Hv.
Qed.

End ACIFacts.

(* ================================================================== *)
(** ** Entropy *)

Module EntropyFacts.

Import Entropy.
Local Open Scope R_scope.

Lemma MIN_pos : 0 < _MIN_.
Proof. unfold _MIN_. apply Rinv_0_lt_compat. apply pow_lt. lra. Qed.

Lemma MIN_lt_1 : _MIN_ < 1.
Proof.
  unfold _MIN_. rewrite <- Rinv_1 at 1.
  apply Rinv_1_lt_contravar; [lra |].
  apply Rlt_pow_R1; [lra | apply Nat.lt_0_succ].
Qed.

Lemma ln_MIN_neg : ln _MIN_ < 0.
Proof.
  rewrite <- ln_1. apply ln_increasing; [apply MIN_pos | apply MIN_lt_1].
Qed.

(** The contribution [-p*log(p)] of a replaced zero is positive. *)
Lemma MIN_term_pos : 0 < - (_MIN_ * ln _MIN_).
Proof.
  pose proof MIN_pos. pose proof ln_MIN_neg. nra.
Qed.

#[local] Opaque _MIN_.

Lemma Rsum_app : forall l1 l2, Rsum (l1 ++ l2) = Rsum l1 + Rsum l2.
Proof.
  intros l1 l2. induction l1 as [| a l1 IH]; simpl.
  - lra.
  - rewrite IH. lra.
Qed.

Lemma Rsum_scale :
  forall c l, Rsum (map (fun v => c * v) l) = c * Rsum l.
Proof.
  intros c l. induction l as [| a l IH]; simpl.
  - lra.
  - rewrite IH. lra.
Qed.

Lemma Rsum_repeat : forall a n, Rsum (repeat a n) = INR n * a.
Proof.
  intros a n. induction n as [| n IH].
  - simpl. lra.
  - rewrite S_INR. simpl. rewrite IH. lra.
Qed.

Lemma Rsum_nonneg :
  forall l, Forall (fun v => 0 <= v) l -> 0 <= Rsum l.
Proof.
  intros l H. induction H as [| a l Ha Hl IH]; simpl; lra.
Qed.

Lemma Rsum_pos :
  forall l, Forall (fun v => 0 < v) l -> l <> [] -> 0 < Rsum l.
Proof.
  intros l H Hne. destruct H as [| a l Ha Hl]; [congruence |].
  simpl. assert (0 <= Rsum l).
  { apply Rsum_nonneg. eapply Forall_impl; [| exact Hl].
    simpl. intros; lra. }
  lra.
Qed.

(** The minimum of numbers that are not negative is not negative. *)
Lemma fold_Rmin_nonneg :
  forall l a, 0 <= a -> Forall (fun v => 0 <= v) l -> 0 <= fold_left Rmin l a.
Proof.
  induction l as [| b l IH]; intros a Ha H; simpl.
  - exact Ha.
  - inversion H; subst. apply IH; [| assumption].
    apply Rmin_glb; assumption.
Qed.

Lemma Rminimum_nonneg :
  forall l, Forall (fun v => 0 <= v) l -> Rltb (Rminimum l) 0 = false.
Proof.
  intros l H. unfold Rltb. destruct (Rlt_dec (Rminimum l) 0) as [Hlt |];
    [| reflexivity].
  exfalso. unfold Rminimum in Hlt. destruct H as [| a l Ha Hl]; [lra |].
  pose proof (fold_Rmin_nonneg l a Ha Hl). lra.
Qed.

Lemma Reqb_false : forall a b, a <> b -> Reqb a b = false.
Proof.
  intros a b H. unfold Reqb. destruct (Req_dec_T a b); [contradiction |].
  reflexivity.
Qed.

Lemma Reqb_true : forall a, Reqb a a = true.
Proof.
  intro a. unfold Reqb. destruct (Req_dec_T a a); [reflexivity |].
  contradiction.
Qed.

Lemma flatten_scale :
  forall c x, flatten (scale c x) = map (fun v => c * v) (flatten x).
Proof.
  intros c [v | k rows]; simpl; [reflexivity |].
  symmetry. apply concat_map.
Qed.

Lemma shape_amap :
  forall A B (f : A -> B) x axis, shape (amap f x) axis = shape x axis.
Proof.
  intros A B f [v | c rows] [| [| k]]; simpl; try reflexivity;
    now rewrite length_map.
Qed.

Lemma pmf_of_scale :
  forall c line,
    0 < c -> Forall (fun v => 0 < v) line ->
    pmf_of (map (fun v => c * v) line) = pmf_of line.
Proof.
  intros c line Hc Hpos. unfold pmf_of.
  rewrite map_map, Rsum_scale. apply map_ext_in. intros a Ha.
  assert (Hs : 0 < Rsum line).
  { apply Rsum_pos; [exact Hpos |]. intro E. subst. contradiction. }
  f_equal. field. split; lra.
Qed.

(** C10: an input whose entries sum to zero has entropy 0, whatever their
    signs and whatever the number of dimensions: the test on the sum of all
    the entries comes before the rescaling of negative values, and its one
    answer is the result for all the lines.  The axis must exist and not be
    empty. *)
Theorem entropy_zero_sum :
  forall datain axis n,
    shape datain axis = Some n -> n <> 0%nat ->
    Rsum (flatten datain) = 0 ->
    entropy datain axis = ([], Some (Scalar 0)).
Proof.
  intros datain axis n Hs Hn Hsum. unfold entropy. rewrite Hs.
  destruct n as [| [| n]]; [contradiction | reflexivity |].
  rewrite Hsum, Reqb_true. reflexivity.
Qed.

(** C9: scaling an array of positive entries by a positive constant leaves
    its entropy unchanged. *)
Theorem entropy_scale_invariant :
  forall x axis c,
    0 < c -> Forall (fun v => 0 < v) (flatten x) ->
    entropy (scale c x) axis = entropy x axis.
Proof.
  intros x axis c Hc Hpos. unfold entropy.
  unfold scale at 1. rewrite shape_amap.
  destruct (shape x axis) as [[| [| n]] |]; try reflexivity.
  rewrite flatten_scale, Rsum_scale.
  assert (Hnn : Forall (fun v => 0 <= v) (flatten x)).
  { eapply Forall_impl; [| exact Hpos]. simpl. intros; lra. }
  assert (Hnn' : Forall (fun v => 0 <= v) (map (fun v => c * v) (flatten x))).
  { apply Forall_map. eapply Forall_impl; [| exact Hpos]. simpl.
    intros a Ha. nra. }
  rewrite (Rminimum_nonneg _ Hnn), (Rminimum_nonneg _ Hnn').
  unfold Reqb.
  destruct (Req_dec_T (Rsum (flatten x)) 0) as [E | E];
    destruct (Req_dec_T (c * Rsum (flatten x)) 0) as [E' | E'];
    try reflexivity; try (exfalso; nra).
  do 2 f_equal.
  destruct x as [v | k rows]; simpl in *.
  - now rewrite pmf_of_scale.
  - destruct axis as [| axis]; f_equal.
    + rewrite transpose_map, map_map. apply map_ext_in. intros col Hcol.
      rewrite pmf_of_scale; [reflexivity | exact Hc |].
      apply Forall_forall. intros a Ha. rewrite Forall_forall in Hpos.
      apply Hpos. eapply transpose_In; eassumption.
    + rewrite map_map. apply map_ext_in. intros row Hrow.
      rewrite pmf_of_scale; [reflexivity | exact Hc |].
      apply Forall_forall. intros a Ha. rewrite Forall_forall in Hpos.
      apply Hpos. apply in_concat. eauto.
Qed.

Lemma one_hot_entropy_pos :
  forall i j, (1 <= i + j)%nat -> 0 < one_hot_entropy i j.
Proof.
  intros i j H. unfold one_hot_entropy.
  assert (Hn : 1 <= INR (i + j)).
  { change 1 with (INR 1). apply le_INR. exact H. }
  assert (Hl : 0 < ln (INR (i + j + 1))).
  { rewrite <- ln_1. apply ln_increasing; [lra |].
    rewrite plus_INR. simpl INR. lra. }
  pose proof MIN_term_pos as Hm.
  apply Rdiv_lt_0_compat; [| exact Hl]. nra.
Qed.

Lemma pmf_of_one_hot :
  forall i j v,
    0 < v ->
    pmf_of (repeat 0 i ++ v :: repeat 0 j)
    = repeat _MIN_ i ++ 1 :: repeat _MIN_ j.
Proof.
  intros i j v Hv. unfold pmf_of.
  assert (Hs : Rsum (repeat 0 i ++ v :: repeat 0 j) = v).
  { rewrite Rsum_app. simpl. rewrite !Rsum_repeat. lra. }
  rewrite Hs, map_app. simpl. rewrite !map_repeat.
  assert (E0 : zero_guard (0 / v) = _MIN_).
  { unfold zero_guard. replace (0 / v) with 0 by (field; lra).
    now rewrite Reqb_true. }
  assert (E1 : zero_guard (v / v) = 1).
  { unfold zero_guard. replace (v / v) with 1 by (field; lra).
    rewrite Reqb_false by lra. reflexivity. }
  now rewrite E0, E1.
Qed.

Lemma entropy_one_hot_value :
  forall i j v,
    0 < v -> (1 <= i + j)%nat ->
    entropy (Arr1 (repeat 0 i ++ v :: repeat 0 j)) 0
    = ([], Some (Scalar (one_hot_entropy i j))).
Proof.
  intros i j v Hv Hij. unfold entropy. cbn [shape flatten].
  assert (Hlen : length (repeat 0 i ++ v :: repeat 0 j) = S (S (i + j - 1))).
  { rewrite length_app. simpl. rewrite !repeat_length. lia. }
  rewrite Hlen.
  assert (Hs : Rsum (repeat 0 i ++ v :: repeat 0 j) = v).
  { rewrite Rsum_app. simpl. rewrite !Rsum_repeat. lra. }
  rewrite Hs, Reqb_false by lra.
  rewrite Rminimum_nonneg.
  2:{ apply Forall_app. split; [| constructor; [lra |]];
      apply Forall_forall; intros a Ha; apply repeat_spec in Ha; lra. }
  do 3 f_equal. rewrite pmf_of_one_hot by exact Hv.
  unfold H_of, one_hot_entropy.
  rewrite map_app. simpl map. rewrite !map_repeat, Rsum_app. simpl Rsum.
  rewrite !Rsum_repeat, ln_1, plus_INR.
  replace (S (S (i + j - 1))) with (i + j + 1)%nat by lia.
  field.
  assert (Hl : 0 < ln (INR (i + j + 1))).
  { rewrite <- ln_1. apply ln_increasing; [lra |].
    rewrite plus_INR. simpl INR.
    assert (1 <= INR (i + j)) by (change 1 with (INR 1); apply le_INR; lia).
    lra. }
  lra.
Qed.

(** X3: the entropy of a uniform positive vector of length at least 2
    is 1. *)
Theorem entropy_uniform :
  forall n v,
    (2 <= n)%nat -> 0 < v ->
    entropy (Arr1 (repeat v n)) 0 = ([], Some (Scalar 1)).
Proof.
  intros n v Hn Hv. unfold entropy. cbn [shape flatten].
  rewrite repeat_length.
  destruct n as [| [| m]]; [lia | lia |].
  set (N := S (S m)).
  assert (HN : 2 <= INR N).
  { change 2 with (INR 2). apply le_INR. exact Hn. }
  rewrite Rsum_repeat, Reqb_false by nra.
  rewrite Rminimum_nonneg
    by (apply Forall_forall; intros a Ha; apply repeat_spec in Ha; lra).
  do 3 f_equal. unfold pmf_of, H_of.
  rewrite Rsum_repeat, !map_repeat, Rsum_repeat.
  assert (Ep : zero_guard (v / (INR N * v)) = / INR N).
  { unfold zero_guard. replace (v / (INR N * v)) with (/ INR N)
      by (field; lra).
    rewrite Reqb_false; [reflexivity |].
    apply Rinv_neq_0_compat. lra. }
  rewrite Ep, ln_Rinv by lra.
  assert (Hl : 0 < ln (INR N)).
  { rewrite <- ln_1. apply ln_increasing; lra. }
  field. split; lra.
Qed.

(** C3 (amended): the entropy of a one-hot vector of length at least 2 is
    [(n-1) * (-_MIN_*log(_MIN_)) / log(n)], a strictly positive number (of
    the order of 1e-305), not 0: the zeros of the probability mass function
    are replaced by [_MIN_] before the logarithm. *)
Theorem entropy_one_hot :
  forall i j v,
    0 < v -> (1 <= i + j)%nat ->
    entropy (Arr1 (repeat 0 i ++ v :: repeat 0 j)) 0
    = ([], Some (Scalar (one_hot_entropy i j)))
    /\ 0 < one_hot_entropy i j.
Proof.
  intros i j v Hv Hij. split.
  - apply entropy_one_hot_value; assumption.
  - apply one_hot_entropy_pos; assumption.
Qed.

(** C3 (the claim as stated fails): the entropy of the one-hot vector
    [1, 0] is not 0. *)
Lemma entropy_one_hot_not_zero :
  entropy (Arr1 [1; 0]) 0 <> ([], Some (Scalar 0)).
Proof.
  pose proof (entropy_one_hot_value 0 1 1 Rlt_0_1 (le_n 1)) as E.
  pose proof (one_hot_entropy_pos 0 1 (le_n 1)) as Hpos.
  simpl repeat in E. simpl app in E. rewrite E.
  intro H. inversion H as [H0]. rewrite H0 in Hpos. lra.
Qed.

End EntropyFacts.

(* ================================================================== *)
(** ** Acoustic events *)

Module EventsFacts.

Import Events.
Local Open Scope num_scope.

Lemma map_nth_seq :
  forall A (d : A) l, map (fun i => nth i l d) (seq 0 (length l)) = l.
Proof.
  intros A d l. induction l as [| a l IH]; simpl.
  - reflexivity.
  - f_equal. rewrite <- seq_shift, map_map. exact IH.
Qed.

Lemma at_border_nat :
  forall x i, at_border x (Z.of_nat i) = nth i x false.
Proof.
  intros x i. unfold at_border.
  destruct (Z.ltb_spec (Z.of_nat i) 0) as [H | H]; [lia |].
  now rewrite Nat2Z.id.
Qed.

(** A structure of one element changes nothing. *)
Lemma binary_erosion_1 : forall x, binary_erosion x 1 = x.
Proof.
  intro x. unfold binary_erosion. rewrite <- (map_nth_seq _ false x) at 2.
  apply map_ext. intro i. simpl.
  replace (Z.of_nat i + 0 - 0)%Z with (Z.of_nat i) by lia.
  rewrite at_border_nat. apply andb_true_r.
Qed.

Lemma binary_dilation_1 : forall x, binary_dilation x 1 = x.
Proof.
  intro x. unfold binary_dilation. rewrite <- (map_nth_seq _ false x) at 2.
  apply map_ext. intro i. simpl.
  replace (Z.of_nat i - 0 + 0)%Z with (Z.of_nat i) by lia.
  rewrite at_border_nat. apply orb_false_r.
Qed.

Lemma round_half_even_0 : round_half_even 0 = 0%Z.
Proof. reflexivity. Qed.

(** [rejectDuration=0] gives [rejectLength = 0] for every time resolution
    that is neither zero nor [nan]. *)
Lemma rejectLength_of_zero :
  forall dt,
    (dt =? Num.zero) = false -> Num.is_nan dt = false ->
    rejectLength_of (Fin 0) dt = Ok 0%Z.
Proof.
  intros dt Hz Hn. unfold rejectLength_of. rewrite Hz.
  destruct dt as [d | | |]; try discriminate; try reflexivity.
  assert (Hd : ~ (d == 0)%Q).
  { intro E. apply NumFacts.eqb_Fin in E. unfold Num.zero in Hz.
    congruence. }
  rewrite NumFacts.div_Fin by exact Hd.
  replace (Qred (0 / d)) with 0%Q; [reflexivity |].
  change 0%Q with (Qred 0) at 1. apply Qred_complete.
  field. exact Hd.
Qed.

Lemma map_const :
  forall A B (f : A -> B) b l,
    Forall (fun a => f a = b) l -> map f l = repeat b (length l).
Proof.
  intros A B f b l H. induction H as [| a l Ha Hl IH]; simpl.
  - reflexivity.
  - now rewrite Ha, IH.
Qed.

(** A run of [S k] equal values in front of a sequence that does not start
    with that value opens a new run. *)
Lemma rle_run :
  forall c k rest ls vs,
    rle rest = (ls, vs) ->
    (ls = [] /\ vs = []) \/
    (exists n v ls' vs', ls = n :: ls' /\ vs = v :: vs' /\ v <> c) ->
    rle (repeat c (S k) ++ rest) = (S k :: ls, c :: vs).
Proof.
  intros c k rest ls vs E H. induction k as [| k IH].
  - simpl. rewrite E.
    destruct H as [[-> ->] | [n [v [ls' [vs' [-> [-> Hv]]]]]]].
    + reflexivity.
    + destruct (Bool.eqb c v) eqn:Ec; [| reflexivity].
      apply eqb_prop in Ec. congruence.
  - change (repeat c (S (S k)) ++ rest) with (c :: (repeat c (S k) ++ rest)).
    cbn [rle]. rewrite IH. now rewrite eqb_reflx.
Qed.

(** The run lengths of one block of [true] between two blocks of [false]:
    exactly one run has the value 1, and it has the length of the block. *)
Lemma rle_single_run :
  forall a k b,
    let '(l, v) := rle (repeat false a ++ repeat true (S k) ++ repeat false b)
    in select v l = [S k] /\ count_true v = 1%nat.
Proof.
  intros a k b.
  assert (Eb : exists ls vs,
             rle (repeat false b) = (ls, vs) /\
             select vs ls = [] /\ count_true vs = 0%nat /\
             ((ls = [] /\ vs = []) \/
              (exists n v ls' vs',
                  ls = n :: ls' /\ vs = v :: vs' /\ v <> true))).
  { destruct b as [| b].
    - exists [], []. repeat split; auto.
    - exists [S b], [false].
      rewrite <- (app_nil_r (repeat false (S b))).
      rewrite (rle_run false b [] [] []); [| reflexivity | auto].
      repeat split; auto.
      right. exists (S b), false, [], []. repeat split; auto. }
  destruct Eb as [ls [vs [Eb [Hsel [Hcnt Hhead]]]]].
  pose proof (rle_run true k (repeat false b) ls vs Eb Hhead) as Em.
  destruct a as [| a].
  - change (repeat false 0) with (@nil bool). rewrite app_nil_l.
    rewrite Em. cbn [select]. rewrite Hsel.
    unfold count_true in *. cbn [filter length]. rewrite Hcnt. auto.
  - rewrite (rle_run false a _ (S k :: ls) (true :: vs) Em).
    + cbn [select]. rewrite Hsel.
      unfold count_true in *. cbn [filter length]. rewrite Hcnt. auto.
    + right. exists (S k), true, ls, vs. repeat split; auto.
      discriminate.
Qed.

Lemma mean_nat_single : forall k, Np.mean_nat [k] = Num.of_nat k.
Proof.
  intro k. unfold Np.mean_nat, Np.mean, Np.sum, Num.of_nat, Num.of_Z.
  cbn [map fold_right length Num.add Num.zero].
  rewrite NumFacts.div_Fin by (simpl; discriminate).
  f_equal. rewrite <- (NumFacts.Qred_inject_Z (Z.of_nat k)) at 2.
  apply Qred_complete. rewrite Qred_correct.
  change (inject_Z (Z.of_nat 1)) with 1%Q. field.
Qed.

Lemma sum_nat_single : forall k, sum_nat [k] = k.
Proof. intro k. simpl. apply Nat.add_0_r. Qed.

(** The characteristics of a single event of [S k] samples. *)
Lemma event_stats_single_run :
  forall dt duration a k b,
    event_stats dt duration
      (repeat false a ++ repeat true (S k) ++ repeat false b)
    = (Num.of_nat (S k) * dt, Num.of_nat (S k) * dt, Num.one / duration).
Proof.
  intros dt duration a k b. unfold event_stats.
  pose proof (rle_single_run a k b) as H.
  destruct (rle (repeat false a ++ repeat true (S k) ++ repeat false b))
    as [l v].
  destruct H as [Hsel Hcnt]. rewrite Hsel, Hcnt, sum_nat_single.
  cbn [Nat.eqb negb]. rewrite mean_nat_single. reflexivity.
Qed.

(** The thresholded vector of one run at or above the threshold between
    samples below it. *)
Lemma threshold_single_run :
  forall t pre run post,
    Forall (fun v => (v >=? t) = false) pre ->
    Forall (fun v => (v >=? t) = true) run ->
    Forall (fun v => (v >=? t) = false) post ->
    map (fun v => v >=? t) (pre ++ run ++ post)
    = repeat false (length pre) ++ repeat true (length run)
        ++ repeat false (length post).
Proof.
  intros t pre run post Hpre Hrun Hpost.
  rewrite !map_app.
  rewrite (map_const _ _ _ false pre Hpre), (map_const _ _ _ true run Hrun),
    (map_const _ _ _ false post Hpost).
  reflexivity.
Qed.

(** C7: a vector with exactly one maximal run of [L >= 1] samples at or
    above the threshold, all the others below, gives with
    [rejectDuration=0] one event: [EVNsum = L*dt] (and [EVNmean = L*dt]),
    [EVNcount = 1/duration] with [duration = (n-1)*dt].  The time
    resolution is neither zero nor [nan]. *)
Theorem acoustic_events_single_run :
  forall pre run post dt t,
    Forall (fun v => (v >=? t) = false) pre ->
    Forall (fun v => (v >=? t) = true) run ->
    Forall (fun v => (v >=? t) = false) post ->
    run <> [] ->
    (dt =? Num.zero) = false -> Num.is_nan dt = false ->
    acoustic_events (Arr1 (pre ++ run ++ post)) dt t (Some (Fin 0))
    = Ok (Scalar (Num.of_nat (length run) * dt),
          Scalar (Num.of_nat (length run) * dt),
          Scalar (Num.one
                  / (Num.of_Z (Z.of_nat (length (pre ++ run ++ post)) - 1)
                     * dt)),
          Arr1 (map (fun v => v >=? t) (pre ++ run ++ post))).
Proof.
  intros pre run post dt t Hpre Hrun Hpost Hne Hz Hnan.
  unfold acoustic_events. cbn [amap].
  rewrite (rejectLength_of_zero dt Hz Hnan). cbn [bind].
  change (0 + 1 <=? 0)%Z with false. cbv iota.
  change (Z.to_nat (0 + 1)) with 1%nat.
  rewrite binary_erosion_1, binary_dilation_1. cbn [bind].
  set (duration :=
         Num.of_Z (Z.of_nat (length (pre ++ run ++ post)) - 1) * dt).
  assert (E : event_stats dt duration
                (map (fun v => v >=? t) (pre ++ run ++ post))
              = (Num.of_nat (length run) * dt,
                 Num.of_nat (length run) * dt, Num.one / duration)).
  { rewrite (threshold_single_run t pre run post Hpre Hrun Hpost).
    destruct run as [| r run]; [congruence |].
    cbn [length]. apply event_stats_single_run. }
  rewrite E. reflexivity.
Qed.

End EventsFacts.

(* ================================================================== *)
(** ** The soundscape index *)

Module SoundscapeFacts.

Import Indices.
Local Open Scope num_scope.



(** A sum of zeros is zero. *)
Lemma sum_zeros :
  forall l, Forall (fun v => (v =? Num.zero) = true) l -> Np.sum l = Fin 0.
Proof.
  intros l H. induction H as [| v l Hv Hl IH]; simpl.
  - reflexivity.
  - rewrite IH. destruct v as [q | | |]; try discriminate.
    apply NumFacts.eqb_Fin in Hv. simpl. f_equal.
    change 0%Q with (Qred 0) at 2. apply Qred_complete. lra.
Qed.





(** A bin that holds no frequency has no mean: over 0, 1000, 2000 and
    6000 Hz at the default step the bins from 3000 Hz on are empty, their
    rows of the binned spectrogram are [nan], and so is the energy of the
    biophony band. *)
Lemma soundscapeIndex_empty_bin_is_nan :
  soundscapeIndex (Arr2 1 [[Fin 0]; [Fin 0]; [Fin 3]; [Fin 0]])
    [Fin 0; Fin 1000; Fin 2000; Fin 6000] (Fin 1000, Fin 10000)
    (Fin 0, Fin 1000) None
  = Ok (NaN, NaN, Fin 0, NaN).
Proof. vm_compute. reflexivity. Qed.

End SoundscapeFacts.

(* ================================================================== *)
(** ** Spectral entropy *)

Module SpectralEntropyFacts.

Import Entropy SpectralEntropy.
Local Open Scope string_scope.
Local Open Scope R_scope.

Lemma io_bind_ret :
  forall A B (a : A) (k : A -> io B), io_bind ([], Ok a) k = k a.
Proof. intros A B a k. unfold io_bind. destruct (k a). reflexivity. Qed.

Lemma fold_Rmin_le :
  forall l a,
    fold_left Rmin l a <= a /\ Forall (fun v => fold_left Rmin l a <= v) l.
Proof.
  induction l as [| b l IH]; intro a; simpl.
  - split; [lra | constructor].
  - destruct (IH (Rmin a b)) as [H1 H2].
    pose proof (Rmin_l a b). pose proof (Rmin_r a b).
    split; [lra |]. constructor; [lra | exact H2].
Qed.

Lemma fold_Rmax_ge :
  forall l a,
    a <= fold_left Rmax l a /\ Forall (fun v => v <= fold_left Rmax l a) l.
Proof.
  induction l as [| b l IH]; intro a; simpl.
  - split; [lra | constructor].
  - destruct (IH (Rmax a b)) as [H1 H2].
    pose proof (Rmax_l a b). pose proof (Rmax_r a b).
    split; [lra |]. constructor; [lra | exact H2].
Qed.

Lemma Rminimum_le : forall l, Forall (fun v => Rminimum l <= v) l.
Proof.
  intros [| a l]; [constructor |]. simpl.
  destruct (fold_Rmin_le l a) as [H1 H2]. constructor; assumption.
Qed.

Lemma Rmaximum_ge : forall l, Forall (fun v => v <= Rmaximum l) l.
Proof.
  intros [| a l]; [constructor |]. simpl.
  destruct (fold_Rmax_ge l a) as [H1 H2]. constructor; assumption.
Qed.

Lemma Rleb_true : forall a b, a <= b -> Rleb a b = true.
Proof.
  intros a b H. unfold Rleb. destruct (Rle_dec a b); [reflexivity |].
  contradiction.
Qed.

(** The default band selects every frequency. *)
Lemma index_bw_full :
  forall fn,
    index_bw_by Rleb fn (Rminimum fn, Rmaximum fn)
    = repeat true (length fn).
Proof.
  intro fn. unfold index_bw_by. cbn [fst snd].
  pose proof (Rminimum_le fn) as Hmin. pose proof (Rmaximum_ge fn) as Hmax.
  generalize dependent (Rmaximum fn). generalize dependent (Rminimum fn).
  intros lo Hmin hi Hmax.
  induction fn as [| f fn IH]; simpl; [reflexivity |].
  inversion Hmin; subst. inversion Hmax; subst.
  rewrite !Rleb_true by assumption. simpl. f_equal. apply IH; assumption.
Qed.

Lemma select_all :
  forall A (l : list A), select (repeat true (length l)) l = l.
Proof.
  intros A l. induction l as [| a l IH]; simpl; [reflexivity |].
  now rewrite IH.
Qed.

Lemma count_true_all : forall n, count_true (repeat true n) = n.
Proof.
  intro n. unfold count_true. induction n as [| n IH]; simpl;
    [reflexivity | now rewrite IH].
Qed.

(** The entropy of a vector that is not empty is a number. *)
Lemma entropy_1d :
  forall l, l <> [] -> exists h, entropy (Arr1 l) 0 = ([], Some (Scalar h)).
Proof.
  intros l Hl. unfold entropy. cbn [shape flatten].
  destruct l as [| a [| b l]]; [congruence | |].
  - exists 0. reflexivity.
  - cbn [length].
    destruct (Reqb (Rsum (a :: b :: l)) 0); [exists 0; reflexivity |].
    destruct (Rltb (Rminimum (a :: b :: l)) 0); cbn [linear_scale amap];
      eexists; reflexivity.
Qed.

Lemma one_minus_entropy_ok :
  forall l, l <> [] -> exists e, one_minus_entropy l = ([], Ok e).
Proof.
  intros l Hl. unfold one_minus_entropy.
  destruct (entropy_1d l Hl) as [h ->]. eexists. reflexivity.
Qed.

Lemma argmax_from_lt :
  forall l best besti i,
    (besti < i)%nat -> (argmax_from best besti i l < i + length l)%nat.
Proof.
  induction l as [| a l IH]; intros best besti i H; simpl.
  - lia.
  - destruct (Rltb best a).
    + specialize (IH a i (S i)). lia.
    + specialize (IH best besti (S i)). lia.
Qed.

Lemma argmax_ok :
  forall l, l <> [] -> exists i, argmax l = Ok i /\ (i < length l)%nat.
Proof.
  intros [| a l] H; [congruence |]. simpl. eexists. split; [reflexivity |].
  pose proof (argmax_from_lt l a 0 1). lia.
Qed.

Lemma mapM_ok :
  forall A B (f : A -> result B) (P : B -> Prop) l,
    Forall (fun a => exists b, f a = Ok b /\ P b) l ->
    exists bs, mapM f l = Ok bs /\ Forall P bs /\ length bs = length l.
Proof.
  intros A B f P l H. induction H as [| a l [b [Eb Pb]] Hl IH]; simpl.
  - exists []. repeat split; constructor.
  - destruct IH as [bs [Ebs [Pbs Hlen]]]. rewrite Eb, Ebs. simpl.
    exists (b :: bs). repeat split; [constructor; assumption |].
    simpl. now rewrite Hlen.
Qed.

Lemma Rltb_false : forall a b, b <= a -> Rltb a b = false.
Proof.
  intros a b H. unfold Rltb. destruct (Rlt_dec a b); [lra | reflexivity].
Qed.

Lemma histogram_ok :
  forall a bins lo hi,
    bins <> 0%nat -> lo <= hi ->
    exists counts,
      histogram a bins (lo, hi) = Ok counts /\ length counts = bins.
Proof.
  intros a bins lo hi Hb Hle. unfold histogram.
  destruct (Nat.eqb_spec bins 0) as [E | _]; [contradiction |].
  rewrite (Rltb_false hi lo Hle).
  destruct (Reqb lo hi); eexists; (split; [reflexivity |]);
    now rewrite length_map, length_seq.
Qed.

(** With a band that selects every frequency, the indices of a spectrogram
    with as many rows as frequencies and at least one column are
    computed. *)
Lemma spectral_indices_ok :
  forall c rows fn lo hi,
    Forall (fun r => length r = c) rows ->
    length rows = length fn -> fn <> [] -> c <> 0%nat ->
    index_bw_by Rleb fn (lo, hi) = repeat true (length fn) ->
    lo <= hi ->
    exists r, spectral_indices (Arr2 c rows) fn (lo, hi) = ([], Ok (Some r)).
Proof.
  intros c rows fn lo hi Hwf Hlen Hfn Hc Hband Hle.
  assert (Hrows : rows <> []).
  { intro E. subst rows. destruct fn; [congruence | discriminate]. }
  unfold spectral_indices. rewrite Hband.
  rewrite masked_same_length by (now rewrite repeat_length).
  cbn [bind]. unfold io_lift at 1. rewrite io_bind_ret.
  rewrite <- Hlen, select_all.
  destruct (one_minus_entropy_ok (map Rmean rows)) as [EAS E1].
  { destruct rows; [congruence | discriminate]. }
  rewrite E1, io_bind_ret.
  destruct (one_minus_entropy_ok (map Rvar rows)) as [ECU E2].
  { destruct rows; [congruence | discriminate]. }
  rewrite E2, io_bind_ret.
  destruct (Nat.eqb_spec c 0) as [E | _]; [contradiction |].
  unfold io_lift at 1. rewrite io_bind_ret.
  destruct (one_minus_entropy_ok
              (map (fun r => Rvar r / Rmaximum r) rows)) as [ECV E3].
  { destruct rows; [congruence | discriminate]. }
  rewrite E3, io_bind_ret.
  destruct (mapM_ok _ _ argmax (fun i => (i < length rows)%nat)
              (transpose c rows)) as [imax [E4 [Himax _]]].
  { eapply Forall_impl; [| apply transpose_lengths].
    intros col Hcol. simpl in Hcol.
    destruct (argmax_ok col) as [i [Ei Hi]].
    - intro E. subst col. destruct rows; [congruence | discriminate].
    - exists i. split; [exact Ei | now rewrite <- Hcol]. }
  rewrite E4. unfold io_lift at 1. rewrite io_bind_ret.
  assert (Hoff : first_true (repeat true (length rows)) = 0%nat).
  { destruct rows; [congruence | reflexivity]. }
  rewrite Hoff.
  destruct (mapM_ok _ _ (fun i => getitem fn (i + 0)) (fun _ => True) imax)
    as [fmax [E5 _]].
  { eapply Forall_impl; [| exact Himax]. intros i Hi. simpl in Hi.
    unfold getitem. rewrite Nat.add_0_r.
    destruct (nth_error fn i) as [v |] eqn:En; [eauto |].
    apply nth_error_None in En. lia. }
  rewrite E5. unfold io_lift at 1. rewrite io_bind_ret.
  rewrite count_true_all.
  destruct (histogram_ok fmax (length rows) lo hi) as [counts [E6 Hcounts]].
  { destruct rows; [congruence | discriminate]. }
  { exact Hle. }
  rewrite E6. unfold io_lift at 1. rewrite io_bind_ret.
  destruct (one_minus_entropy_ok
              (map (fun k => INR k / INR (fold_right Nat.add 0%nat counts))
                 counts)) as [EPS E7].
  { destruct counts; [| discriminate].
    simpl in Hcounts. destruct rows; [congruence | discriminate]. }
  rewrite E7, io_bind_ret.
  eexists. reflexivity.
Qed.

(** C5 (amended): with a scalar [flim], [spectral_entropy] prints a warning
    and returns [None]: nothing is raised.  With [flim=None] it proceeds as
    with [flim = (fn.min(), fn.max())], and on a spectrogram with one row
    per frequency and at least one column the call returns its six
    indices. *)
Theorem spectral_entropy_flim :
  forall X fn v,
    spectral_entropy X fn (FlimNumber v) = ([flim_warning], Ok None)
    /\ (fn <> [] ->
        spectral_entropy X fn FlimNone
        = spectral_entropy X fn (FlimTuple (Rminimum fn) (Rmaximum fn)))
    /\ (forall c rows,
          X = Arr2 c rows ->
          Forall (fun r => length r = c) rows ->
          length rows = length fn -> fn <> [] -> c <> 0%nat ->
          exists r, spectral_entropy X fn FlimNone = ([], Ok (Some r))).
Proof.
  intros X fn v. split; [reflexivity |].
  assert (Hdefault :
            fn <> [] ->
            spectral_entropy X fn FlimNone
            = spectral_indices X fn (Rminimum fn, Rmaximum fn)).
  { intro Hfn. unfold spectral_entropy.
    destruct fn as [| f fn']; [congruence |].
    unfold io_lift. now rewrite io_bind_ret. }
  split.
  - intro Hfn. rewrite (Hdefault Hfn). reflexivity.
  - intros c rows -> Hwf Hlen Hfn Hc. rewrite (Hdefault Hfn).
    apply spectral_indices_ok; try assumption.
    + apply index_bw_full.
    + destruct fn as [| f fn']; [congruence |].
      pose proof (Rminimum_le (f :: fn')) as Hmin.
      pose proof (Rmaximum_ge (f :: fn')) as Hmax.
      inversion Hmin; subst. inversion Hmax; subst. lra.
Qed.

(** C5 (the claim as stated fails): a scalar [flim] raises nothing; the
    call returns [None]. *)
Lemma spectral_entropy_scalar_flim_not_raised :
  spectral_entropy (Arr2 1 [[1]; [2]]) [0; 1000] (FlimNumber 500)
  = ([flim_warning], Ok None)
  /\ ~ (exists e,
           snd (spectral_entropy (Arr2 1 [[1]; [2]]) [0; 1000]
                  (FlimNumber 500))
           = Raise e).
Proof.
  split; [reflexivity |].
  intros [e H]. discriminate H.
Qed.

End SpectralEntropyFacts.

(* ================================================================== *)
(** ** The soundscape index on a uniform frequency grid *)

Module UniformGridFacts.
Import Indices Binning.
Local Open Scope num_scope.

Lemma has_value_Fin : forall q, has_value (Fin q) q.
Proof. intro q. exists q. split; [reflexivity | apply Qeq_refl]. Qed.

Lemma has_value_add :
  forall x y a b, has_value x a -> has_value y b -> has_value (x + y) (a + b).
Proof.
  intros x y a b [a' [-> Ha]] [b' [-> Hb]]. simpl.
  eexists. split; [reflexivity |]. rewrite Qred_correct, Ha, Hb. reflexivity.
Qed.

Lemma has_value_mul :
  forall x y a b, has_value x a -> has_value y b -> has_value (x * y) (a * b).
Proof.
  intros x y a b [a' [-> Ha]] [b' [-> Hb]]. simpl.
  eexists. split; [reflexivity |]. rewrite Qred_correct, Ha, Hb. reflexivity.
Qed.

Lemma has_value_sub :
  forall x y a b, has_value x a -> has_value y b -> has_value (x - y) (a - b).
Proof.
  intros x y a b [a' [-> Ha]] [b' [-> Hb]]. unfold Num.sub. simpl.
  eexists. split; [reflexivity |].
  rewrite !Qred_correct, Ha, Hb. reflexivity.
Qed.

Lemma has_value_eq :
  forall x a b, has_value x a -> (a == b)%Q -> has_value x b.
Proof.
  intros x a b [a' [-> Ha]] E. exists a'. split; [reflexivity |].
  rewrite Ha. exact E.
Qed.


































Section UniformGrid.

Variables (N c : nat) (rows : list (list num)) (df : Q) (st : num).
Hypothesis Hdf : (0 < df)%Q.
Hypothesis Hst : has_value st df.
Hypothesis Hlen : length rows = N.
Hypothesis Hwf : Forall (fun r => length r = c) rows.








Lemma getlast_map_seq :
  forall A (f : nat -> A) n, getlast (map f (seq 0 (S n))) = Ok (f n).
Proof.
  intros A f n. unfold getlast. rewrite seq_S, map_app, rev_app_distr.
  reflexivity.
Qed.



End UniformGrid.


End UniformGridFacts.

(* ================================================================== *)
(** ** Band energies over the bins of any step *)

Module BandEnergyFacts.
Import Indices Binning UniformGridFacts SoundscapeFacts.
Local Open Scope num_scope.











Section Bins.

Variables (c : nat) (R : list (list num)) (fn : list Q) (stn : num) (st : Q).
Hypothesis Hst : has_value stn st.
Hypothesis Hpos : (0 < st)%Q.
Hypothesis Hlen : length R = length fn.












End Bins.




End BandEnergyFacts.

(* ================================================================== *)
(** ** Finite numbers by their values *)

Module ArithFacts.
Import UniformGridFacts.
Local Open Scope num_scope.

Lemma leb_trans :
  forall x y z, (x <=? y) = true -> (y <=? z) = true -> (x <=? z) = true.
Proof.
  intros [a | | |] [b | | |] [c | | |]; simpl; try congruence.
  rewrite !Qle_bool_iff. apply Qle_trans.
Qed.

Lemma finite_value :
  forall x, Num.is_finite x = true -> has_value x (value_of x).
Proof.
  intros [q | | |] H; try discriminate. apply has_value_Fin.
Qed.

Lemma has_value_finite :
  forall x a, has_value x a -> Num.is_finite x = true.
Proof. intros x a [q [-> _]]. reflexivity. Qed.

Lemma add_eq :
  forall x y a b, has_value x a -> has_value y b ->
                  x + y = Fin (Qred (a + b)).
Proof.
  intros x y a b [a' [-> Ha]] [b' [-> Hb]]. simpl. f_equal.
  apply Qred_complete. rewrite Ha, Hb. reflexivity.
Qed.

Lemma mul_eq :
  forall x y a b, has_value x a -> has_value y b ->
                  x * y = Fin (Qred (a * b)).
Proof.
  intros x y a b [a' [-> Ha]] [b' [-> Hb]]. simpl. f_equal.
  apply Qred_complete. rewrite Ha, Hb. reflexivity.
Qed.

Lemma sub_eq :
  forall x y a b, has_value x a -> has_value y b ->
                  x - y = Fin (Qred (a - b)).
Proof.
  intros x y a b [a' [-> Ha]] [b' [-> Hb]]. unfold Num.sub. simpl. f_equal.
  apply Qred_complete. rewrite Qred_correct, Ha, Hb. reflexivity.
Qed.

Lemma abs_eq :
  forall x a, has_value x a -> Num.abs x = Fin (Qred (Qabs a)).
Proof.
  intros x a [a' [-> Ha]]. simpl. f_equal.
  apply Qred_complete. rewrite Ha. reflexivity.
Qed.

Lemma div_eq :
  forall x y a b, has_value x a -> has_value y b -> ~ (b == 0)%Q ->
                  x / y = Fin (Qred (a / b)).
Proof.
  intros x y a b [a' [-> Ha]] [b' [-> Hb]] Hnz.
  rewrite NumFacts.div_Fin by (rewrite Hb; exact Hnz).
  f_equal. apply Qred_complete. rewrite Ha, Hb. reflexivity.
Qed.

Lemma has_value_Qred : forall q, has_value (Fin (Qred q)) q.
Proof.
  intro q. eexists. split; [reflexivity | apply Qred_correct].
Qed.

Lemma has_value_abs :
  forall x a, has_value x a -> has_value (Num.abs x) (Qabs a).
Proof. intros x a H. rewrite (abs_eq _ _ H). apply has_value_Qred. Qed.

Lemma has_value_div :
  forall x y a b, has_value x a -> has_value y b -> ~ (b == 0)%Q ->
                  has_value (x / y) (a / b).
Proof.
  intros x y a b Hx Hy Hnz. rewrite (div_eq _ _ _ _ Hx Hy Hnz).
  apply has_value_Qred.
Qed.

Lemma has_value_of_nat :
  forall n, has_value (Num.of_nat n) (inject_Z (Z.of_nat n)).
Proof. intro n. apply has_value_Fin. Qed.

Lemma sum_cons : forall a l, Np.sum (a :: l) = a + Np.sum l.
Proof. reflexivity. Qed.

Lemma sum_nil : Np.sum [] = Fin 0.
Proof. reflexivity. Qed.

(** The sum of finite numbers is the finite sum of their values. *)
Lemma sum_value :
  forall l, Forall (fun v => Num.is_finite v = true) l ->
            has_value (Np.sum l) (Qsum (map value_of l)).
Proof.
  intros l H. induction H as [| v l Hv Hl IH]; cbn [map];
    rewrite ?sum_cons.
  - apply has_value_Fin.
  - apply has_value_add; [apply finite_value; exact Hv | exact IH].
Qed.

Lemma eqb_zero_value :
  forall x a, has_value x a -> ((x =? Num.zero) = true <-> (a == 0)%Q).
Proof.
  intros x a [a' [-> Ha]]. unfold Num.zero.
  rewrite NumFacts.eqb_Fin, Ha. reflexivity.
Qed.

Lemma sgn_scale :
  forall c a, (0 < c)%Q -> Num.sgn (c * a) = Num.sgn a.
Proof.
  intros c a Hc. unfold Num.sgn.
  destruct (Qcompare_spec (c * a) 0) as [E | E | E];
    destruct (Qcompare_spec a 0) as [F | F | F];
    try reflexivity; exfalso; nra.
Qed.

Lemma sgn_eq : forall a b, (a == b)%Q -> Num.sgn a = Num.sgn b.
Proof. intros a b E. unfold Num.sgn. rewrite E. reflexivity. Qed.

(** A quotient only sees the ratio of the values: a common positive
    factor cancels, also over a zero divisor. *)
Lemma div_scale_pos :
  forall c x y x' y' a s,
    (0 < c)%Q -> has_value x a -> has_value y s ->
    has_value x' (c * a) -> has_value y' (c * s) -> x' / y' = x / y.
Proof.
  intros c x y x' y' a s Hc [a0 [-> Ha]] [s0 [-> Hs]]
         [a1 [-> Ha1]] [s1 [-> Hs1]].
  unfold Num.div.
  rewrite (sgn_eq s1 (c * s0)) by (rewrite Hs1, Hs; reflexivity).
  rewrite (sgn_eq a1 (c * a0)) by (rewrite Ha1, Ha; reflexivity).
  rewrite !sgn_scale by exact Hc.
  assert (Hq : ~ (s0 == 0)%Q -> Qred (a1 / s1) = Qred (a0 / s0)).
  { intros Hnz. apply Qred_complete.
    rewrite Ha1, Hs1, <- Ha, <- Hs. field. split; [exact Hnz |].
    intro F. lra. }
  destruct (Num.sgn s0) eqn:E0; try reflexivity.
  - apply -> NumFacts.sgn_Lt in E0. rewrite Hq; [reflexivity |].
    intro F. lra.
  - apply -> NumFacts.sgn_Gt in E0. rewrite Hq; [reflexivity |].
    intro F. lra.
Qed.

Lemma Qsum_scale :
  forall c l, (Qsum (map (fun q => c * q) l) == c * Qsum l)%Q.
Proof.
  intros c l. induction l as [| q l IH]; simpl.
  - ring.
  - rewrite IH. ring.
Qed.

Lemma Forall_finite_scaled :
  forall c l, Forall (fun v => Num.is_finite v = true) l ->
              Forall (fun v => Num.is_finite v = true) (scaled (Fin c) l).
Proof.
  intros c l H. unfold scaled. apply Forall_map.
  eapply Forall_impl; [| exact H]. intros [q | | |] Hq; try discriminate.
  reflexivity.
Qed.

Lemma sum_scaled_value :
  forall c l, Forall (fun v => Num.is_finite v = true) l ->
              has_value (Np.sum (scaled (Fin c) l))
                (c * Qsum (map value_of l)).
Proof.
  intros c l H. unfold scaled.
  induction H as [| v l Hv Hl IH]; cbn [map]; rewrite ?sum_cons.
  - exists 0%Q. split; [reflexivity | simpl; ring].
  - cbn [Qsum fold_right]. fold (Qsum (map value_of l)).
    eapply has_value_eq.
    + apply has_value_add; [| exact IH].
      apply has_value_mul; [apply has_value_Fin | apply finite_value, Hv].
    + ring.
Qed.

End ArithFacts.

(* ================================================================== *)
(** ** Scores against two thresholds *)

Module ScoreFacts.
Import Stats StatsFacts ArithFacts.
Local Open Scope num_scope.

Lemma filter_length_mono :
  forall A (f g : A -> bool) l,
    (forall a, f a = true -> g a = true) ->
    (length (filter f l) <= length (filter g l))%nat.
Proof.
  intros A f g l H. induction l as [| a l IH]; simpl; [lia |].
  destruct (f a) eqn:E.
  - rewrite (H a E). simpl. lia.
  - destruct (g a); simpl; lia.
Qed.

Lemma fraction_mono :
  forall n j k, (0 < n)%nat -> (j <= k)%nat ->
                (fraction n j <=? fraction n k) = true.
Proof.
  intros n j k Hn Hjk. unfold fraction, Num.of_nat, Num.of_Z.
  pose proof (of_nat_pos n Hn) as Hpos.
  rewrite !NumFacts.div_Fin by lra.
  apply NumFacts.leb_Fin. rewrite !Qred_correct.
  apply Qmult_le_compat_r.
  - rewrite <- Zle_Qle. lia.
  - apply Qlt_le_weak, Qinv_lt_0_compat. exact Hpos.
Qed.

(** X5: Raising the threshold never raises a score: for every line along the
    axis, the count and the fraction at a threshold [t2] are at most those
    at a threshold [t1 <= t2]. *)
Theorem score_antitone :
  forall x t1 t2 axis n,
    shape x axis = Some n -> (0 < n)%nat -> (t1 <=? t2) = true ->
    exists s1 count1 s2 count2,
      score x t1 axis = Ok (s1, count1) /\
      score x t2 axis = Ok (s2, count2) /\
      Forall2 (fun k2 k1 => (k2 <= k1)%nat) (values count2) (values count1) /\
      Forall2 (fun f2 f1 => (f2 <=? f1) = true) (values s2) (values s1).
Proof.
  intros x t1 t2 axis n Hs Hn Ht.
  destruct (score_lines x t1 axis n Hs) as [c1 [E1 V1]].
  destruct (score_lines x t2 axis n Hs) as [c2 [E2 V2]].
  assert (Hc : Forall2 (fun k2 k1 => (k2 <= k1)%nat) (values c2) (values c1)).
  { rewrite V1, V2. generalize (lines x axis) as ls.
    induction ls as [| l ls IH]; simpl; constructor; [| exact IH].
    apply filter_length_mono. intros a Ha. unfold Num.geb in *.
    eapply leb_trans; eassumption. }
  eexists. exists c1. eexists. exists c2.
  split; [exact E1 |]. split; [exact E2 |]. split; [exact Hc |].
  rewrite !values_fractions.
  revert Hc. generalize (values c2) as l2. generalize (values c1) as l1.
  intros l1 l2 Hc.
  induction Hc as [| k2 k1 l2 l1 Hk Hl IH]; simpl; constructor; [| exact IH].
  apply fraction_mono; assumption.
Qed.

End ScoreFacts.

(* ================================================================== *)
(** ** The Gini coefficient: extremes, order and scale *)

Module GiniValueFacts.
Import Stats UniformGridFacts ArithFacts.
Local Open Scope num_scope.

Lemma inject_Z_S :
  forall n, (inject_Z (Z.of_nat (S n)) == inject_Z (Z.of_nat n) + 1)%Q.
Proof.
  intro n. rewrite Nat2Z.inj_succ, <- Z.add_1_r, inject_Z_plus. reflexivity.
Qed.

Lemma insert_repeat_same :
  forall a k, insert (Fin a) (repeat (Fin a) k) = Fin a :: repeat (Fin a) k.
Proof.
  intros a [| k]; simpl; [reflexivity |].
  unfold sort_leb. simpl.
  assert (E : Qle_bool a a = true) by (apply Qle_bool_iff; lra).
  rewrite E. reflexivity.
Qed.

Lemma sort_repeat :
  forall a n, sort (repeat (Fin a) n) = repeat (Fin a) n.
Proof.
  intros a n. induction n as [| n IH]; simpl; [reflexivity |].
  rewrite IH. apply insert_repeat_same.
Qed.

Lemma sum_repeat_value :
  forall a n, has_value (Np.sum (repeat (Fin a) n))
                (inject_Z (Z.of_nat n) * a).
Proof.
  intros a n. induction n as [| n IH]; cbn [repeat]; rewrite ?sum_cons.
  - exists 0%Q. split; [reflexivity | ring].
  - eapply has_value_eq.
    + apply has_value_add; [apply has_value_Fin | exact IH].
    + rewrite inject_Z_S. ring.
Qed.

Lemma mul_lists_cons :
  forall a x b y, mul_lists (a :: x) (b :: y) = a * b :: mul_lists x y.
Proof. reflexivity. Qed.

(** The weighted sum [sum(x * arange(s, s+n))] of [n] equal values. *)
Lemma ranked_sum_repeat :
  forall a n s,
    has_value
      (Np.sum (mul_lists (repeat (Fin a) n) (map Num.of_nat (seq s n))))
      (a * (inject_Z (Z.of_nat n) * inject_Z (Z.of_nat s)
            + inject_Z (Z.of_nat n) * (inject_Z (Z.of_nat n) - 1) / 2)).
Proof.
  intros a n. induction n as [| n IH]; intro s;
    cbn [repeat seq map]; rewrite ?mul_lists_cons, ?sum_cons.
  - exists 0%Q. split; [reflexivity |]. simpl. field.
  - eapply has_value_eq.
    + apply has_value_add; [| apply IH].
      apply has_value_mul; [apply has_value_Fin | apply has_value_of_nat].
    + rewrite !inject_Z_S. field.
Qed.

Lemma Qred_zero : forall q, (q == 0)%Q -> Fin (Qred q) = Fin 0.
Proof.
  intros q E. change (Fin 0) with (Fin (Qred 0)). f_equal.
  apply Qred_complete. exact E.
Qed.

Lemma Qred_one : forall q, (q == 1)%Q -> Fin (Qred q) = Fin 1.
Proof.
  intros q E. change (Fin 1) with (Fin (Qred 1)). f_equal.
  apply Qred_complete. exact E.
Qed.

Lemma of_nat_nonzero :
  forall n, (0 < n)%nat -> ~ (inject_Z (Z.of_nat n) == 0)%Q.
Proof.
  intros n H E. pose proof (StatsFacts.of_nat_pos n H). lra.
Qed.

(** Perfect equality: the Gini coefficient of [n] equal non-zero values
    is 0. *)
Lemma gini_equal_values :
  forall a n corr,
    ~ (a == 0)%Q -> (if corr : bool then 2 <= n else 1 <= n)%nat ->
    fst (gini (repeat (Fin a) n) corr) = Fin 0.
Proof.
  intros a n corr Ha Hn.
  assert (Hn1 : (0 < n)%nat) by (destruct corr; lia).
  pose proof (of_nat_nonzero n Hn1) as Hnz.
  pose proof (sum_repeat_value a n) as HS.
  assert (HSnz : ~ (inject_Z (Z.of_nat n) * a == 0)%Q).
  { intro E. apply Qmult_integral in E. tauto. }
  unfold gini.
  destruct (Np.sum (repeat (Fin a) n) =? Num.zero) eqn:E.
  - apply (eqb_zero_value _ _ HS) in E. contradiction.
  - clear E. rewrite sort_repeat, repeat_length. unfold ranks.
    pose proof (ranked_sum_repeat a n 1) as HG.
    assert (HG2 :
      has_value
        (Num.of_nat 2
         * Np.sum (mul_lists (repeat (Fin a) n) (map Num.of_nat (seq 1 n)))
         / Np.sum (repeat (Fin a) n) - Num.of_nat (n + 1)) 0).
    { eapply has_value_eq.
      - apply has_value_sub; [| apply has_value_of_nat].
        apply has_value_div; [| exact HS | exact HSnz].
        apply has_value_mul; [apply has_value_of_nat | exact HG].
      - rewrite Nat.add_1_r, (inject_Z_S n).
        change (inject_Z (Z.of_nat 1)) with 1%Q.
        change (inject_Z (Z.of_nat 2)) with 2%Q.
        field. split; [exact Ha | exact Hnz]. }
    destruct corr; cbn [fst].
    + assert (Hp : ~ (inject_Z (Z.of_nat n - 1) == 0)%Q).
      { assert (0 < inject_Z (Z.of_nat n - 1))%Q
          by (change 0%Q with (inject_Z 0); rewrite <- Zlt_Qlt; lia).
        intro F. lra. }
      unfold Num.of_Z.
      rewrite (div_eq _ _ _ _ HG2 (has_value_Fin _)) by exact Hp.
      apply Qred_zero. field. exact Hp.
    + rewrite (div_eq _ _ _ _ HG2 (has_value_of_nat n) Hnz).
      apply Qred_zero. field. exact Hnz.
Qed.


Lemma insert_after_zeros :
  forall a j, (0 < a)%Q ->
    insert (Fin a) (repeat (Fin 0) j) = repeat (Fin 0) j ++ [Fin a].
Proof.
  intros a j Ha. induction j as [| j IH]; simpl; [reflexivity |].
  unfold sort_leb at 1. simpl.
  assert (E : Qle_bool a 0 = false).
  { destruct (Qle_bool a 0) eqn:F; [| reflexivity].
    apply Qle_bool_iff in F. lra. }
  rewrite E, IH. reflexivity.
Qed.

Lemma insert_zero_front :
  forall a k, (0 < a)%Q ->
    insert (Fin 0) (repeat (Fin 0) k ++ [Fin a])
    = Fin 0 :: repeat (Fin 0) k ++ [Fin a].
Proof.
  intros a [| k] Ha; simpl; unfold sort_leb; simpl.
  - assert (E : Qle_bool 0 a = true) by (apply Qle_bool_iff; lra).
    rewrite E. reflexivity.
  - reflexivity.
Qed.

Lemma sort_one_hot :
  forall a i j, (0 < a)%Q ->
    sort (repeat (Fin 0) i ++ Fin a :: repeat (Fin 0) j)
    = repeat (Fin 0) (i + j) ++ [Fin a].
Proof.
  intros a i j Ha. induction i as [| i IH]; simpl.
  - rewrite sort_repeat. apply insert_after_zeros. exact Ha.
  - rewrite IH. apply insert_zero_front. exact Ha.
Qed.

Lemma sum_zeros_then_value :
  forall a k, has_value (Np.sum (repeat (Fin 0) k ++ [Fin a])) a.
Proof.
  intros a k. induction k as [| k IH]; cbn [repeat app];
    rewrite ?sum_cons.
  - eapply has_value_eq.
    + apply has_value_add; [apply has_value_Fin |]. rewrite sum_nil.
      apply has_value_Fin.
    + ring.
  - eapply has_value_eq.
    + apply has_value_add; [apply has_value_Fin | exact IH].
    + ring.
Qed.

Lemma sum_one_hot_value :
  forall a i j,
    has_value (Np.sum (repeat (Fin 0) i ++ Fin a :: repeat (Fin 0) j)) a.
Proof.
  intros a i j. induction i as [| i IH]; cbn [repeat app];
    rewrite ?sum_cons.
  - eapply has_value_eq.
    + apply has_value_add; [apply has_value_Fin | apply sum_repeat_value].
    + ring.
  - eapply has_value_eq.
    + apply has_value_add; [apply has_value_Fin | exact IH].
    + ring.
Qed.

(** The weighted sum of a sorted one-hot vector: only the last rank
    counts. *)
Lemma ranked_sum_one_hot :
  forall a k s,
    has_value
      (Np.sum (mul_lists (repeat (Fin 0) k ++ [Fin a])
                 (map Num.of_nat (seq s (S k)))))
      (a * (inject_Z (Z.of_nat s) + inject_Z (Z.of_nat k))).
Proof.
  intros a k. induction k as [| k IH]; intro s.
  - cbn [repeat app seq map]. rewrite mul_lists_cons, sum_cons.
    eapply has_value_eq.
    + apply has_value_add.
      * apply has_value_mul; [apply has_value_Fin | apply has_value_of_nat].
      * apply has_value_Fin.
    + change (inject_Z (Z.of_nat 0)) with 0%Q. ring.
  - change (seq s (S (S k))) with (s :: seq (S s) (S k)).
    cbn [repeat app map]. rewrite mul_lists_cons, sum_cons.
    eapply has_value_eq.
    + apply has_value_add; [| apply IH].
      apply has_value_mul; [apply has_value_Fin | apply has_value_of_nat].
    + rewrite !inject_Z_S. ring.
Qed.

(** Maximal inequality: the Gini coefficient of a vector whose only
    non-zero entry is positive is [(n-1)/n], and 1 once corrected. *)
Lemma gini_one_hot :
  forall a i j,
    (0 < a)%Q ->
    fst (gini (repeat (Fin 0) i ++ Fin a :: repeat (Fin 0) j) false)
    = Num.of_nat (i + j) / Num.of_nat (i + j + 1)
    /\ ((1 <= i + j)%nat ->
        fst (gini (repeat (Fin 0) i ++ Fin a :: repeat (Fin 0) j) true)
        = Fin 1).
Proof.
  intros a i j Ha.
  assert (Hanz : ~ (a == 0)%Q) by (intro F; lra).
  pose proof (sum_one_hot_value a i j) as HS.
  assert (Hlen : length (repeat (Fin 0) i ++ Fin a :: repeat (Fin 0) j)
                 = S (i + j)).
  { rewrite length_app. simpl. rewrite !repeat_length. lia. }
  assert (Hnz : ~ (inject_Z (Z.of_nat (i + j + 1)) == 0)%Q)
    by (apply of_nat_nonzero; lia).
  assert (HG :
    has_value
      (Num.of_nat 2
       * Np.sum (mul_lists (repeat (Fin 0) (i + j) ++ [Fin a])
                   (ranks (S (i + j))))
       / Np.sum (repeat (Fin 0) (i + j) ++ [Fin a])
       - Num.of_nat (S (i + j) + 1))
      (inject_Z (Z.of_nat (i + j)))).
  { eapply has_value_eq.
    - apply has_value_sub; [| apply has_value_of_nat].
      apply has_value_div;
        [| apply sum_zeros_then_value | exact Hanz].
      apply has_value_mul; [apply has_value_of_nat |].
      apply ranked_sum_one_hot.
    - rewrite Nat.add_1_r, !inject_Z_S.
      change (inject_Z (Z.of_nat 2)) with 2%Q.
      change (inject_Z (Z.of_nat 1)) with 1%Q.
      field. exact Hanz. }
  assert (Hne : forall corr,
    gini (repeat (Fin 0) i ++ Fin a :: repeat (Fin 0) j) corr
    = (let G :=
         Num.of_nat 2
         * Np.sum (mul_lists (repeat (Fin 0) (i + j) ++ [Fin a])
                     (ranks (S (i + j))))
         / Np.sum (repeat (Fin 0) (i + j) ++ [Fin a])
         - Num.of_nat (S (i + j) + 1) in
       if corr then G / Num.of_Z (Z.of_nat (S (i + j)) - 1)
       else G / Num.of_nat (S (i + j)),
       repeat (Fin 0) (i + j) ++ [Fin a])).
  { intro corr. unfold gini.
    destruct (Np.sum _ =? Num.zero) eqn:E.
    - apply (eqb_zero_value _ _ HS) in E. contradiction.
    - rewrite Hlen, sort_one_hot by exact Ha. reflexivity. }
  split.
  - rewrite Hne. cbn [fst].
    replace (i + j + 1)%nat with (S (i + j)) in * by lia.
    rewrite (div_eq _ _ _ _ HG (has_value_of_nat _) Hnz).
    rewrite (div_eq _ _ _ _ (has_value_of_nat _) (has_value_of_nat _) Hnz).
    reflexivity.
  - intro Hk. rewrite Hne. cbn [fst]. unfold Num.of_Z.
    assert (Hp : ~ (inject_Z (Z.of_nat (S (i + j)) - 1) == 0)%Q).
    { assert (0 < inject_Z (Z.of_nat (S (i + j)) - 1))%Q
        by (change 0%Q with (inject_Z 0); rewrite <- Zlt_Qlt; lia).
      intro F. lra. }
    rewrite (div_eq _ _ _ _ HG (has_value_Fin _)) by exact Hp.
    apply Qred_one.
    replace (Z.of_nat (S (i + j)) - 1)%Z with (Z.of_nat (i + j)) in * by lia.
    field. exact Hp.
Qed.

(** ** Order *)

Lemma sort_leb_total :
  forall a b, sort_leb a b = false -> sort_leb b a = true.
Proof.
  intros [a | | |] [b | | |]; unfold sort_leb; simpl; try congruence.
  intro H. apply Qle_bool_iff.
  destruct (Qle_bool a b) eqn:E; [discriminate |].
  apply Qlt_le_weak, Qnot_le_lt. intro F. apply Qle_bool_iff in F.
  congruence.
Qed.

Lemma sort_leb_trans :
  forall a b c,
    sort_leb a b = true -> sort_leb b c = true -> sort_leb a c = true.
Proof.
  intros [a | | |] [b | | |] [c | | |]; unfold sort_leb; simpl;
    try congruence.
  rewrite !Qle_bool_iff. apply Qle_trans.
Qed.

Lemma insert_sorted :
  forall a l,
    Sorted (fun x y => sort_leb x y = true) l ->
    Sorted (fun x y => sort_leb x y = true) (insert a l).
Proof.
  intros a l H. induction H as [| b l Hl IH Hb]; simpl.
  - repeat constructor.
  - destruct (sort_leb a b) eqn:E.
    + constructor; [constructor; assumption | constructor; exact E].
    + constructor; [exact IH |].
      apply sort_leb_total in E.
      destruct l as [| c l]; simpl.
      * constructor. exact E.
      * destruct (sort_leb a c); constructor; [exact E |].
        inversion Hb; assumption.
Qed.

Lemma sort_sorted :
  forall l, Sorted (fun x y => sort_leb x y = true) (sort l).
Proof.
  induction l as [| a l IH]; simpl; [constructor |].
  apply insert_sorted. exact IH.
Qed.

(** X2: What [gini] leaves in the caller's array: always the same values; in
    ascending order ([nan] last) whenever their sum is not zero. *)
Theorem gini_leaves_sorted :
  forall x corr,
    Permutation x (snd (gini x corr)) /\
    ((Np.sum x =? Num.zero) = false ->
     StronglySorted (fun a b => sort_leb a b = true) (snd (gini x corr))).
Proof.
  intros x corr. unfold gini.
  destruct (Np.sum x =? Num.zero); cbn [snd].
  - split; [apply Permutation_refl | discriminate].
  - split; [apply GiniFacts.sort_perm |]. intros _.
    apply Sorted_StronglySorted; [| apply sort_sorted].
    intros a b c. apply sort_leb_trans.
Qed.

(** ** Scaling *)

Lemma sort_leb_scaled :
  forall c a b,
    (0 < c)%Q -> Num.is_finite a = true -> Num.is_finite b = true ->
    sort_leb (Fin c * a) (Fin c * b) = sort_leb a b.
Proof.
  intros c [a | | |] [b | | |] Hc Ha Hb; try discriminate.
  unfold sort_leb. simpl. apply eq_true_iff_eq.
  rewrite !Qle_bool_iff, !Qred_correct.
  split; intro H; nra.
Qed.

Lemma insert_scaled :
  forall c a l,
    (0 < c)%Q -> Num.is_finite a = true ->
    Forall (fun v => Num.is_finite v = true) l ->
    insert (Fin c * a) (scaled (Fin c) l) = scaled (Fin c) (insert a l).
Proof.
  intros c a l Hc Ha Hl. unfold scaled.
  induction Hl as [| b l Hb Hl IH]; cbn [map insert]; [reflexivity |].
  rewrite sort_leb_scaled by assumption.
  destruct (sort_leb a b); cbn [map]; [reflexivity |].
  rewrite IH. reflexivity.
Qed.

Lemma sort_finite :
  forall l, Forall (fun v => Num.is_finite v = true) l ->
            Forall (fun v => Num.is_finite v = true) (sort l).
Proof.
  intros l H. eapply Permutation_Forall; [apply GiniFacts.sort_perm | exact H].
Qed.

Lemma sort_scaled :
  forall c l,
    (0 < c)%Q -> Forall (fun v => Num.is_finite v = true) l ->
    sort (scaled (Fin c) l) = scaled (Fin c) (sort l).
Proof.
  intros c l Hc H. induction H as [| a l Ha Hl IH]; [reflexivity |].
  change (scaled (Fin c) (a :: l)) with (Fin c * a :: scaled (Fin c) l).
  cbn [sort]. rewrite IH. apply insert_scaled; [exact Hc | exact Ha |].
  apply sort_finite. exact Hl.
Qed.

Lemma ranked_sum_value :
  forall l rs,
    Forall (fun v => Num.is_finite v = true) l ->
    Forall (fun v => Num.is_finite v = true) rs ->
    exists g,
      has_value (Np.sum (mul_lists l rs)) g /\
      forall c, has_value (Np.sum (mul_lists (scaled (Fin c) l) rs)) (c * g).
Proof.
  intros l rs Hl. revert rs.
  induction Hl as [| a l Ha Hl IH]; intros rs Hrs.
  - exists 0%Q. split; [apply has_value_Fin |].
    intro c. exists 0%Q. split; [reflexivity | ring].
  - destruct Hrs as [| r rs Hr Hrs].
    + exists 0%Q. split; [apply has_value_Fin |].
      intro c. exists 0%Q. split; [reflexivity | ring].
    + destruct (IH rs Hrs) as [g [Hg Hcg]].
      exists (value_of a * value_of r + g)%Q. split.
      * rewrite mul_lists_cons, sum_cons.
        apply has_value_add; [| exact Hg].
        apply has_value_mul; apply finite_value; assumption.
      * intro c.
        change (scaled (Fin c) (a :: l)) with (Fin c * a :: scaled (Fin c) l).
        rewrite mul_lists_cons, sum_cons.
        eapply has_value_eq.
        -- apply has_value_add; [| apply Hcg].
           apply has_value_mul; [| apply finite_value; exact Hr].
           apply has_value_mul; [apply has_value_Fin |].
           apply finite_value; exact Ha.
        -- ring.
Qed.

Lemma ranks_finite :
  forall n, Forall (fun v => Num.is_finite v = true) (ranks n).
Proof.
  intro n. unfold ranks. apply Forall_map. apply Forall_forall.
  intros k _. reflexivity.
Qed.

(** X7: The Gini coefficient ignores the unit of its data: a positive factor
    on every value leaves it unchanged. *)
Theorem gini_scale_invariant :
  forall c x corr,
    (0 < c)%Q -> Forall (fun v => Num.is_finite v = true) x ->
    fst (gini (scaled (Fin c) x) corr) = fst (gini x corr).
Proof.
  intros c x corr Hc Hx.
  pose proof (sum_value x Hx) as HS.
  pose proof (sum_scaled_value c x Hx) as HS'.
  unfold gini.
  assert (Ez : (Np.sum (scaled (Fin c) x) =? Num.zero)
               = (Np.sum x =? Num.zero)).
  { apply eq_true_iff_eq.
    rewrite (eqb_zero_value _ _ HS), (eqb_zero_value _ _ HS').
    split; intro E; [| rewrite E; ring].
    apply Qmult_integral in E. destruct E as [E | E]; [lra | exact E]. }
  rewrite Ez. destruct (Np.sum x =? Num.zero); [reflexivity |].
  cbn [fst]. rewrite sort_scaled by assumption.
  replace (length (scaled (Fin c) x)) with (length x)
    by (unfold scaled; rewrite length_map; reflexivity).
  pose proof (sort_finite x Hx) as Hsx.
  destruct (ranked_sum_value (sort x) (ranks (length x)) Hsx
              (ranks_finite _)) as [g [Hg Hcg]].
  assert (E : Num.of_nat 2
              * Np.sum (mul_lists (scaled (Fin c) (sort x))
                          (ranks (length x)))
              / Np.sum (scaled (Fin c) (sort x))
              = Num.of_nat 2
                * Np.sum (mul_lists (sort x) (ranks (length x)))
                / Np.sum (sort x)).
  { eapply (div_scale_pos c); [exact Hc | | | |].
    - apply has_value_mul; [apply has_value_of_nat | exact Hg].
    - apply sum_value. exact Hsx.
    - eapply has_value_eq.
      + apply has_value_mul; [apply has_value_of_nat | apply Hcg].
      + ring.
    - apply sum_scaled_value. exact Hsx. }
  rewrite E. reflexivity.
Qed.

(** X6: The two ends of the scale.  [n] equal positive values are perfectly
    equal: their Gini coefficient is 0.  One positive value among zeros is
    as unequal as [n] values can be: the coefficient is [(n-1)/n], and 1
    with the correction [corr=True]. *)
Theorem gini_extremes :
  forall a,
    (0 < a)%Q ->
    (forall n corr,
        (if corr : bool then 2 <= n else 1 <= n)%nat ->
        fst (gini (repeat (Fin a) n) corr) = Fin 0)
    /\ (forall i j,
           fst (gini (repeat (Fin 0) i ++ Fin a :: repeat (Fin 0) j) false)
           = Num.of_nat (i + j) / Num.of_nat (i + j + 1)
           /\ ((1 <= i + j)%nat ->
               fst (gini (repeat (Fin 0) i ++ Fin a :: repeat (Fin 0) j)
                      true)
               = Fin 1)).
Proof.
  intros a Ha. split.
  - intros n corr Hn. apply gini_equal_values; [| exact Hn].
    intro E. lra.
  - intros i j. apply gini_one_hot. exact Ha.
Qed.

End GiniValueFacts.

(* ================================================================== *)
(** ** The acoustic complexity index: gain and stationarity *)

Module ACIScaleFacts.
Import Indices UniformGridFacts ArithFacts.
Local Open Scope string_scope.
Local Open Scope num_scope.

Lemma abs_diff_cons2 :
  forall a b tl,
    abs_diff (a :: b :: tl) = Num.abs (b - a) :: abs_diff (b :: tl).
Proof. reflexivity. Qed.

Lemma abs_sub_scaled_value :
  forall c a b,
    (0 < c)%Q -> Num.is_finite a = true -> Num.is_finite b = true ->
    has_value (Num.abs (Fin c * b - Fin c * a))
      (c * Qabs (value_of b - value_of a)).
Proof.
  intros c a b Hc Ha Hb.
  eapply has_value_eq.
  - apply has_value_abs. apply has_value_sub;
      (apply has_value_mul; [apply has_value_Fin | apply finite_value]);
      eassumption.
  - setoid_replace (c * value_of b - c * value_of a)%Q
      with (c * (value_of b - value_of a))%Q by ring.
    rewrite Qabs_Qmult. rewrite (Qabs_pos c) by lra. reflexivity.
Qed.

Lemma abs_sub_value :
  forall a b,
    Num.is_finite a = true -> Num.is_finite b = true ->
    has_value (Num.abs (b - a)) (Qabs (value_of b - value_of a)).
Proof.
  intros a b Ha Hb. apply has_value_abs.
  apply has_value_sub; apply finite_value; assumption.
Qed.

(** The normalised differences of a line do not see a common positive
    factor on the line and on the divisor. *)
Lemma abs_diff_scaled_div :
  forall c row y y' s,
    (0 < c)%Q -> Forall (fun v => Num.is_finite v = true) row ->
    has_value y s -> has_value y' (c * s) ->
    map (fun d => d / y') (abs_diff (scaled (Fin c) row))
    = map (fun d => d / y) (abs_diff row).
Proof.
  intros c row y y' s Hc Hrow Hy Hy'.
  induction Hrow as [| a row Ha Hrow IH]; [reflexivity |].
  destruct Hrow as [| b row Hb Hrow]; [reflexivity |].
  change (scaled (Fin c) (a :: b :: row))
    with (Fin c * a :: Fin c * b :: scaled (Fin c) row).
  rewrite !abs_diff_cons2. cbn [map]. f_equal.
  - eapply (div_scale_pos c); [exact Hc | | exact Hy | | exact Hy'].
    + apply abs_sub_value; assumption.
    + apply abs_sub_scaled_value; assumption.
  - exact IH.
Qed.

Lemma flatten_amap :
  forall A B (f : A -> B) x, flatten (amap f x) = map f (flatten x).
Proof.
  intros A B f [v | c rows]; simpl; [reflexivity |].
  rewrite concat_map. reflexivity.
Qed.

(** X8: The index does not depend on the gain of the recording: a positive
    factor on the whole spectrogram changes none of its results, under
    either normalisation. *)
Theorem ACI_scale_invariant :
  forall c Sxx norm,
    (0 < c)%Q -> all_finite Sxx ->
    acousticComplexityIndex (amap (Num.mul (Fin c)) Sxx) norm
    = acousticComplexityIndex Sxx norm.
Proof.
  intros c Sxx norm Hc Hfin. unfold acousticComplexityIndex.
  destruct (String.eqb norm "per_bin").
  - destruct Sxx as [v | n rows]; [reflexivity |]. cbn [amap].
    assert (E : map (fun row =>
                       map (fun d => d / Np.sum row) (abs_diff row))
                  (map (map (Num.mul (Fin c))) rows)
                = map (fun row =>
                         map (fun d => d / Np.sum row) (abs_diff row)) rows).
    { rewrite map_map. apply map_ext_in. intros row Hin.
      assert (Hrow : Forall (fun v => Num.is_finite v = true) row).
      { unfold all_finite in Hfin. simpl in Hfin.
        rewrite Forall_forall in Hfin. apply Forall_forall.
        intros a Ha. apply Hfin. apply in_concat. eauto. }
      apply (abs_diff_scaled_div c row _ _ _ Hc Hrow (sum_value row Hrow)
               (sum_scaled_value c row Hrow)). }
    rewrite E. reflexivity.
  - destruct (String.eqb norm "global"); [| reflexivity].
    unfold global_denominator, Np.sum_all. cbv zeta. rewrite flatten_amap.
    pose proof (sum_value (flatten Sxx) Hfin) as HS.
    pose proof (sum_scaled_value c (flatten Sxx) Hfin) as HS'.
    unfold scaled in HS'.
    destruct Sxx as [v | n rows]; cbn [amap flatten] in *.
    + reflexivity.
    + assert (E : map (fun row =>
                         map (fun a => a / Np.sum (map (Num.mul (Fin c))
                                                     (concat rows)))
                           (abs_diff row))
                    (map (map (Num.mul (Fin c))) rows)
                  = map (fun row =>
                           map (fun a => a / Np.sum (concat rows))
                             (abs_diff row)) rows).
      { rewrite map_map. apply map_ext_in. intros row Hin.
        assert (Hrow : Forall (fun v => Num.is_finite v = true) row).
        { unfold all_finite in Hfin. simpl in Hfin.
          rewrite Forall_forall in Hfin. apply Forall_forall.
          intros a Ha. apply Hfin. apply in_concat. eauto. }
        apply (abs_diff_scaled_div c row _ _ _ Hc Hrow HS HS'). }
      rewrite E. reflexivity.
Qed.


Lemma sum_app_value :
  forall l1 l2 a b,
    has_value (Np.sum l1) a -> has_value (Np.sum l2) b ->
    Forall (fun v => Num.is_finite v = true) l1 ->
    has_value (Np.sum (l1 ++ l2)) (a + b).
Proof.
  intros l1 l2 a b H1 H2 Hf. revert a H1.
  induction Hf as [| v l1 Hv Hf IH]; intros a H1; cbn [app].
  - rewrite sum_nil in H1. destruct H1 as [q [E Hq]]. inversion E; subst.
    eapply has_value_eq; [exact H2 |]. rewrite <- Hq. ring.
  - rewrite sum_cons in *.
    pose proof (sum_value l1 Hf) as Hl1.
    eapply has_value_eq.
    + apply has_value_add; [apply finite_value; exact Hv |].
      apply (IH _ Hl1).
    + pose proof (has_value_add _ _ _ _ (finite_value v Hv) Hl1) as H3.
      destruct H1 as [q [E Hq]]. destruct H3 as [q' [E' Hq']].
      rewrite E in E'. inversion E'; subst. rewrite <- Hq, Hq'. ring.
Qed.

Lemma repeat_finite :
  forall v n, Forall (fun x => Num.is_finite x = true) (repeat (Fin v) n).
Proof.
  intros v n. apply Forall_forall. intros x Hx.
  apply repeat_spec in Hx. subst. reflexivity.
Qed.

(** The total of a spectrogram whose rows are constant in time. *)
Lemma sum_stationary_value :
  forall vs c,
    has_value (Np.sum (concat (map (fun v => repeat (Fin v) c) vs)))
      (inject_Z (Z.of_nat c) * Qsum vs).
Proof.
  intros vs c. induction vs as [| v vs IH]; cbn [map concat].
  - exists 0%Q. split; [reflexivity |]. simpl. ring.
  - eapply has_value_eq.
    + apply sum_app_value;
        [apply GiniValueFacts.sum_repeat_value | exact IH
        | apply repeat_finite].
    + simpl. ring.
Qed.

Lemma Qsum_pos :
  forall vs, Forall (fun v => (0 < v)%Q) vs -> vs <> [] -> (0 < Qsum vs)%Q.
Proof.
  intros vs H Hne. induction H as [| v vs Hv Hvs IH]; [congruence |].
  simpl. destruct vs as [| w vs].
  - simpl. lra.
  - assert (0 < Qsum (w :: vs))%Q by (apply IH; discriminate). lra.
Qed.

Lemma abs_diff_repeat :
  forall v c, abs_diff (repeat (Fin v) c) = repeat (Fin 0) (pred c).
Proof.
  intros v c. destruct c as [| c]; [reflexivity |].
  cbn [pred]. induction c as [| c IH]; [reflexivity |].
  change (repeat (Fin v) (S (S c))) with (Fin v :: Fin v :: repeat (Fin v) c).
  rewrite abs_diff_cons2.
  change (Fin v :: repeat (Fin v) c) with (repeat (Fin v) (S c)).
  rewrite IH. cbn [repeat]. f_equal.
  rewrite (sub_eq _ _ _ _ (has_value_Fin v) (has_value_Fin v)).
  rewrite (GiniValueFacts.Qred_zero (v - v)) by ring. reflexivity.
Qed.

Lemma zeros_div :
  forall y s k,
    has_value y s -> ~ (s == 0)%Q ->
    map (fun d => d / y) (repeat (Fin 0) k) = repeat (Fin 0) k.
Proof.
  intros y s k Hy Hs. induction k as [| k IH]; [reflexivity |].
  cbn [repeat map]. rewrite IH. f_equal.
  rewrite (div_eq _ _ _ _ (has_value_Fin 0) Hy Hs).
  apply GiniValueFacts.Qred_zero. field. exact Hs.
Qed.

Lemma sum_repeat_zero : forall k, Np.sum (repeat (Fin 0) k) = Fin 0.
Proof.
  intro k. induction k as [| k IH]; [reflexivity |].
  cbn [repeat]. rewrite sum_cons, IH. reflexivity.
Qed.

Lemma sum_map_zero :
  forall A (l : list A), Np.sum (map (fun _ => Fin 0) l) = Fin 0.
Proof.
  intros A l. induction l as [| a l IH]; [reflexivity |].
  cbn [map]. rewrite sum_cons, IH. reflexivity.
Qed.

(** X9: A stationary soundscape has no complexity: when every frequency bin
    keeps one positive amplitude over time, every entry of the index is
    zero, under either normalisation. *)
Theorem ACI_stationary :
  forall vs c norm,
    norm = "global" \/ norm = "per_bin" ->
    Forall (fun v => (0 < v)%Q) vs -> vs <> [] -> (1 <= c)%nat ->
    acousticComplexityIndex (Arr2 c (map (fun v => repeat (Fin v) c) vs)) norm
    = Ok (Arr2 (pred c) (map (fun _ => repeat (Fin 0) (pred c)) vs),
          map (fun _ => Fin 0) vs, Fin 0).
Proof.
  intros vs c norm Hnorm Hpos Hne Hc.
  assert (Hcpos : (0 < inject_Z (Z.of_nat c))%Q)
    by (apply StatsFacts.of_nat_pos; lia).
  assert (Hrows :
    forall f : list num -> num,
      (forall v, In v vs ->
                 exists s,
                   has_value (f (repeat (Fin v) c)) s /\ ~ (s == 0)%Q) ->
      map (fun row => map (fun d => d / f row) (abs_diff row))
        (map (fun v => repeat (Fin v) c) vs)
      = map (fun _ => repeat (Fin 0) (pred c)) vs).
  { intros f Hf. rewrite map_map. apply map_ext_in. intros v Hv.
    destruct (Hf v Hv) as [s [Hs Hnz]].
    rewrite abs_diff_repeat. apply (zeros_div _ s); assumption. }
  assert (Hend :
    forall rows : list (list num),
      rows = map (fun _ => repeat (Fin 0) (pred c)) vs ->
      (Arr2 (pred c) rows, map Np.sum rows, Np.sum (map Np.sum rows))
      = (Arr2 (pred c) (map (fun _ => repeat (Fin 0) (pred c)) vs),
         map (fun _ => Fin 0) vs, Fin 0)).
  { intros rows ->. rewrite map_map.
    rewrite (map_ext _ (fun _ => Fin 0))
      by (intro; apply sum_repeat_zero).
    rewrite sum_map_zero. reflexivity. }
  unfold acousticComplexityIndex.
  destruct Hnorm as [-> | ->].
  - change (String.eqb "global" "per_bin") with false.
    change (String.eqb "global" "global") with true. cbv iota zeta.
    unfold global_denominator, Np.sum_all. cbn [flatten].
    rewrite (Hrows (fun _ =>
               Np.sum (concat (map (fun v => repeat (Fin v) c) vs)))).
    + cbn [bind]. f_equal. apply Hend. reflexivity.
    + intros v _. eexists. split; [apply sum_stationary_value |].
      pose proof (Qsum_pos vs Hpos Hne). intro F. nra.
  - change (String.eqb "per_bin" "per_bin") with true. cbv iota.
    rewrite (Hrows Np.sum).
    + cbn [bind]. f_equal. apply Hend. reflexivity.
    + intros v Hv. eexists.
      split; [apply GiniValueFacts.sum_repeat_value |].
      rewrite Forall_forall in Hpos. specialize (Hpos v Hv).
      intro F. nra.
Qed.

End ACIScaleFacts.

(* ================================================================== *)
(** ** Acoustic events: silence and the rejection of short events *)

Module OpeningFacts.
Import Events EventsFacts UniformGridFacts ArithFacts.
Local Open Scope num_scope.

Lemma nth_repeat_lt :
  forall A (v d : A) n k, (k < n)%nat -> nth k (repeat v n) d = v.
Proof.
  intros A v d n. induction n as [| n IH]; intros k Hk; [lia |].
  destruct k as [| k]; simpl; [reflexivity | apply IH; lia].
Qed.

Lemma nth_repeat_default :
  forall A (v : A) n k, nth k (repeat v n) v = v.
Proof.
  intros A v n. induction n as [| n IH]; intros [| k]; simpl; auto.
Qed.

(** One block of [true] between two blocks of [false], entry by entry. *)
Lemma nth_block :
  forall a L b k,
    nth k (repeat false a ++ repeat true L ++ repeat false b) false = true
    <-> (a <= k < a + L)%nat.
Proof.
  intros a L b k. destruct (Nat.lt_ge_cases k a) as [H | H].
  - rewrite app_nth1 by (rewrite repeat_length; exact H).
    rewrite nth_repeat_default. split; [discriminate | lia].
  - rewrite app_nth2 by (rewrite repeat_length; exact H).
    rewrite repeat_length.
    destruct (Nat.lt_ge_cases (k - a) L) as [H' | H'].
    + rewrite app_nth1 by (rewrite repeat_length; exact H').
      rewrite nth_repeat_lt by exact H'. split; [lia | reflexivity].
    + rewrite app_nth2 by (rewrite repeat_length; exact H').
      rewrite nth_repeat_default. split; [discriminate | lia].
Qed.

Lemma at_border_block :
  forall a L b z,
    at_border (repeat false a ++ repeat true L ++ repeat false b) z = true
    <-> (Z.of_nat a <= z < Z.of_nat a + Z.of_nat L)%Z.
Proof.
  intros a L b z. unfold at_border.
  destruct (Z.ltb_spec z 0) as [H | H].
  - split; [discriminate | lia].
  - rewrite nth_block. lia.
Qed.

Lemma at_border_map_seq :
  forall (f : nat -> bool) n z,
    at_border (map f (seq 0 n)) z = true
    <-> (0 <= z < Z.of_nat n)%Z /\ f (Z.to_nat z) = true.
Proof.
  intros f n z. unfold at_border.
  destruct (Z.ltb_spec z 0) as [H | H].
  - split; [discriminate | lia].
  - destruct (Z.lt_ge_cases z (Z.of_nat n)) as [H' | H'].
    + rewrite (nth_indep _ false (f 0%nat))
        by (rewrite length_map, length_seq; lia).
      rewrite map_nth, seq_nth by lia. simpl. tauto.
    + rewrite nth_overflow by (rewrite length_map, length_seq; lia).
      split; [discriminate | lia].
Qed.

Lemma block_length :
  forall a L b,
    length (repeat false a ++ repeat true L ++ repeat false b)
    = (a + L + b)%nat.
Proof.
  intros a L b. rewrite !length_app, !repeat_length. lia.
Qed.

(** The erosion of a block by [m] samples keeps the positions whose whole
    window lies in the block. *)
Lemma erosion_block :
  forall a L b m z,
    (1 <= m)%nat ->
    at_border
      (binary_erosion (repeat false a ++ repeat true L ++ repeat false b) m)
      z = true
    <-> (Z.of_nat a + Z.of_nat (m / 2) <= z
         /\ z + Z.of_nat m - 1 - Z.of_nat (m / 2)
            < Z.of_nat a + Z.of_nat L)%Z.
Proof.
  intros a L b m z Hm. unfold binary_erosion.
  rewrite at_border_map_seq, block_length, forallb_forall.
  assert (Hc : (m / 2 < m)%nat) by (apply Nat.div_lt; lia).
  split.
  - intros [Hz H].
    pose proof (H 0%nat) as H0. pose proof (H (m - 1)%nat) as H1.
    rewrite at_border_block in H0, H1.
    rewrite Z2Nat.id in H0, H1 by lia.
    specialize (H0 ltac:(apply in_seq; lia)).
    specialize (H1 ltac:(apply in_seq; lia)). lia.
  - intros [H0 H1]. split; [lia |].
    intros j Hj. apply in_seq in Hj.
    rewrite at_border_block, Z2Nat.id by lia. lia.
Qed.

Lemma erosion_length :
  forall x m, length (binary_erosion x m) = length x.
Proof.
  intros x m. unfold binary_erosion. rewrite length_map, length_seq.
  reflexivity.
Qed.

Lemma map_false_seq :
  forall (f : nat -> bool) n s,
    (forall i, f i = false) -> map f (seq s n) = repeat false n.
Proof.
  intros f n. induction n as [| n IH]; intros s H; simpl; [reflexivity |].
  rewrite H, IH by exact H. reflexivity.
Qed.

(** The opening of a single block: a block of at least [m] samples is
    restored, a shorter one is removed. *)
Lemma opening_block :
  forall a L b m,
    (1 <= m)%nat ->
    binary_dilation
      (binary_erosion (repeat false a ++ repeat true L ++ repeat false b) m)
      m
    = if (m <=? L)%nat
      then repeat false a ++ repeat true L ++ repeat false b
      else repeat false (a + L + b).
Proof.
  intros a L b m Hm.
  set (x := repeat false a ++ repeat true L ++ repeat false b).
  assert (Hc : (m / 2 < m)%nat) by (apply Nat.div_lt; lia).
  unfold binary_dilation. rewrite erosion_length.
  assert (Hpt : forall i,
    existsb (fun j => at_border (binary_erosion x m)
                        (Z.of_nat i - Z.of_nat j + Z.of_nat (m / 2)))
      (seq 0 m) = true
    <-> (m <= L /\ a <= i < a + L)%nat).
  { intro i. rewrite existsb_exists. split.
    - intros [j [Hj H]]. apply in_seq in Hj.
      apply erosion_block in H; [| exact Hm]. lia.
    - intros [HL Hi].
      exists (Nat.min (m - 1) (i - a)). split; [apply in_seq; lia |].
      apply erosion_block; [exact Hm |]. lia. }
  destruct (Nat.leb_spec m L) as [HL | HL].
  - etransitivity; [| apply (map_nth_seq _ false x)].
    apply map_ext. intro i. apply eq_true_iff_eq.
    rewrite Hpt. unfold x. rewrite nth_block. lia.
  - unfold x at 2. rewrite block_length.
    apply map_false_seq. intro i.
    destruct (existsb _ _) eqn:E; [| reflexivity].
    apply Hpt in E. lia.
Qed.


Lemma rle_silent :
  forall n, rle (repeat false n)
            = match n with 0%nat => ([], []) | S _ => ([n], [false]) end.
Proof.
  intros [| k]; [reflexivity |].
  rewrite <- (app_nil_r (repeat false (S k))).
  apply (rle_run false k [] [] []); [reflexivity | auto].
Qed.

(** Without a sample at or above the threshold there is no event. *)
Lemma event_stats_silent :
  forall d duration s n,
    has_value duration s -> ~ (s == 0)%Q ->
    event_stats (Fin d) duration (repeat false n) = (Fin 0, Fin 0, Fin 0).
Proof.
  intros d duration s n Hd Hs. unfold event_stats. rewrite rle_silent.
  assert (E0 : Num.of_nat 0 * Fin d = Fin 0).
  { rewrite (mul_eq _ _ _ _ (has_value_of_nat 0) (has_value_Fin d)).
    apply GiniValueFacts.Qred_zero. change (inject_Z (Z.of_nat 0)) with 0%Q.
    ring. }
  assert (E1 : Num.of_nat 0 / duration = Fin 0).
  { rewrite (div_eq _ _ _ _ (has_value_of_nat 0) Hd Hs).
    apply GiniValueFacts.Qred_zero. change (inject_Z (Z.of_nat 0)) with 0%Q.
    field. exact Hs. }
  destruct n as [| k]; cbn [select sum_nat fold_right Nat.eqb negb];
    unfold count_true; cbn [filter length]; rewrite E0, E1; reflexivity.
Qed.

Lemma duration_value :
  forall n d,
    has_value (Num.of_Z (Z.of_nat n - 1) * Fin d)
      (inject_Z (Z.of_nat n - 1) * d).
Proof.
  intros n d. apply has_value_mul; apply has_value_Fin.
Qed.

Lemma duration_nonzero :
  forall n d, (2 <= n)%nat -> ~ (d == 0)%Q ->
              ~ (inject_Z (Z.of_nat n - 1) * d == 0)%Q.
Proof.
  intros n d Hn Hd E. apply Qmult_integral in E. destruct E as [E | E].
  - assert (0 < inject_Z (Z.of_nat n - 1))%Q
      by (change 0%Q with (inject_Z 0); rewrite <- Zlt_Qlt; lia).
    lra.
  - contradiction.
Qed.

Lemma rejectLength_of_Ok_nonzero :
  forall rd d k, rejectLength_of rd (Fin d) = Ok k -> ~ (d == 0)%Q.
Proof.
  intros rd d k H E. unfold rejectLength_of in H.
  assert (F : (Fin d =? Num.zero) = true)
    by (apply NumFacts.eqb_Fin; exact E).
  rewrite F in H. discriminate.
Qed.

(** X10: A recording that never reaches the threshold has no event: the total
    and mean durations and the event rate are 0, whether or not short
    events are filtered out. *)
Theorem acoustic_events_silence :
  forall v d t rejectDuration,
    Forall (fun a => (a >=? t) = false) v ->
    (2 <= length v)%nat -> ~ (d == 0)%Q ->
    match rejectDuration with
    | None => True
    | Some rd => exists k, rejectLength_of rd (Fin d) = Ok k /\ (0 <= k)%Z
    end ->
    acoustic_events (Arr1 v) (Fin d) t rejectDuration
    = Ok (Scalar (Fin 0), Scalar (Fin 0), Scalar (Fin 0),
          Arr1 (repeat false (length v))).
Proof.
  intros v d t rejectDuration Hv Hn Hd Hrd. unfold acoustic_events.
  cbn [amap]. rewrite (map_const _ _ _ false v Hv).
  assert (E : event_stats (Fin d) (Num.of_Z (Z.of_nat (length v) - 1) * Fin d)
                (repeat false (length v)) = (Fin 0, Fin 0, Fin 0)).
  { eapply event_stats_silent;
      [apply duration_value | apply duration_nonzero; assumption]. }
  destruct rejectDuration as [rd |].
  - destruct Hrd as [k [Ek Hk]]. rewrite Ek. cbn [bind].
    destruct (Z.leb_spec (k + 1) 0) as [F | F]; [lia |].
    pose proof (opening_block 0 0 (length v) (Z.to_nat (k + 1))
                  ltac:(lia)) as Ho.
    cbn [repeat app Nat.add] in Ho.
    destruct (Nat.leb_spec (Z.to_nat (k + 1)) 0) as [G | G]; [lia |].
    rewrite Ho. cbn [bind]. rewrite E. reflexivity.
  - cbn [bind]. rewrite E. reflexivity.
Qed.

(** X11: What [rejectDuration] does to a single event: an event of more
    samples than [rejectLength = int(round(rejectDuration/dt))] is kept as
    it is, a shorter one is removed and the recording counts as silent. *)
Theorem acoustic_events_rejectDuration :
  forall pre run post d t rd k,
    Forall (fun v => (v >=? t) = false) pre ->
    Forall (fun v => (v >=? t) = true) run ->
    Forall (fun v => (v >=? t) = false) post ->
    rejectLength_of rd (Fin d) = Ok k -> (0 <= k)%Z ->
    (2 <= length (pre ++ run ++ post))%nat ->
    acoustic_events (Arr1 (pre ++ run ++ post)) (Fin d) t (Some rd)
    = if (Z.of_nat (length run) <=? k)%Z
      then Ok (Scalar (Fin 0), Scalar (Fin 0), Scalar (Fin 0),
               Arr1 (repeat false (length (pre ++ run ++ post))))
      else Ok (Scalar (Num.of_nat (length run) * Fin d),
               Scalar (Num.of_nat (length run) * Fin d),
               Scalar (Num.one
                       / (Num.of_Z
                            (Z.of_nat (length (pre ++ run ++ post)) - 1)
                          * Fin d)),
               Arr1 (map (fun v => v >=? t) (pre ++ run ++ post))).
Proof.
  intros pre run post d t rd k Hpre Hrun Hpost Ek Hk Hn.
  pose proof (rejectLength_of_Ok_nonzero rd d k Ek) as Hd.
  unfold acoustic_events. cbn [amap]. rewrite Ek. cbn [bind].
  destruct (Z.leb_spec (k + 1) 0) as [F | F]; [lia |].
  rewrite (threshold_single_run t pre run post Hpre Hrun Hpost).
  rewrite (opening_block _ _ _ (Z.to_nat (k + 1))) by lia.
  cbn [bind].
  set (duration :=
         Num.of_Z (Z.of_nat (length (pre ++ run ++ post)) - 1) * Fin d).
  destruct (Z.leb_spec (Z.of_nat (length run)) k) as [HL | HL].
  - destruct (Nat.leb_spec (Z.to_nat (k + 1)) (length run)) as [G | G];
      [lia |].
    replace (length pre + length run + length post)%nat
      with (length (pre ++ run ++ post))
      by (rewrite !length_app; lia).
    assert (E : event_stats (Fin d) duration
                  (repeat false (length (pre ++ run ++ post)))
                = (Fin 0, Fin 0, Fin 0)).
    { eapply event_stats_silent;
        [apply duration_value | apply duration_nonzero; assumption]. }
    rewrite E. reflexivity.
  - destruct (Nat.leb_spec (Z.to_nat (k + 1)) (length run)) as [G | G];
      [| lia].
    destruct run as [| r run]; [simpl in HL; lia |].
    cbn [length]. rewrite event_stats_single_run. reflexivity.
Qed.

End OpeningFacts.

(* ================================================================== *)
(** ** Roughness *)

Module RoughnessFacts.
Import Roughness UniformGridFacts ArithFacts.
Local Open Scope string_scope.
Local Open Scope num_scope.

Lemma diff_cons2 :
  forall a b tl, Np.diff (a :: b :: tl) = (b - a) :: Np.diff (b :: tl).
Proof. reflexivity. Qed.

(** Differences of a sequence given by its index. *)
Lemma diff_map_seq :
  forall (g : nat -> num) n s,
    Np.diff (map g (seq s n)) = map (fun i => g (S i) - g i) (seq s (pred n)).
Proof.
  intros g n. destruct n as [| n]; [reflexivity |]. cbn [pred].
  induction n as [| n IH]; intro s; [reflexivity |].
  change (seq s (S (S n))) with (s :: S s :: seq (S (S s)) n).
  cbn [map]. rewrite diff_cons2.
  change (g (S s) :: map g (seq (S (S s)) n)) with (map g (seq (S s) (S n))).
  rewrite IH. reflexivity.
Qed.

Lemma straight_line_second_difference :
  forall a b i,
    (Fin a + Num.of_nat (S (S i)) * Fin b - (Fin a + Num.of_nat (S i) * Fin b))
    - (Fin a + Num.of_nat (S i) * Fin b - (Fin a + Num.of_nat i * Fin b))
    = Fin 0.
Proof.
  intros a b i.
  assert (Hv : forall k, has_value (Fin a + Num.of_nat k * Fin b)
                           (a + inject_Z (Z.of_nat k) * b)).
  { intro k. apply has_value_add; [apply has_value_Fin |].
    apply has_value_mul; [apply has_value_of_nat | apply has_value_Fin]. }
  rewrite (sub_eq _ _ _ _
             (has_value_sub _ _ _ _ (Hv (S (S i))) (Hv (S i)))
             (has_value_sub _ _ _ _ (Hv (S i)) (Hv i))).
  apply GiniValueFacts.Qred_zero.
  rewrite !GiniValueFacts.inject_Z_S. ring.
Qed.

(** X12: A straight line is not rough: the roughness of the samples of an
    affine function is 0, whatever their number. *)
Theorem roughness_straight_line :
  forall a b n,
    roughness (Arr1 (straight_line a b n)) None 0 = Ok (Scalar (Fin 0)).
Proof.
  intros a b n. unfold roughness. cbn [bind]. do 2 f_equal.
  unfold roughness_line, diff2, straight_line.
  rewrite diff_map_seq.
  rewrite (diff_map_seq
             (fun i => Fin a + Num.of_nat (S i) * Fin b
                       - (Fin a + Num.of_nat i * Fin b))).
  rewrite map_map.
  rewrite (map_ext _ (fun _ => Fin 0)).
  - apply ACIScaleFacts.sum_map_zero.
  - intro i. rewrite straight_line_second_difference. reflexivity.
Qed.

(** *** Scaling *)

Lemma mul_sub_distr :
  forall c a b,
    Num.is_finite a = true -> Num.is_finite b = true ->
    Fin c * b - Fin c * a = Fin c * (b - a).
Proof.
  intros c a b Ha Hb.
  pose proof (finite_value a Ha) as Va. pose proof (finite_value b Hb) as Vb.
  rewrite (sub_eq _ _ _ _
             (has_value_mul _ _ _ _ (has_value_Fin c) Vb)
             (has_value_mul _ _ _ _ (has_value_Fin c) Va)).
  rewrite (mul_eq _ _ _ _ (has_value_Fin c) (has_value_sub _ _ _ _ Vb Va)).
  f_equal. apply Qred_complete. ring.
Qed.

Lemma sub_finite :
  forall a b, Num.is_finite a = true -> Num.is_finite b = true ->
              Num.is_finite (b - a) = true.
Proof.
  intros [a | | |] [b | | |] Ha Hb; try discriminate. reflexivity.
Qed.

Lemma diff_finite :
  forall l, Forall (fun v => Num.is_finite v = true) l ->
            Forall (fun v => Num.is_finite v = true) (Np.diff l).
Proof.
  intros l H. induction H as [| a l Ha Hl IH]; [constructor |].
  destruct Hl as [| b l Hb Hl]; [constructor |].
  rewrite diff_cons2. constructor; [apply sub_finite; assumption | exact IH].
Qed.

Lemma diff_scaled :
  forall c l, Forall (fun v => Num.is_finite v = true) l ->
              Np.diff (scaled (Fin c) l) = scaled (Fin c) (Np.diff l).
Proof.
  intros c l H. induction H as [| a l Ha Hl IH]; [reflexivity |].
  destruct Hl as [| b l Hb Hl]; [reflexivity |].
  change (scaled (Fin c) (a :: b :: l))
    with (Fin c * a :: Fin c * b :: scaled (Fin c) l).
  rewrite !diff_cons2.
  change (Fin c * b :: scaled (Fin c) l) with (scaled (Fin c) (b :: l)).
  rewrite IH, mul_sub_distr by assumption. reflexivity.
Qed.

Lemma square_scaled :
  forall c v, Num.is_finite v = true ->
              Num.square (Fin c * v) = Fin (c * c) * Num.square v.
Proof.
  intros c [v | | |] H; try discriminate. unfold Num.square.
  rewrite (mul_eq _ _ _ _
             (has_value_mul _ _ _ _ (has_value_Fin c) (has_value_Fin v))
             (has_value_mul _ _ _ _ (has_value_Fin c) (has_value_Fin v))).
  rewrite (mul_eq _ _ _ _ (has_value_Fin (c * c))
             (has_value_mul _ _ _ _ (has_value_Fin v) (has_value_Fin v))).
  f_equal. apply Qred_complete. ring.
Qed.

Lemma square_finite :
  forall v, Num.is_finite v = true -> Num.is_finite (Num.square v) = true.
Proof. intros [v | | |] H; try discriminate. reflexivity. Qed.

(** A factor on every term of a sum comes out of the sum. *)
Lemma sum_scaled_eq :
  forall k l, Forall (fun v => Num.is_finite v = true) l ->
              Np.sum (scaled (Fin k) l) = Fin k * Np.sum l.
Proof.
  intros k l H.
  rewrite (mul_eq _ _ _ _ (has_value_Fin k) (sum_value l H)).
  destruct H as [| v l Hv Hl].
  - simpl. symmetry. apply GiniValueFacts.Qred_zero. ring.
  - change (scaled (Fin k) (v :: l)) with (Fin k * v :: scaled (Fin k) l).
    rewrite sum_cons.
    rewrite (add_eq _ _ _ _
               (has_value_mul _ _ _ _ (has_value_Fin k) (finite_value v Hv))
               (sum_scaled_value k l Hl)).
    f_equal. apply Qred_complete. simpl. ring.
Qed.

Lemma roughness_line_scaled :
  forall c l, Forall (fun v => Num.is_finite v = true) l ->
              roughness_line (scaled (Fin c) l)
              = Fin (c * c) * roughness_line l.
Proof.
  intros c l H. unfold roughness_line, diff2.
  pose proof (diff_finite _ (diff_finite _ H)) as H2.
  rewrite diff_scaled by exact H.
  rewrite diff_scaled by (apply diff_finite; exact H).
  rewrite <- sum_scaled_eq
    by (apply Forall_map; eapply Forall_impl; [| exact H2];
        intros v Hv; apply square_finite; exact Hv).
  f_equal. unfold scaled. rewrite !map_map.
  apply map_ext_in. intros v Hv. apply square_scaled.
  rewrite Forall_forall in H2. apply H2. exact Hv.
Qed.

Lemma in_rows_finite :
  forall c rows row,
    all_finite (Arr2 c rows) -> In row rows ->
    Forall (fun v => Num.is_finite v = true) row.
Proof.
  intros c rows row Hfin Hin. unfold all_finite in Hfin. simpl in Hfin.
  rewrite Forall_forall in Hfin. apply Forall_forall.
  intros a Ha. apply Hfin. apply in_concat. eauto.
Qed.

Lemma in_columns_finite :
  forall c rows col,
    all_finite (Arr2 c rows) -> In col (transpose c rows) ->
    Forall (fun v => Num.is_finite v = true) col.
Proof.
  intros c rows col Hfin Hin. unfold all_finite in Hfin. simpl in Hfin.
  rewrite Forall_forall in Hfin. apply Forall_forall.
  intros a Ha. apply Hfin. eapply transpose_In; eassumption.
Qed.

(** X13: Without normalisation the roughness is quadratic in the amplitude: a
    factor [c] on the data multiplies every result by [c^2]. *)
Theorem roughness_quadratic :
  forall c x axis,
    all_finite x ->
    roughness (amap (Num.mul (Fin c)) x) None axis
    = (r <- roughness x None axis ;; Ok (vmap (Num.mul (Fin (c * c))) r)).
Proof.
  intros c x axis Hfin. unfold roughness. cbn [bind].
  destruct x as [v | n rows]; cbn [amap].
  - destruct axis as [| k]; [| reflexivity]. cbn [bind vmap].
    do 2 f_equal. apply (roughness_line_scaled c v Hfin).
  - destruct axis as [| [| k]]; [| | reflexivity]; cbn [bind vmap];
      do 2 f_equal.
    + rewrite transpose_map, !map_map. apply map_ext_in. intros col Hcol.
      apply (roughness_line_scaled c col).
      eapply in_columns_finite; eassumption.
    + rewrite !map_map. apply map_ext_in. intros row Hrow.
      apply (roughness_line_scaled c row).
      eapply in_rows_finite; eassumption.
Qed.


(** *** Normalisation by the maximum *)

Lemma max2_scaled :
  forall c a b,
    (0 < c)%Q -> Num.is_finite a = true -> Num.is_finite b = true ->
    Stats.max2 (Fin c * a) (Fin c * b) = Fin c * Stats.max2 a b.
Proof.
  intros c [a | | |] [b | | |] Hc Ha Hb; try discriminate.
  unfold Stats.max2. cbn [Num.mul Num.is_nan].
  assert (E : (Fin (Qred (c * a)) <=? Fin (Qred (c * b)))
              = (Fin a <=? Fin b)).
  { apply eq_true_iff_eq. rewrite !NumFacts.leb_Fin, !Qred_correct.
    split; intro H; nra. }
  rewrite E. destruct (Fin a <=? Fin b); reflexivity.
Qed.

Lemma max2_finite :
  forall a b, Num.is_finite a = true -> Num.is_finite b = true ->
              Num.is_finite (Stats.max2 a b) = true.
Proof.
  intros [a | | |] [b | | |] Ha Hb; try discriminate.
  unfold Stats.max2. cbn [Num.is_nan]. destruct (Fin a <=? Fin b); reflexivity.
Qed.

Lemma fold_max2_scaled :
  forall c l a,
    (0 < c)%Q -> Forall (fun v => Num.is_finite v = true) l ->
    Num.is_finite a = true ->
    fold_left Stats.max2 (scaled (Fin c) l) (Fin c * a)
    = Fin c * fold_left Stats.max2 l a
    /\ Num.is_finite (fold_left Stats.max2 l a) = true.
Proof.
  intros c l a Hc Hl. revert a.
  induction Hl as [| v l Hv Hl IH]; intros a Ha.
  - split; [reflexivity | exact Ha].
  - change (scaled (Fin c) (v :: l)) with (Fin c * v :: scaled (Fin c) l).
    cbn [fold_left]. rewrite max2_scaled by assumption.
    apply IH. apply max2_finite; assumption.
Qed.

Lemma amax_scaled :
  forall c x m,
    (0 < c)%Q -> all_finite x -> Stats.amax x = Ok m ->
    Stats.amax (amap (Num.mul (Fin c)) x) = Ok (Fin c * m)
    /\ Num.is_finite m = true.
Proof.
  intros c x m Hc Hfin Hm. unfold Stats.amax in *.
  rewrite ACIScaleFacts.flatten_amap. unfold all_finite in Hfin.
  destruct (flatten x) as [| a l]; [discriminate |].
  inversion Hfin as [| a' l' Ha Hl]; subst.
  destruct (fold_max2_scaled c l a Hc Hl Ha) as [E F].
  inversion Hm; subst. cbn [map].
  change (map (Num.mul (Fin c)) l) with (scaled (Fin c) l).
  rewrite E. split; [reflexivity | exact F].
Qed.

(** X14: Normalised by a non-zero maximum, the roughness does not depend on
    the unit of the data: a positive factor changes nothing. *)
Theorem roughness_global_scale_invariant :
  forall c x axis m,
    (0 < c)%Q -> all_finite x ->
    Stats.amax x = Ok m -> (m =? Num.zero) = false ->
    roughness (amap (Num.mul (Fin c)) x) (Some "global") axis
    = roughness x (Some "global") axis.
Proof.
  intros c x axis m Hc Hfin Hm Hnz. unfold roughness.
  change (String.eqb "global" "per_axis") with false.
  change (String.eqb "global" "global") with true. cbv iota.
  destruct (amax_scaled c x m Hc Hfin Hm) as [Em Fm].
  rewrite Em, Hm. cbn [bind].
  destruct m as [q | | |]; try discriminate.
  assert (Hq : ~ (q == 0)%Q).
  { intro E. apply NumFacts.eqb_Fin in E. unfold Num.zero in Hnz.
    congruence. }
  assert (Ez : zero_guard (Fin c * Fin q) = Fin c * Fin q).
  { unfold zero_guard.
    destruct (Fin c * Fin q =? Num.zero) eqn:E; [| reflexivity].
    apply (eqb_zero_value _ (c * q)) in E;
      [| apply has_value_mul; apply has_value_Fin].
    apply Qmult_integral in E. destruct E as [E | E]; [lra | contradiction]. }
  assert (Ez' : zero_guard (Fin q) = Fin q).
  { unfold zero_guard. rewrite Hnz. reflexivity. }
  rewrite Ez, Ez'.
  assert (Hentry : forall a, Num.is_finite a = true ->
                     Fin c * a / (Fin c * Fin q) = a / Fin q).
  { intros a Ha. apply (div_scale_pos c _ _ _ _ (value_of a) q Hc).
    - apply finite_value. exact Ha.
    - apply has_value_Fin.
    - apply has_value_mul; [apply has_value_Fin | apply finite_value, Ha].
    - apply has_value_mul; apply has_value_Fin. }
  assert (Hx : amap (fun a => a / (Fin c * Fin q)) (amap (Num.mul (Fin c)) x)
               = amap (fun a => a / Fin q) x).
  { destruct x as [v | n rows]; cbn [amap].
    - f_equal. rewrite map_map. apply map_ext_in. intros a Ha.
      apply Hentry. unfold all_finite in Hfin. simpl in Hfin.
      rewrite Forall_forall in Hfin. apply Hfin. exact Ha.
    - f_equal. rewrite map_map. apply map_ext_in. intros row Hrow.
      rewrite map_map. apply map_ext_in. intros a Ha.
      apply Hentry.
      pose proof (in_rows_finite n rows row Hfin Hrow) as Hr.
      rewrite Forall_forall in Hr. apply Hr. exact Ha. }
  rewrite Hx. reflexivity.
Qed.

End RoughnessFacts.

(* ================================================================== *)
(** ** Rao's quadratic entropy *)

Module RaoQFacts.
Import RaoQ UniformGridFacts ArithFacts.
Local Open Scope num_scope.

Lemma outer_length :
  forall op a, length (outer op a) = length a.
Proof. intros op a. unfold outer. apply length_map. Qed.

(** The pairwise distances do not see a common shift of the bins. *)
Lemma distances_shifted :
  forall t bins,
    Forall (fun v => Num.is_finite v = true) bins ->
    outer (fun bi bj => Num.abs (bi - bj)) (map (fun b => b + Fin t) bins)
    = outer (fun bi bj => Num.abs (bi - bj)) bins.
Proof.
  intros t bins H. unfold outer. rewrite map_map.
  apply map_ext_in. intros bi Hi. rewrite map_map.
  apply map_ext_in. intros bj Hj.
  rewrite Forall_forall in H.
  pose proof (finite_value bi (H bi Hi)) as Vi.
  pose proof (finite_value bj (H bj Hj)) as Vj.
  rewrite (abs_eq _ _
             (has_value_sub _ _ _ _
                (has_value_add _ _ _ _ Vi (has_value_Fin t))
                (has_value_add _ _ _ _ Vj (has_value_Fin t)))).
  rewrite (abs_eq _ _ (has_value_sub _ _ _ _ Vi Vj)).
  f_equal. apply Qred_complete.
  setoid_replace (value_of bi + t - (value_of bj + t))%Q
    with (value_of bi - value_of bj)%Q by ring.
  reflexivity.
Qed.

(** The normalised weights do not see a common positive factor. *)
Lemma weights_scaled :
  forall c p,
    (0 < c)%Q -> Forall (fun v => Num.is_finite v = true) p ->
    map (fun a => a / Np.sum (scaled (Fin c) p)) (scaled (Fin c) p)
    = map (fun a => a / Np.sum p) p.
Proof.
  intros c p Hc H. unfold scaled at 2. rewrite map_map.
  apply map_ext_in. intros a Ha.
  assert (Fa : Num.is_finite a = true)
    by (rewrite Forall_forall in H; apply H; exact Ha).
  apply (div_scale_pos c _ _ _ _ (value_of a) (Qsum (map value_of p)) Hc).
  - apply finite_value, Fa.
  - apply sum_value. exact H.
  - apply has_value_mul; [apply has_value_Fin | apply finite_value, Fa].
  - apply sum_scaled_value. exact H.
Qed.

(** X15: Rao's entropy depends on the weights up to a positive factor and on
    the bin positions up to a shift. *)
Theorem raoQ_invariant :
  forall c t p bins,
    (0 < c)%Q ->
    Forall (fun v => Num.is_finite v = true) p ->
    Forall (fun v => Num.is_finite v = true) bins ->
    raoQ (scaled (Fin c) p) (map (fun b => b + Fin t) bins) = raoQ p bins.
Proof.
  intros c t p bins Hc Hp Hb. unfold raoQ. cbv zeta.
  rewrite weights_scaled by assumption.
  rewrite distances_shifted by assumption.
  rewrite length_map. reflexivity.
Qed.

(** *** Shapes *)

(** X16: The call fails exactly when the two vectors neither have the same
    length nor allow numpy to stretch one of them (length 1); the
    exception is then numpy's [ValueError]. *)
Theorem raoQ_raises_iff :
  forall p bins,
    (raoQ p bins = Raise ValueError
     <-> (length p <> length bins /\ length p <> 1%nat
          /\ length bins <> 1%nat))
    /\ (forall e, raoQ p bins = Raise e -> e = ValueError).
Proof.
  intros p bins. unfold raoQ, broadcast_mul. cbv zeta.
  rewrite !outer_length, length_map.
  destruct (Nat.eqb_spec (length p) (length bins)) as [E | E].
  - cbn [bind]. split; [| discriminate].
    split; [discriminate | intros [H _]; contradiction].
  - destruct p as [| p0 [| p1 p]]; destruct bins as [| b0 [| b1 bins]];
      cbn [map outer length bind] in *; unfold outer; cbn [map bind];
      try (exfalso; apply E; reflexivity);
      (split;
       [split; [try discriminate; intros _; repeat split; try discriminate;
                 try (simpl; lia)
               | try reflexivity; intros [_ [H1 H2]];
                 try (exfalso; apply H1; reflexivity);
                 try (exfalso; apply H2; reflexivity)]
       | intros e H; inversion H; reflexivity]).
Qed.


(** *** All the weight on one bin *)

Lemma weights_one_hot :
  forall a i j,
    ~ (a == 0)%Q ->
    map (fun v => v / Np.sum (repeat (Fin 0) i ++ Fin a :: repeat (Fin 0) j))
      (repeat (Fin 0) i ++ Fin a :: repeat (Fin 0) j)
    = repeat (Fin 0) i ++ Fin 1 :: repeat (Fin 0) j.
Proof.
  intros a i j Ha.
  pose proof (GiniValueFacts.sum_one_hot_value a i j) as HS.
  rewrite map_app. cbn [map].
  rewrite !(ACIScaleFacts.zeros_div _ a) by assumption.
  do 2 f_equal.
  rewrite (div_eq _ _ _ _ (has_value_Fin a) HS Ha).
  apply GiniValueFacts.Qred_one. field. exact Ha.
Qed.

Lemma combine_app_same :
  forall A B (l1 l2 : list A) (m1 m2 : list B),
    length l1 = length m1 ->
    combine (l1 ++ l2) (m1 ++ m2) = combine l1 m1 ++ combine l2 m2.
Proof.
  intros A B l1. induction l1 as [| a l1 IH]; intros l2 [| b m1] m2 H;
    simpl in *; try discriminate; [reflexivity |].
  f_equal. apply IH. lia.
Qed.

Lemma combine_map_both :
  forall A B C D (f : A -> C) (g : B -> D) l m,
    combine (map f l) (map g m)
    = map (fun x => (f (fst x), g (snd x))) (combine l m).
Proof.
  intros A B C D f g l. induction l as [| a l IH]; intros [| b m]; simpl;
    try reflexivity.
  f_equal. apply IH.
Qed.

Lemma mul_lists_map :
  forall (f g : num -> num) l m,
    Stats.mul_lists (map f l) (map g m)
    = map (fun x => f (fst x) * g (snd x)) (combine l m).
Proof.
  intros f g l m. unfold Stats.mul_lists.
  rewrite combine_map_both, map_map. reflexivity.
Qed.

(** The table [pipj*d] over the pairs (weight, position). *)
Lemma product_table :
  forall P B,
    length P = length B ->
    broadcast_mul (outer Num.mul P)
      (outer (fun bi bj => Num.abs (bi - bj)) B)
    = Ok (map (fun x =>
                 map (fun y => fst x * fst y * Num.abs (snd x - snd y))
                   (combine P B))
            (combine P B)).
Proof.
  intros P B H. unfold broadcast_mul. rewrite !outer_length, H, Nat.eqb_refl.
  f_equal. unfold outer. rewrite combine_map_both, map_map.
  apply map_ext. intros [pi bi]. cbn [fst snd].
  apply mul_lists_map.
Qed.

Lemma sum_concat_zero :
  forall rows, Forall (Forall (fun v => v = Fin 0)) rows ->
               Np.sum (concat rows) = Fin 0.
Proof.
  intros rows H. apply SoundscapeFacts.sum_zeros.
  apply Forall_concat. eapply Forall_impl; [| exact H].
  intros row Hrow. eapply Forall_impl; [| exact Hrow].
  intros v ->. reflexivity.
Qed.

Lemma zero_weight_term :
  forall w x y,
    Num.is_finite w = true -> Num.is_finite x = true ->
    Num.is_finite y = true ->
    Fin 0 * w * Num.abs (x - y) = Fin 0
    /\ w * Fin 0 * Num.abs (x - y) = Fin 0.
Proof.
  intros [w | | |] [x | | |] [y | | |] Hw Hx Hy; try discriminate.
  pose proof (has_value_abs _ _
                (has_value_sub _ _ _ _ (has_value_Fin x) (has_value_Fin y)))
    as Hd.
  split.
  - rewrite (mul_eq _ _ _ _
               (has_value_mul _ _ _ _ (has_value_Fin 0) (has_value_Fin w)) Hd).
    apply GiniValueFacts.Qred_zero. ring.
  - rewrite (mul_eq _ _ _ _
               (has_value_mul _ _ _ _ (has_value_Fin w) (has_value_Fin 0)) Hd).
    apply GiniValueFacts.Qred_zero. ring.
Qed.

Lemma same_position_term :
  forall w b, Num.is_finite w = true -> Num.is_finite b = true ->
              w * w * Num.abs (b - b) = Fin 0.
Proof.
  intros [w | | |] [b | | |] Hw Hb; try discriminate.
  rewrite (mul_eq _ _ _ _
             (has_value_mul _ _ _ _ (has_value_Fin w) (has_value_Fin w))
             (has_value_abs _ _
                (has_value_sub _ _ _ _ (has_value_Fin b) (has_value_Fin b)))).
  apply GiniValueFacts.Qred_zero.
  setoid_replace (b - b)%Q with 0%Q by ring.
  change (Qabs 0) with 0%Q. ring.
Qed.

(** X17: No diversity without a second bin: when one bin carries all the
    weight, Rao's entropy is 0. *)
Theorem raoQ_point_mass :
  forall a i j bins,
    ~ (a == 0)%Q ->
    Forall (fun v => Num.is_finite v = true) bins ->
    length bins = (i + j + 1)%nat ->
    raoQ (repeat (Fin 0) i ++ Fin a :: repeat (Fin 0) j) bins = Ok (Fin 0).
Proof.
  intros a i j bins Ha Hb Hlen. unfold raoQ. cbv zeta.
  rewrite weights_one_hot by exact Ha.
  set (P := repeat (Fin 0) i ++ Fin 1 :: repeat (Fin 0) j).
  assert (HP : length P = length bins).
  { unfold P. rewrite length_app. simpl. rewrite !repeat_length. lia. }
  rewrite (product_table P bins HP). cbn [bind].
  (* the pairs (weight, position): at most one has a non-zero weight *)
  assert (HC : exists b0,
             Num.is_finite b0 = true /\
             Forall (fun x => Num.is_finite (snd x) = true /\
                              (fst x = Fin 0 \/ x = (Fin 1, b0)))
               (combine P bins)).
  { assert (H1 : length (firstn i bins) = i)
      by (apply firstn_length_le; lia).
    assert (H2 : length (skipn i bins) = S j)
      by (rewrite length_skipn; lia).
    pose proof (firstn_skipn i bins) as Hsplit.
    destruct (skipn i bins) as [| b0 B2]; [discriminate |].
    set (B1 := firstn i bins) in *. clearbody B1.
    clear HP. subst bins.
    apply Forall_app in Hb. destruct Hb as [Hb1 Hb2].
    inversion Hb2 as [| b0' B2' Hb0 HB2]; subst.
    exists b0. split; [exact Hb0 |]. unfold P.
    rewrite combine_app_same by (rewrite repeat_length; reflexivity).
    apply Forall_app. split; [| cbn [combine]; constructor].
    + apply Forall_forall. intros [w b] Hin.
      pose proof (in_combine_l _ _ _ _ Hin) as Hw.
      pose proof (in_combine_r _ _ _ _ Hin) as Hbb.
      apply repeat_spec in Hw. rewrite Forall_forall in Hb1.
      split; [apply Hb1; exact Hbb | left; exact Hw].
    + split; [exact Hb0 | right; reflexivity].
    + apply Forall_forall. intros [w b] Hin.
      pose proof (in_combine_l _ _ _ _ Hin) as Hw.
      pose proof (in_combine_r _ _ _ _ Hin) as Hbb.
      apply repeat_spec in Hw. rewrite Forall_forall in HB2.
      split; [apply HB2; exact Hbb | left; exact Hw]. }
  destruct HC as [b0 [Hb0 HC]].
  rewrite sum_concat_zero.
  - rewrite (div_eq _ _ _ _ (has_value_Fin 0) (has_value_of_nat _)).
    + apply f_equal. apply GiniValueFacts.Qred_zero. field.
      apply GiniValueFacts.of_nat_nonzero. rewrite Hlen. simpl. lia.
    + apply GiniValueFacts.of_nat_nonzero. rewrite Hlen. simpl. lia.
  - rewrite Forall_forall in HC.
    apply Forall_map. apply Forall_forall. intros x Hx.
    apply Forall_map. apply Forall_forall. intros y Hy.
    destruct (HC x Hx) as [Fx [Ex | Ex]];
      destruct (HC y Hy) as [Fy [Ey | Ey]].
    + rewrite Ex. apply zero_weight_term; try assumption.
      rewrite Ey. reflexivity.
    + rewrite Ex. apply zero_weight_term; try assumption.
      rewrite Ey. reflexivity.
    + rewrite Ey. apply zero_weight_term; try assumption.
      rewrite Ex. reflexivity.
    + subst x y. cbn [fst snd]. apply same_position_term;
        [reflexivity | exact Hb0].
Qed.

End RaoQFacts.

(* ================================================================== *)
(** ** Time-frequency derivation *)

Module TFSDFacts.
Import TFSD UniformGridFacts ArithFacts.
Local Open Scope num_scope.

Lemma diff_rows_cons2 :
  forall a b tl,
    diff_rows (a :: b :: tl)
    = map (fun p => fst p - snd p) (combine b a) :: diff_rows (b :: tl).
Proof. reflexivity. Qed.

Lemma diff_rows_length :
  forall rows, length (diff_rows rows) = pred (length rows).
Proof.
  intro rows. induction rows as [| a rows IH]; [reflexivity |].
  destruct rows as [| b rows]; [reflexivity |].
  rewrite diff_rows_cons2. cbn [length pred] in *. rewrite IH. reflexivity.
Qed.

Lemma removelast_length :
  forall A (l : list A), length (removelast l) = pred (length l).
Proof.
  intros A l. induction l as [| a l IH]; [reflexivity |].
  destruct l as [| b l]; [reflexivity |].
  change (removelast (a :: b :: l)) with (a :: removelast (b :: l)).
  cbn [length pred] in *. rewrite IH. reflexivity.
Qed.

Lemma gradient_rows :
  forall rows, length (GRADdf_xx rows) = pred (length rows).
Proof.
  intro rows. unfold GRADdf_xx. rewrite diff_rows_length, length_map.
  reflexivity.
Qed.

(** The band selection fits the gradient whenever there is one frequency
    per row. *)
Lemma band_selection :
  forall rows fn flim,
    length fn = length rows ->
    masked (Indices.index_bw (removelast fn) flim) (GRADdf_xx rows)
    = Ok (select (Indices.index_bw (removelast fn) flim) (GRADdf_xx rows)).
Proof.
  intros rows fn flim H. apply masked_same_length.
  unfold Indices.index_bw, index_bw_by.
  rewrite length_map, removelast_length, gradient_rows, H. reflexivity.
Qed.

Lemma select_Forall :
  forall A (P : A -> Prop) m l, Forall P l -> Forall P (select m l).
Proof.
  intros A P m. induction m as [| b m IH]; intros l H; [constructor |].
  destruct H as [| a l Ha Hl]; [constructor |]. simpl.
  destruct b; [constructor; [exact Ha |] |]; apply IH; exact Hl.
Qed.

(** *** A spectrogram that is a sum of a spectrum and an envelope *)

Lemma diff_offset :
  forall a bs,
    Np.diff (map (fun b => Fin a + Fin b) bs) = Np.diff (map Fin bs).
Proof.
  intros a bs. induction bs as [| b bs IH]; [reflexivity |].
  destruct bs as [| b' bs]; [reflexivity |].
  cbn [map] in *. rewrite !RoughnessFacts.diff_cons2, IH. f_equal.
  rewrite (sub_eq _ _ _ _
             (has_value_add _ _ _ _ (has_value_Fin a) (has_value_Fin b'))
             (has_value_add _ _ _ _ (has_value_Fin a) (has_value_Fin b))).
  rewrite (sub_eq _ _ _ _ (has_value_Fin b') (has_value_Fin b)).
  f_equal. apply Qred_complete. ring.
Qed.

Lemma sub_self_row :
  forall D, Forall (fun v => Num.is_finite v = true) D ->
            map (fun p => fst p - snd p) (combine D D)
            = map (fun _ => Fin 0) D.
Proof.
  intros D H. induction H as [| d D Hd HD IH]; [reflexivity |].
  cbn [combine map fst snd]. rewrite IH. f_equal.
  pose proof (finite_value d Hd) as V.
  rewrite (sub_eq _ _ _ _ V V). apply GiniValueFacts.Qred_zero. ring.
Qed.

Lemma diff_rows_same :
  forall A (l : list A) D,
    Forall (fun v => Num.is_finite v = true) D ->
    Forall (Forall (fun v => v = Fin 0)) (diff_rows (map (fun _ => D) l)).
Proof.
  intros A l D HD. induction l as [| a l IH]; [constructor |].
  destruct l as [| b l]; [constructor |].
  cbn [map] in *. rewrite diff_rows_cons2. constructor; [| exact IH].
  rewrite sub_self_row by exact HD. apply Forall_map.
  apply Forall_forall. reflexivity.
Qed.

Lemma abs_zero : Num.abs (Fin 0) = Fin 0.
Proof. reflexivity. Qed.

Lemma sum_abs_zero_row :
  forall row, Forall (fun v => v = Fin 0) row ->
              Np.sum (map Num.abs row) = Fin 0.
Proof.
  intros row H. apply SoundscapeFacts.sum_zeros. apply Forall_map.
  eapply Forall_impl; [| exact H]. intros v ->. reflexivity.
Qed.

Lemma sum_abs_zero :
  forall g, Forall (Forall (fun v => v = Fin 0)) g -> sum_abs g = Fin 0.
Proof.
  intros g H. unfold sum_abs. apply sum_abs_zero_row.
  apply Forall_concat. exact H.
Qed.

(** X19: Nothing to derive: when the spectrogram is the sum of a spectrum and
    of a time envelope ([Sxx[i][j] = a[i] + b[j]], a constant spectrogram
    for instance) its gradient vanishes, and the index and its values per
    bin are [nan] (zero over zero), not numbers between 0 and 1. *)
Theorem tfsd_separable_is_nan :
  forall (a b : list Q) fn flim,
    length fn = length a ->
    exists per_bin,
      tfsd (Arr2 (length b)
              (map (fun ai => map (fun bj => Fin ai + Fin bj) b) a))
        fn flim
      = Ok (NaN, per_bin)
      /\ Forall (fun v => v = NaN) per_bin.
Proof.
  intros a b fn flim Hlen. unfold tfsd.
  set (rows := map (fun ai => map (fun bj => Fin ai + Fin bj) b) a).
  assert (Hz : Forall (Forall (fun v => v = Fin 0)) (GRADdf_xx rows)).
  { unfold GRADdf_xx, rows. rewrite map_map.
    rewrite (map_ext _ (fun _ => Np.diff (map Fin b)))
      by (intro ai; apply diff_offset).
    apply diff_rows_same. apply RoughnessFacts.diff_finite.
    apply Forall_map. apply Forall_forall. reflexivity. }
  rewrite band_selection by (unfold rows; rewrite length_map; exact Hlen).
  cbn [bind].
  set (sel := select _ (GRADdf_xx rows)).
  assert (Hs : Forall (Forall (fun v => v = Fin 0)) sel)
    by (apply select_Forall; exact Hz).
  rewrite (sum_abs_zero _ Hz), (sum_abs_zero _ Hs).
  eexists. split; [reflexivity |].
  apply Forall_map. eapply Forall_impl; [| exact Hs].
  intros row Hrow. cbv beta. rewrite (sum_abs_zero_row _ Hrow). reflexivity.
Qed.

(** *** Range *)

Lemma Qabs_sum_nonneg : forall l, (0 <= Qabs_sum l)%Q.
Proof.
  intro l. unfold Qabs_sum. induction l as [| v l IH]; simpl; [lra |].
  pose proof (Qabs_nonneg (value_of v)). lra.
Qed.

Lemma sum_abs_row_value :
  forall row, Forall (fun v => Num.is_finite v = true) row ->
              has_value (Np.sum (map Num.abs row)) (Qabs_sum row).
Proof.
  intros row H. unfold Qabs_sum.
  induction H as [| v row Hv Hrow IH]; cbn [map]; rewrite ?sum_cons.
  - apply has_value_Fin.
  - apply has_value_add; [| exact IH].
    apply has_value_abs, finite_value, Hv.
Qed.

Lemma Qabs_sum_app :
  forall l1 l2, (Qabs_sum (l1 ++ l2) == Qabs_sum l1 + Qabs_sum l2)%Q.
Proof.
  intros l1 l2. unfold Qabs_sum. induction l1 as [| v l1 IH]; simpl.
  - ring.
  - rewrite IH. ring.
Qed.

Lemma Qabs_sum_concat :
  forall g, (Qabs_sum (concat g) == Qsum (map Qabs_sum g))%Q.
Proof.
  intro g. induction g as [| row g IH]; simpl; [reflexivity |].
  rewrite Qabs_sum_app, IH. reflexivity.
Qed.

Lemma sum_abs_value :
  forall g, Forall (Forall (fun v => Num.is_finite v = true)) g ->
            has_value (sum_abs g) (Qsum (map Qabs_sum g)).
Proof.
  intros g H. unfold sum_abs. eapply has_value_eq.
  - apply sum_abs_row_value. apply Forall_concat. exact H.
  - apply Qabs_sum_concat.
Qed.

(** The part of a total of non-negative terms that a mask selects. *)
Lemma selected_part :
  forall m g,
    (0 <= Qsum (map Qabs_sum (select m g)) <= Qsum (map Qabs_sum g))%Q.
Proof.
  intros m. induction m as [| b m IH]; intro g.
  - simpl. split; [lra |].
    induction g as [| row g IHg]; simpl; [lra |].
    pose proof (Qabs_sum_nonneg row). lra.
  - destruct g as [| row g]; [simpl; lra |].
    pose proof (Qabs_sum_nonneg row). specialize (IH g).
    destruct b; simpl; lra.
Qed.

Lemma diff_rows_finite :
  forall rows,
    Forall (Forall (fun v => Num.is_finite v = true)) rows ->
    Forall (Forall (fun v => Num.is_finite v = true)) (diff_rows rows).
Proof.
  intros rows H. induction H as [| a rows Ha Hrows IH]; [constructor |].
  destruct Hrows as [| b rows Hb Hrows]; [constructor |].
  rewrite diff_rows_cons2. constructor; [| exact IH].
  apply Forall_map. apply Forall_forall. intros [x y] Hin. cbn [fst snd].
  rewrite Forall_forall in Ha, Hb.
  apply RoughnessFacts.sub_finite;
    [apply Ha; eapply in_combine_r; eassumption
    | apply Hb; eapply in_combine_l; eassumption].
Qed.

Lemma gradient_finite :
  forall c rows,
    all_finite (Arr2 c rows) ->
    Forall (Forall (fun v => Num.is_finite v = true)) (GRADdf_xx rows).
Proof.
  intros c rows H. unfold GRADdf_xx. apply diff_rows_finite.
  apply Forall_map. apply Forall_forall. intros row Hrow.
  apply RoughnessFacts.diff_finite.
  eapply RoughnessFacts.in_rows_finite; eassumption.
Qed.

(** The values per bin add up to the index. *)
Lemma per_bin_sum_value :
  forall total t sel,
    has_value total t -> ~ (t == 0)%Q ->
    Forall (Forall (fun v => Num.is_finite v = true)) sel ->
    has_value
      (Np.sum (map (fun row => Np.sum (map Num.abs row) / total) sel))
      (Qsum (map Qabs_sum sel) / t).
Proof.
  intros total t sel Ht Hnz H.
  induction H as [| row sel Hrow Hsel IH]; cbn [map]; rewrite ?sum_cons.
  - exists 0%Q. split; [reflexivity |]. simpl. field. exact Hnz.
  - eapply has_value_eq.
    + apply has_value_add; [| exact IH].
      apply has_value_div; [apply sum_abs_row_value, Hrow | exact Ht
                           | exact Hnz].
    + simpl. field. exact Hnz.
Qed.

(** X18: Where the spectrogram has a gradient, the index is the share of the
    band in it: a number between 0 and 1, the sum of its values per bin,
    none of which is negative. *)
Theorem tfsd_is_a_share :
  forall c rows fn flim,
    all_finite (Arr2 c rows) -> length fn = length rows ->
    (sum_abs (GRADdf_xx rows) =? Num.zero) = false ->
    exists q per_bin,
      tfsd (Arr2 c rows) fn flim = Ok (Fin q, per_bin)
      /\ (0 <= q <= 1)%Q
      /\ has_value (Np.sum per_bin) q
      /\ Forall (fun v => exists r, v = Fin r /\ (0 <= r)%Q) per_bin.
Proof.
  intros c rows fn flim Hfin Hlen Hnz. unfold tfsd.
  rewrite band_selection by exact Hlen. cbn [bind].
  set (g := GRADdf_xx rows) in *.
  set (sel := select (Indices.index_bw (removelast fn) flim) g).
  pose proof (gradient_finite c rows Hfin) as Hg. fold g in Hg.
  assert (Hsel : Forall (Forall (fun v => Num.is_finite v = true)) sel)
    by (apply select_Forall; exact Hg).
  pose proof (sum_abs_value g Hg) as Vg.
  pose proof (sum_abs_value sel Hsel) as Vs.
  pose proof (selected_part (Indices.index_bw (removelast fn) flim) g)
    as Hpart.
  fold sel in Hpart.
  set (T := Qsum (map Qabs_sum g)) in *.
  set (S := Qsum (map Qabs_sum sel)) in *.
  assert (HT : ~ (T == 0)%Q).
  { intro E. apply (eqb_zero_value _ _ Vg) in E. congruence. }
  assert (HTpos : (0 < T)%Q).
  { destruct (Qlt_le_dec 0 T) as [H | H]; [exact H |].
    exfalso. apply HT. lra. }
  exists (Qred (S / T)). eexists.
  split; [rewrite (div_eq _ _ _ _ Vs Vg HT); reflexivity |].
  split.
  - rewrite Qred_correct. split.
    + apply Qle_shift_div_l; [exact HTpos | lra].
    + apply Qle_shift_div_r; [exact HTpos | lra].
  - split.
    + eapply has_value_eq.
      * apply (per_bin_sum_value _ T); assumption.
      * rewrite Qred_correct. reflexivity.
    + apply Forall_map. eapply Forall_impl; [| exact Hsel].
      intros row Hrow. cbv beta.
      rewrite (div_eq _ _ _ _ (sum_abs_row_value row Hrow) Vg HT).
      eexists. split; [reflexivity |]. rewrite Qred_correct.
      apply Qle_shift_div_l; [exact HTpos |].
      pose proof (Qabs_sum_nonneg row). lra.
Qed.

End TFSDFacts.

(* ================================================================== *)
(** ** Entropy in the unit interval and Shannon's entropy *)

Module EntropyBoundFacts.
Import Entropy EntropyFacts Shannon SpectralEntropy.
Local Open Scope string_scope.
Local Open Scope R_scope.

Lemma ln_le_sub1 : forall x, 0 < x -> ln x <= x - 1.
Proof.
  intros x Hx. pose proof (exp_ineq1_le (ln x)) as H.
  rewrite exp_ln in H by exact Hx. lra.
Qed.

(** Gibbs' inequality, one term: [p * ln(1/(N p)) <= 1/N - p]. *)
Lemma gibbs_term :
  forall N p, 0 < N -> 0 < p -> - (p * ln p) - p * ln N <= / N - p.
Proof.
  intros N p HN Hp.
  assert (Hnp : 0 < N * p) by nra.
  pose proof (ln_le_sub1 (/ (N * p)) (Rinv_0_lt_compat _ Hnp)) as H.
  rewrite ln_Rinv, ln_mult in H by assumption.
  assert (E : p * (/ (N * p) - 1) = / N - p) by (field; split; lra).
  rewrite <- E. nra.
Qed.

Lemma gibbs_sum :
  forall N ps,
    0 < N -> Forall (fun p => 0 < p) ps ->
    - Rsum (map (fun p => p * ln p) ps) - ln N * Rsum ps
    <= INR (length ps) * / N - Rsum ps.
Proof.
  intros N ps HN H. induction H as [| p ps Hp Hps IH].
  - simpl. lra.
  - change (length (p :: ps)) with (S (length ps)). rewrite S_INR.
    simpl map. simpl Rsum. pose proof (gibbs_term N p HN Hp). lra.
Qed.

Lemma Rsum_div :
  forall s l, Rsum (map (fun a => a / s) l) = Rsum l / s.
Proof.
  intros s l. induction l as [| a l IH]; simpl.
  - unfold Rdiv. lra.
  - rewrite IH. unfold Rdiv. lra.
Qed.

Lemma probabilities_pos :
  forall line, Forall (fun v => 0 < v) line -> line <> [] ->
               Forall (fun p => 0 < p /\ p <= 1) (probabilities line).
Proof.
  intros line H Hne. pose proof (Rsum_pos line H Hne) as Hs.
  unfold probabilities. apply Forall_map.
  assert (Hle : Forall (fun v => v <= Rsum line) line).
  { clear Hne Hs. induction H as [| a l Ha Hl IH]; [constructor |].
    simpl. assert (0 <= Rsum l).
    { apply Rsum_nonneg. eapply Forall_impl; [| exact Hl].
      simpl. intros; lra. }
    constructor; [lra |]. eapply Forall_impl; [| exact IH].
    simpl. intros; lra. }
  rewrite Forall_forall in H, Hle. apply Forall_forall. intros a Ha.
  specialize (H a Ha). specialize (Hle a Ha). split.
  - apply Rdiv_lt_0_compat; assumption.
  - apply (Rmult_le_reg_r (Rsum line)); [exact Hs |].
    unfold Rdiv. rewrite Rmult_assoc, Rinv_l by lra. lra.
Qed.

Lemma probabilities_sum :
  forall line, Forall (fun v => 0 < v) line -> line <> [] ->
               Rsum (probabilities line) = 1.
Proof.
  intros line H Hne. pose proof (Rsum_pos line H Hne) as Hs.
  unfold probabilities. rewrite Rsum_div. field. lra.
Qed.

(** No entry of the probability mass function of a positive line is
    replaced by [_MIN_]. *)
Lemma pmf_of_positive :
  forall line, Forall (fun v => 0 < v) line -> line <> [] ->
               pmf_of line = probabilities line.
Proof.
  intros line H Hne. pose proof (Rsum_pos line H Hne) as Hs.
  unfold pmf_of, probabilities. apply map_ext_in. intros a Ha.
  rewrite Forall_forall in H. specialize (H a Ha).
  unfold zero_guard. rewrite Reqb_false; [reflexivity |].
  assert (0 < a / Rsum line) by (apply Rdiv_lt_0_compat; assumption). lra.
Qed.

Lemma shannon_bounds :
  forall ps,
    Forall (fun p => 0 < p /\ p <= 1) ps -> Rsum ps = 1 -> ps <> [] ->
    0 <= shannon ps <= ln (INR (length ps)).
Proof.
  intros ps H Hsum Hne. unfold shannon. split.
  - assert (Rsum (map (fun q => q * ln q) ps) <= 0); [| lra].
    clear Hsum Hne. induction H as [| p ps [Hp Hp1] Hps IH]; simpl; [lra |].
    assert (ln p <= 0).
    { destruct (Req_dec p 1) as [-> | Hn]; [rewrite ln_1; lra |].
      left. rewrite <- ln_1. apply ln_increasing; lra. }
    nra.
  - assert (Hn : 0 < INR (length ps)).
    { destruct ps; [congruence |]. apply lt_0_INR. simpl. lia. }
    pose proof (gibbs_sum (INR (length ps)) ps Hn) as G.
    rewrite Hsum, Rinv_r in G by lra.
    assert (Hpos : Forall (fun p => 0 < p) ps).
    { eapply Forall_impl; [| exact H]. simpl. intros; tauto. }
    specialize (G Hpos). lra.
Qed.

Lemma ln_length_pos : forall n, (2 <= n)%nat -> 0 < ln (INR n).
Proof.
  intros n Hn. rewrite <- ln_1. apply ln_increasing; [lra |].
  change 1 with (INR 1). apply lt_INR. lia.
Qed.

(** The entropy of one positive line of at least two entries. *)
Lemma H_of_positive :
  forall line,
    Forall (fun v => 0 < v) line -> (2 <= length line)%nat ->
    H_of (length line) (pmf_of line)
    = shannon (probabilities line) / ln (INR (length line))
    /\ 0 <= H_of (length line) (pmf_of line) <= 1.
Proof.
  intros line H Hn.
  assert (Hne : line <> []) by (intro E; subst; simpl in Hn; lia).
  pose proof (ln_length_pos _ Hn) as Hl.
  rewrite pmf_of_positive by assumption.
  pose proof (shannon_bounds (probabilities line)
                (probabilities_pos line H Hne)
                (probabilities_sum line H Hne)) as B.
  assert (Hlen : length (probabilities line) = length line)
    by (unfold probabilities; apply length_map).
  rewrite Hlen in B.
  assert (Hp : probabilities line <> []).
  { intro E. rewrite E in Hlen. simpl in Hlen. lia. }
  specialize (B Hp).
  assert (E : H_of (length line) (probabilities line)
              = shannon (probabilities line) / ln (INR (length line)))
    by reflexivity.
  split; [exact E |]. rewrite E. split.
  - apply Rmult_le_pos; [lra |]. left. apply Rinv_0_lt_compat. exact Hl.
  - apply (Rmult_le_reg_r (ln (INR (length line)))); [exact Hl |].
    unfold Rdiv. rewrite Rmult_assoc, Rinv_l by lra. lra.
Qed.

(** What [entropy] computes on positive entries: the normalised entropy
    of every line along the axis. *)
Lemma entropy_positive_lines :
  forall x axis n,
    shape x axis = Some n -> (2 <= n)%nat ->
    flatten x <> [] -> Forall (fun v => 0 < v) (flatten x) ->
    exists H,
      entropy x axis = ([], Some H)
      /\ values H = map (fun line => H_of n (pmf_of line)) (lines x axis).
Proof.
  intros x axis n Hs Hn Hne Hpos. unfold entropy. rewrite Hs.
  destruct n as [| [| n]]; [lia | lia |].
  rewrite Reqb_false
    by (pose proof (Rsum_pos _ Hpos Hne); lra).
  rewrite Rminimum_nonneg
    by (eapply Forall_impl; [| exact Hpos]; simpl; intros; lra).
  destruct x as [v | c rows].
  - eexists. split; reflexivity.
  - destruct axis as [| [| k]]; simpl in Hs; try discriminate;
      (eexists; split; reflexivity).
Qed.

Lemma entropy_positive_vector :
  forall v,
    Forall (fun a => 0 < a) v -> (2 <= length v)%nat ->
    entropy (Arr1 v) 0
    = ([], Some (Scalar (H_of (length v) (pmf_of v)))).
Proof.
  intros v Hpos Hn.
  assert (Hne : v <> []) by (intro E; subst; simpl in Hn; lia).
  unfold entropy. cbn [shape flatten].
  destruct (length v) as [| [| n]]; [lia | lia |].
  rewrite Reqb_false
    by (pose proof (Rsum_pos _ Hpos Hne); lra).
  rewrite Rminimum_nonneg
    by (eapply Forall_impl; [| exact Hpos]; simpl; intros; lra).
  reflexivity.
Qed.

(** X20: Normalised by the length, the entropy is a number between 0 and 1:
    for an array of positive entries with at least two of them along the
    axis, every value returned lies in [0, 1]. *)
Theorem entropy_in_unit_interval :
  forall x axis n,
    wf_array x -> shape x axis = Some n -> (2 <= n)%nat ->
    flatten x <> [] -> Forall (fun v => 0 < v) (flatten x) ->
    exists H,
      entropy x axis = ([], Some H)
      /\ Forall (fun h => 0 <= h <= 1) (values H).
Proof.
  intros x axis n Hwf Hs Hn Hne Hpos.
  destruct (entropy_positive_lines x axis n Hs Hn Hne Hpos) as [H [E V]].
  exists H. split; [exact E |]. rewrite V. apply Forall_map.
  pose proof (lines_length _ x axis n Hwf Hs) as Hlen.
  rewrite Forall_forall in Hlen. apply Forall_forall. intros line Hline.
  specialize (Hlen line Hline). subst n.
  apply H_of_positive; [| exact Hn].
  apply Forall_forall. intros a Ha. rewrite Forall_forall in Hpos.
  apply Hpos. eapply lines_In; eassumption.
Qed.

(** *** Shannon entropy *)

(** X21: On a positive vector the normalisation by [log(n)] cancels: the
    result is Shannon's entropy [-sum(p*log(p))] of the probabilities
    [x/sum(x)], in nats, between 0 and [log(n)]. *)
Theorem shannonEntropy_formula :
  forall v,
    Forall (fun a => 0 < a) v -> (2 <= length v)%nat ->
    shannonEntropy (Arr1 v) 0
    = ([], Ok (Scalar (shannon (probabilities v))))
    /\ 0 <= shannon (probabilities v) <= ln (INR (length v)).
Proof.
  intros v Hpos Hn.
  assert (Hne : v <> []) by (intro E; subst; simpl in Hn; lia).
  pose proof (ln_length_pos _ Hn) as Hl.
  destruct (H_of_positive v Hpos Hn) as [E B].
  split.
  - unfold shannonEntropy. cbn [shape].
    rewrite (entropy_positive_vector v Hpos Hn). cbn [vmap].
    do 3 f_equal. rewrite E. field. lra.
  - rewrite E in B. destruct B as [B0 B1]. split.
    + apply (Rmult_le_compat_r (ln (INR (length v)))) in B0; [| lra].
      unfold Rdiv in B0. rewrite Rmult_assoc, Rinv_l in B0 by lra. lra.
    + apply (Rmult_le_compat_r (ln (INR (length v)))) in B1; [| lra].
      unfold Rdiv in B1. rewrite Rmult_assoc, Rinv_l in B1 by lra. lra.
Qed.

(** X22: The call returns exactly when the axis exists and is not empty: an
    axis the array does not have is an [IndexError]; on an empty axis
    [entropy] prints its warning and returns [None], and the product
    [None * log(n)] is a [TypeError]. *)
Theorem shannonEntropy_returns_iff :
  forall datain axis,
    match shape datain axis with
    | None => shannonEntropy datain axis = ([], Raise IndexError)
    | Some 0%nat =>
        shannonEntropy datain axis = (["WARNING: x is empty"], Raise TypeError)
    | Some (S _) => exists v, shannonEntropy datain axis = ([], Ok v)
    end.
Proof.
  intros datain axis. unfold shannonEntropy, entropy.
  destruct (shape datain axis) as [[| [| n]] |]; try reflexivity.
  - eexists. reflexivity.
  - destruct (Reqb (Rsum (flatten datain)) 0); eexists; reflexivity.
Qed.

End EntropyBoundFacts.

(* ================================================================== *)
(** ** Surface roughness *)

Module SurfaceFacts.
Import Entropy EntropyFacts Surface.
Local Open Scope string_scope.
Local Open Scope R_scope.

(** [sum((t - a_i)^2) >= 0], expanded. *)
Lemma sum_square_deviation :
  forall t l,
    0 <= INR (length l) * t ^ 2 - 2 * t * Rsum l
         + Rsum (map (fun a => a ^ 2) l).
Proof.
  intros t l. induction l as [| a l IH].
  - simpl. lra.
  - change (length (a :: l)) with (S (length l)). rewrite S_INR.
    cbn [map Rsum fold_right]. fold (Rsum l).
    fold (Rsum (map (fun a => a ^ 2) l)).
    pose proof (pow2_ge_0 (t - a)) as Hsq.
    set (n := INR (length l)) in *. set (S := Rsum l) in *.
    set (T := Rsum (map (fun a => a ^ 2) l)) in *.
    replace ((n + 1) * t ^ 2 - 2 * t * (a + S) + (a ^ 2 + T))
      with ((n * t ^ 2 - 2 * t * S + T) + (t - a) ^ 2) by ring.
    lra.
Qed.

(** Cauchy-Schwarz against the constant vector. *)
Lemma square_of_sum :
  forall l, Rsum l ^ 2 <= INR (length l) * Rsum (map (fun a => a ^ 2) l).
Proof.
  intro l. induction l as [| a l IH].
  - simpl. lra.
  - change (length (a :: l)) with (S (length l)). rewrite S_INR.
    cbn [map Rsum fold_right]. fold (Rsum l).
    fold (Rsum (map (fun a => a ^ 2) l)).
    pose proof (sum_square_deviation a l) as Hd.
    set (n := INR (length l)) in *. set (S := Rsum l) in *.
    set (T := Rsum (map (fun a => a ^ 2) l)) in *.
    replace ((a + S) ^ 2) with (a ^ 2 + 2 * a * S + S ^ 2) by ring.
    replace ((n + 1) * (a ^ 2 + T))
      with (n * T + (n * a ^ 2 - 2 * a * S + T) + (a ^ 2 + 2 * a * S))
      by ring.
    lra.
Qed.

Lemma Rsum_abs_nonneg : forall l, 0 <= Rsum (map Rabs l).
Proof.
  intro l. apply Rsum_nonneg. apply Forall_map. apply Forall_forall.
  intros x _. apply Rabs_pos.
Qed.

Lemma map_square_abs :
  forall l, map (fun a => a ^ 2) (map Rabs l) = map (fun a => a ^ 2) l.
Proof.
  intro l. rewrite map_map. apply map_ext. intro a. apply pow2_abs.
Qed.

(** The mean absolute value of a line is at most its root mean square. *)
Lemma mean_abs_le_rms :
  forall l, l <> [] ->
    0 <= Rmean (map Rabs l) <= sqrt (Rmean (map (fun a => a ^ 2) l)).
Proof.
  intros l Hne.
  assert (Hn : 0 < INR (length l)).
  { destruct l; [congruence |]. apply lt_0_INR. simpl. lia. }
  pose proof (Rsum_abs_nonneg l) as HA.
  pose proof (square_of_sum (map Rabs l)) as HC.
  rewrite map_square_abs, length_map in HC.
  unfold Rmean. rewrite !length_map.
  set (n := INR (length l)) in *. set (A := Rsum (map Rabs l)) in *.
  set (B := Rsum (map (fun a => a ^ 2) l)) in *.
  assert (H0 : 0 <= A / n).
  { apply Rmult_le_pos; [exact HA |]. left. apply Rinv_0_lt_compat, Hn. }
  split; [exact H0 |].
  rewrite <- (sqrt_pow2 (A / n)) by exact H0.
  apply sqrt_le_1_alt.
  assert (E : (A / n) ^ 2 = A ^ 2 * / n * / n) by (field; lra).
  assert (F : B / n = n * B * / n * / n) by (field; lra).
  rewrite E, F.
  apply Rmult_le_compat_r; [left; apply Rinv_0_lt_compat, Hn |].
  apply Rmult_le_compat_r; [left; apply Rinv_0_lt_compat, Hn |].
  exact HC.
Qed.

Lemma Rsum_Forall2_le :
  forall l1 l2, Forall2 (fun a q => 0 <= a <= q) l1 l2 ->
                0 <= Rsum l1 <= Rsum l2.
Proof.
  intros l1 l2 H. induction H as [| a q l1 l2 Haq Hl IH]; simpl; lra.
Qed.

Lemma Rmean_Forall2_le :
  forall l1 l2, Forall2 (fun a q => 0 <= a <= q) l1 l2 -> l1 <> [] ->
                0 <= Rmean l1 <= Rmean l2.
Proof.
  intros l1 l2 H Hne.
  pose proof (Rsum_Forall2_le _ _ H) as [S0 S1].
  pose proof (Forall2_length H) as Hlen.
  unfold Rmean. rewrite <- Hlen.
  assert (Hn : 0 < INR (length l1)).
  { destruct l1; [congruence |]. apply lt_0_INR. simpl. lia. }
  pose proof (Rinv_0_lt_compat _ Hn) as Hi. unfold Rdiv. split.
  - apply Rmult_le_pos; lra.
  - apply Rmult_le_compat_r; lra.
Qed.

Lemma Forall2_map_same :
  forall A B C (P : B -> C -> Prop) (f : A -> B) (g : A -> C) l,
    (forall a, In a l -> P (f a) (g a)) ->
    Forall2 P (map f l) (map g l).
Proof.
  intros A B C P f g l H. induction l as [| a l IH]; simpl; constructor.
  - apply H. left. reflexivity.
  - apply IH. intros b Hb. apply H. right. exact Hb.
Qed.

(** The two summaries of a list of deviation rows. *)
Lemma summaries_ordered :
  forall rows,
    rows <> [] -> Forall (fun r => r <> []) rows ->
    Forall2 (fun a q => 0 <= a <= q)
      (map (fun r => Rmean (map Rabs r)) rows)
      (map (fun r => sqrt (Rmean (map (fun a => a ^ 2) r))) rows)
    /\ 0 <= Rmean (map (fun r => Rmean (map Rabs r)) rows)
       <= Rmean (map (fun r => sqrt (Rmean (map (fun a => a ^ 2) r))) rows).
Proof.
  intros rows Hne Hrows.
  assert (H2 : Forall2 (fun a q => 0 <= a <= q)
                 (map (fun r => Rmean (map Rabs r)) rows)
                 (map (fun r => sqrt (Rmean (map (fun a => a ^ 2) r))) rows)).
  { apply Forall2_map_same. intros r Hr. apply mean_abs_le_rms.
    rewrite Forall_forall in Hrows. apply Hrows. exact Hr. }
  split; [exact H2 |].
  apply Rmean_Forall2_le; [exact H2 |].
  destruct rows; [congruence | discriminate].
Qed.

(** X23: The arithmetic roughness never exceeds the quadratic one: for each
    frequency bin and overall, [0 <= Ra <= Rq], under either
    normalisation. *)
Theorem surfaceRoughness_Ra_le_Rq :
  forall c rows norm,
    norm = "per_bin" \/ norm = "global" ->
    wf_array (Arr2 c rows) -> (1 <= c)%nat -> rows <> [] ->
    exists Ra_per_bin Rq_per_bin Ra Rq,
      surfaceRoughness (Arr2 c rows) norm
      = Ok (Ra_per_bin, Rq_per_bin, Ra, Rq)
      /\ Forall2 (fun a q => 0 <= a <= q) Ra_per_bin Rq_per_bin
      /\ 0 <= Ra <= Rq.
Proof.
  intros c rows norm Hnorm Hwf Hc Hne. simpl in Hwf.
  assert (Hys : forall f : list R -> list R,
             (forall r, length (f r) = length r) ->
             map f rows <> [] /\ Forall (fun r => r <> []) (map f rows)).
  { intros f Hf. split.
    - destruct rows; [congruence | discriminate].
    - apply Forall_map. eapply Forall_impl; [| exact Hwf].
      intros r Hr E. apply (f_equal (@length R)) in E.
      rewrite Hf, Hr in E. simpl in E. lia. }
  unfold surfaceRoughness.
  destruct Hnorm as [-> | ->].
  - change (String.eqb "per_bin" "per_bin") with true. cbv iota.
    cbn [bind].
    destruct (Hys (fun row => map (fun a => a - Rmean row) row)
                (fun r => length_map _ r)) as [H1 H2].
    destruct (summaries_ordered _ H1 H2) as [S1 S2].
    do 4 eexists. split; [reflexivity |]. split; assumption.
  - change (String.eqb "global" "per_bin") with false.
    change (String.eqb "global" "global") with true. cbv iota zeta.
    cbn [bind amap].
    destruct (Hys (map (fun a => a - Rmean (flatten (Arr2 c rows))))
                (fun r => length_map _ r)) as [H1 H2].
    destruct (summaries_ordered _ H1 H2) as [S1 S2].
    do 4 eexists. split; [reflexivity |]. split; assumption.
Qed.

(** *** Offsets *)

Lemma flatten_amap_R :
  forall (f : R -> R) x, flatten (amap f x) = map f (flatten x).
Proof.
  intros f [v | c rows]; simpl; [reflexivity |].
  rewrite concat_map. reflexivity.
Qed.

Lemma Rsum_shift :
  forall k l, Rsum (map (fun a => a + k) l) = Rsum l + INR (length l) * k.
Proof.
  intros k l. induction l as [| a l IH].
  - simpl. lra.
  - change (length (a :: l)) with (S (length l)). rewrite S_INR.
    simpl. rewrite IH. lra.
Qed.

Lemma Rmean_shift :
  forall k l, l <> [] -> Rmean (map (fun a => a + k) l) = Rmean l + k.
Proof.
  intros k l Hne. unfold Rmean. rewrite Rsum_shift, length_map.
  assert (Hn : 0 < INR (length l)).
  { destruct l; [congruence |]. apply lt_0_INR. simpl. lia. }
  field. lra.
Qed.

Lemma deviations_shift :
  forall k m l,
    map (fun a => a - (m + k)) (map (fun a => a + k) l)
    = map (fun a => a - m) l.
Proof.
  intros k m l. rewrite map_map. apply map_ext. intro a. lra.
Qed.

(** X24: The roughness measures deviations from the mean line: a constant
    added to the whole spectrogram changes none of the four results. *)
Theorem surfaceRoughness_offset_invariant :
  forall k c rows norm,
    wf_array (Arr2 c rows) -> (1 <= c)%nat -> rows <> [] ->
    surfaceRoughness (amap (fun a => a + k) (Arr2 c rows)) norm
    = surfaceRoughness (Arr2 c rows) norm.
Proof.
  intros k c rows norm Hwf Hc Hne. simpl in Hwf.
  unfold surfaceRoughness.
  destruct (String.eqb norm "per_bin").
  - cbv zeta. cbn [amap].
    assert (E : map (fun row => map (fun a => a - Rmean row) row)
                  (map (map (fun a => a + k)) rows)
                = map (fun row => map (fun a => a - Rmean row) row) rows).
    { rewrite map_map. apply map_ext_in. intros row Hrow.
      rewrite Rmean_shift.
      - apply deviations_shift.
      - rewrite Forall_forall in Hwf. specialize (Hwf row Hrow).
        intro F. subst row. simpl in Hwf. lia. }
    rewrite E. reflexivity.
  - destruct (String.eqb norm "global"); [| reflexivity].
    cbv zeta. rewrite flatten_amap_R.
    rewrite Rmean_shift.
    + cbn [amap].
      assert (E : map (map (fun a => a - (Rmean (flatten (Arr2 c rows)) + k)))
                    (map (map (fun a => a + k)) rows)
                  = map (map (fun a => a - Rmean (flatten (Arr2 c rows))))
                      rows).
      { rewrite map_map. apply map_ext. intro row.
        apply deviations_shift. }
      rewrite E. reflexivity.
    + simpl. destruct rows as [| r rows]; [congruence |].
      inversion Hwf as [| r' rows' Hr Hrows]; subst.
      destruct r; [simpl in Hc; lia | discriminate].
Qed.

End SurfaceFacts.

(* ================================================================== *)
(** ** Kurtosis and skewness *)

Module MomentFacts.
Import Entropy EntropyFacts SpectralEntropy.
Local Open Scope R_scope.

Lemma Rsum_affine :
  forall a b l,
    Rsum (map (fun v => a * v + b) l) = a * Rsum l + INR (length l) * b.
Proof.
  intros a b l. induction l as [| v l IH].
  - simpl. lra.
  - change (length (v :: l)) with (S (length l)). rewrite S_INR.
    simpl. rewrite IH. lra.
Qed.

Lemma Rmean_affine :
  forall a b l, l <> [] ->
                Rmean (map (fun v => a * v + b) l) = a * Rmean l + b.
Proof.
  intros a b l Hne. unfold Rmean. rewrite Rsum_affine, length_map.
  assert (Hn : 0 < INR (length l)).
  { destruct l; [congruence |]. apply lt_0_INR. simpl. lia. }
  field. lra.
Qed.

Lemma Rsum_factor :
  forall A c (f : A -> R) l,
    Rsum (map (fun v => c * f v) l) = c * Rsum (map f l).
Proof.
  intros A c f l. induction l as [| v l IH]; simpl.
  - lra.
  - rewrite IH. lra.
Qed.

(** The centred powers of an affine image. *)
Lemma central_power_affine :
  forall k a b l, l <> [] ->
    Rsum (map (fun z => z ^ k)
            (map (fun v => v - Rmean (map (fun v => a * v + b) l))
               (map (fun v => a * v + b) l)))
    = a ^ k * Rsum (map (fun z => z ^ k) (map (fun v => v - Rmean l) l)).
Proof.
  intros k a b l Hne. rewrite Rmean_affine by exact Hne.
  rewrite !map_map. rewrite <- Rsum_factor. f_equal.
  apply map_ext. intro v. rewrite <- Rpow_mult_distr. f_equal. ring.
Qed.

Lemma Rvar_nil : Rvar [] = 0.
Proof. unfold Rvar, Rmean. simpl. unfold Rdiv. ring. Qed.

Lemma Rvar_nonneg : forall l, 0 <= Rvar l.
Proof.
  intro l. unfold Rvar. cbv zeta. unfold Rmean at 1.
  apply Rmult_le_pos.
  - apply Rsum_nonneg. apply Forall_map. apply Forall_forall.
    intros v _. apply pow2_ge_0.
  - rewrite length_map. destruct l as [| v l].
    + simpl. rewrite Rinv_0. lra.
    + left. apply Rinv_0_lt_compat. apply lt_0_INR. simpl. lia.
Qed.

Lemma Rvar_affine :
  forall a b l, l <> [] ->
                Rvar (map (fun v => a * v + b) l) = a ^ 2 * Rvar l.
Proof.
  intros a b l Hne. unfold Rvar. cbv zeta. unfold Rmean at 1 3.
  rewrite <- (map_map (fun v => v - Rmean (map (fun v => a * v + b) l))
                (fun z => z ^ 2)).
  rewrite central_power_affine by exact Hne.
  rewrite !length_map, map_map. unfold Rdiv. ring.
Qed.

Lemma Rstd_affine :
  forall a b l, l <> [] ->
                Rstd (map (fun v => a * v + b) l) = Rabs a * Rstd l.
Proof.
  intros a b l Hne. unfold Rstd. rewrite Rvar_affine by exact Hne.
  rewrite sqrt_mult; [| apply pow2_ge_0 | apply Rvar_nonneg].
  f_equal. replace (a ^ 2) with (Rsqr a) by (unfold Rsqr; ring).
  apply sqrt_Rsqr_abs.
Qed.

(** X25: Kurtosis and skewness describe the shape of a distribution, not its
    position or unit: on a signal that is not constant, an affine change
    [a*x + b] of the data leaves the kurtosis unchanged and leaves the
    skewness unchanged up to the sign of [a]. *)
Theorem moments_affine :
  forall a b x,
    a <> 0 -> Rvar x <> 0 ->
    kurtosis (map (fun v => a * v + b) x) = kurtosis x
    /\ (0 < a -> skewness (map (fun v => a * v + b) x) = skewness x)
    /\ (a < 0 -> skewness (map (fun v => a * v + b) x) = - skewness x).
Proof.
  intros a b x Ha Hvar.
  assert (Hne : x <> []) by (intro E; subst; apply Hvar, Rvar_nil).
  assert (Hs : 0 < Rstd x).
  { unfold Rstd. apply sqrt_lt_R0. pose proof (Rvar_nonneg x). lra. }
  unfold kurtosis, skewness. cbv zeta.
  rewrite !central_power_affine by exact Hne.
  rewrite Rstd_affine by exact Hne. rewrite length_map.
  unfold Rdiv. generalize (/ (INR (length x) - 1)) as w. intro w.
  set (S4 := Rsum (map (fun z => z ^ 4) (map (fun v => v - Rmean x) x))).
  set (S3 := Rsum (map (fun z => z ^ 3) (map (fun v => v - Rmean x) x))).
  split; [| split].
  - replace ((Rabs a * Rstd x) ^ 4) with (a ^ 4 * Rstd x ^ 4).
    + field. split; [lra | exact Ha].
    + rewrite Rpow_mult_distr. f_equal.
      replace (Rabs a ^ 4) with ((Rabs a ^ 2) ^ 2) by ring.
      rewrite pow2_abs. ring.
  - intro Hpos. rewrite Rabs_right by lra. field. split; lra.
  - intro Hneg. rewrite Rabs_left by lra. field. split; lra.
Qed.

End MomentFacts.

(* ================================================================== *)
(** ** The bioacoustics index *)

Module BioacousticsFacts.
Import Entropy EntropyFacts SpectralEntropyFacts Bioacoustics.
Local Open Scope R_scope.

Lemma fold_Rmax_scale :
  forall k l a,
    0 <= k ->
    fold_left Rmax (map (fun v => k * v) l) (k * a)
    = k * fold_left Rmax l a.
Proof.
  intros k l. induction l as [| b l IH]; intros a Hk; simpl.
  - reflexivity.
  - rewrite RmaxRmult by exact Hk. apply IH. exact Hk.
Qed.

Lemma Rmaximum_scale :
  forall k l, 0 <= k -> Rmaximum (map (fun v => k * v) l) = k * Rmaximum l.
Proof.
  intros k [| a l] Hk; simpl.
  - lra.
  - apply fold_Rmax_scale. exact Hk.
Qed.

Lemma squares_scaled :
  forall c l,
    map (fun a => a ^ 2) (map (fun v => c * v) l)
    = map (fun v => c ^ 2 * v) (map (fun a => a ^ 2) l).
Proof.
  intros c l. rewrite !map_map. apply map_ext. intro a. ring.
Qed.

Lemma pow_nonzero_lt : forall a, a <> 0 -> 0 < a ^ 2.
Proof.
  intros a Ha. replace (a ^ 2) with (Rsqr a) by (unfold Rsqr; ring).
  apply Rsqr_pos_lt. exact Ha.
Qed.

Lemma max_square_pos :
  forall l, Exists (fun a => a <> 0) l ->
            0 < Rmaximum (map (fun a => a ^ 2) l).
Proof.
  intros l H. apply Exists_exists in H. destruct H as [a [Hin Ha]].
  pose proof (Rmaximum_ge (map (fun a => a ^ 2) l)) as Hm.
  rewrite Forall_forall in Hm.
  specialize (Hm (a ^ 2) (in_map (fun a => a ^ 2) l a Hin)).
  assert (0 < a ^ 2) by (apply pow_nonzero_lt; exact Ha). lra.
Qed.

(** X26: Without the compatibility with R the band is not used: the index is
    the same for every [flim]; and, normalised by its maximum, it is the
    same for every gain on the spectrogram. *)
Theorem bioacousticsIndex_band_and_gain :
  forall c Sxx fn flim flim',
    c <> 0 -> Exists (fun a => a <> 0) (flatten Sxx) ->
    bioacousticsIndex (scale c Sxx) fn flim' false
    = bioacousticsIndex Sxx fn flim false.
Proof.
  intros c Sxx fn flim flim' Hc Hnz. unfold bioacousticsIndex. cbv zeta.
  destruct (getitem fn 1) as [fn1 | e]; [| reflexivity].
  destruct (getitem fn 0) as [fn0 | e]; [| reflexivity]. cbn [bind].
  pose proof (max_square_pos _ Hnz) as Hm.
  assert (Hmax : Rmaximum (map (fun a => a ^ 2) (flatten (scale c Sxx)))
                 = c ^ 2 * Rmaximum (map (fun a => a ^ 2) (flatten Sxx))).
  { rewrite flatten_scale, squares_scaled.
    apply Rmaximum_scale. apply pow2_ge_0. }
  remember (Rmaximum (map (fun a => a ^ 2) (flatten (scale c Sxx)))) as m'.
  remember (Rmaximum (map (fun a => a ^ 2) (flatten Sxx))) as m.
  assert (Hne : flatten Sxx <> []).
  { intro E. rewrite E in Hnz. inversion Hnz. }
  assert (Hne' : flatten (scale c Sxx) <> []).
  { rewrite flatten_scale. intro E. apply map_eq_nil in E. contradiction. }
  destruct (flatten Sxx) as [| a0 fl]; [congruence |].
  destruct (flatten (scale c Sxx)) as [| a0' fl']; [congruence |].
  destruct Sxx as [v | n rows]; [reflexivity |].
  unfold scale. cbn [amap]. do 3 f_equal.
  rewrite map_map. f_equal. apply map_ext. intro row.
  f_equal. rewrite map_map. apply map_ext. intro a.
  rewrite Hmax. field. split; lra.
Qed.

Lemma select_nonempty :
  forall A (m : list bool) (l : list A),
    length m = length l -> Exists (fun b => b = true) m ->
    select m l <> [].
Proof.
  intros A m. induction m as [| b m IH]; intros l Hlen Hex.
  - inversion Hex.
  - destruct l as [| a l]; [discriminate |]. simpl.
    destruct b; [discriminate |].
    apply IH; [simpl in Hlen; lia |].
    inversion Hex as [b' m' Hb | b' m' Hm]; subst; [discriminate | exact Hm].
Qed.

Lemma deviations_from_minimum :
  forall l, 0 <= Rsum (map (fun v => v - Rminimum l) l).
Proof.
  intro l. apply Rsum_nonneg. apply Forall_map.
  pose proof (Rminimum_le l) as H.
  eapply Forall_impl; [| exact H]. simpl. intros; lra.
Qed.

Lemma Rsum_pos_exists :
  forall l, Forall (fun v => 0 <= v) l -> Exists (fun v => 0 < v) l ->
            0 < Rsum l.
Proof.
  intros l H. induction H as [| a l Ha Hl IH]; intro E.
  - inversion E.
  - simpl. pose proof (Rsum_nonneg l Hl) as Hs.
    inversion E as [a' l' Hpos | a' l' Hex]; subst.
    + lra.
    + specialize (IH Hex). lra.
Qed.

Lemma Rsum_le_length :
  forall l, Forall (fun v => v <= 1) l -> Rsum l <= INR (length l).
Proof.
  intros l H. induction H as [| a l Ha Hl IH].
  - simpl. lra.
  - change (length (a :: l)) with (S (length l)). rewrite S_INR.
    simpl. lra.
Qed.

(** The mean of a row of amplitudes over the maximum of the spectrogram
    is in (0, 1] when no amplitude is negative and one of the row is
    positive. *)
Lemma normalised_mean_bounds :
  forall m row,
    0 < m -> row <> [] ->
    Forall (fun a => 0 <= a <= m) row -> Exists (fun a => 0 < a) row ->
    0 < Rmean (map (fun a => a / m) row) <= 1.
Proof.
  intros m row Hm Hne Hall Hex. unfold Rmean. rewrite length_map.
  assert (Hn : 0 < INR (length row)).
  { apply lt_0_INR. destruct row; [congruence | simpl; lia]. }
  assert (H0 : 0 < Rsum (map (fun a => a / m) row)).
  { apply Rsum_pos_exists.
    - apply Forall_map. eapply Forall_impl; [| exact Hall].
      simpl. intros a [Ha _]. apply Rmult_le_pos; [exact Ha |].
      left. apply Rinv_0_lt_compat. exact Hm.
    - apply Exists_exists. apply Exists_exists in Hex.
      destruct Hex as [a [Hin Ha]]. exists (a / m).
      split; [apply (in_map (fun a => a / m)); exact Hin |].
      apply Rdiv_lt_0_compat; assumption. }
  assert (H1 : Rsum (map (fun a => a / m) row) <= INR (length row)).
  { rewrite <- (length_map (fun a => a / m) row).
    apply Rsum_le_length. apply Forall_map.
    eapply Forall_impl; [| exact Hall]. simpl. intros a [_ Ha].
    apply (Rmult_le_reg_r m); [exact Hm |].
    unfold Rdiv. rewrite Rmult_assoc, Rinv_l by lra. lra. }
  split.
  - apply Rdiv_lt_0_compat; assumption.
  - apply (Rmult_le_reg_r (INR (length row))); [exact Hn |].
    unfold Rdiv. rewrite Rmult_assoc, Rinv_l by lra. lra.
Qed.

(** X27: Compatible with R, on a spectrogram with one row per frequency,
    no negative amplitude and a positive amplitude in every row,
    increasing first frequencies and a band that holds a frequency: the
    maximum is positive and the normalised mean of every row is in (0, 1],
    so that its level is a real number; the levels of the band are
    counted from the lowest one, and the index is returned and is not
    negative. *)
Theorem bioacousticsIndex_nonneg :
  forall c rows f0 f1 fn flim,
    f0 < f1 -> wf_array (Arr2 c rows) -> (1 <= c)%nat ->
    length rows = S (S (length fn)) ->
    Forall (fun row => Forall (fun a => 0 <= a) row /\
                       Exists (fun a => 0 < a) row) rows ->
    Exists (fun f => fst flim <= f <= snd flim) (f0 :: f1 :: fn) ->
    0 < Rmaximum (concat rows) /\
    Forall (fun row =>
              0 < Rmean (map (fun a => a / Rmaximum (concat rows)) row) <= 1)
      rows /\
    exists BI,
      bioacousticsIndex (Arr2 c rows) (f0 :: f1 :: fn) flim true = Ok BI
      /\ 0 <= BI.
Proof.
  intros c rows f0 f1 fn flim Hf Hwf Hc Hlen Hamp Hband.
  assert (Hmax : 0 < Rmaximum (concat rows)).
  { destruct rows as [| r rows]; [discriminate |].
    inversion Hamp as [| r' rows' [_ Hex] _]; subst.
    apply Exists_exists in Hex. destruct Hex as [a [Hin Ha]].
    pose proof (Rmaximum_ge (concat (r :: rows))) as Hm.
    rewrite Forall_forall in Hm.
    assert (a <= Rmaximum (concat (r :: rows))).
    { apply Hm. simpl. apply in_or_app. now left. }
    lra. }
  split; [exact Hmax |]. split.
  { apply Forall_forall. intros row Hrow.
    rewrite Forall_forall in Hamp. destruct (Hamp row Hrow) as [Hnn Hex].
    apply normalised_mean_bounds; [exact Hmax | | | exact Hex].
    - intro E. subst row. inversion Hex.
    - apply Forall_forall. intros a Ha.
      rewrite Forall_forall in Hnn. split; [apply Hnn; exact Ha |].
      pose proof (Rmaximum_ge (concat rows)) as Hm.
      rewrite Forall_forall in Hm. apply Hm.
      apply in_concat. eauto. }
  unfold bioacousticsIndex. cbv zeta. cbn [getitem nth_error bind].
  assert (Hfl : flatten (Arr2 c rows) <> []).
  { simpl. destruct rows as [| r rows]; [discriminate |].
    simpl in Hwf. inversion Hwf as [| r' rows' Hr Hrows]; subst.
    destruct r; [simpl in Hc; lia | discriminate]. }
  destruct (flatten (Arr2 c rows)) as [| a0 fl] eqn:Efl; [congruence |].
  set (dB := map linear2dB_amplitude _).
  set (mask := index_bw_by Rleb (f0 :: f1 :: fn) flim).
  assert (Hm : length mask = length dB).
  { unfold mask, dB, index_bw_by. rewrite !length_map, Hlen. reflexivity. }
  rewrite (masked_same_length _ mask dB Hm). cbn [bind].
  assert (Hsel : select mask dB <> []).
  { apply select_nonempty; [exact Hm |].
    unfold mask, index_bw_by. apply Exists_exists.
    apply Exists_exists in Hband. destruct Hband as [f [Hin [H0 H1]]].
    exists true. split; [| reflexivity].
    apply in_map_iff. exists f. split; [| exact Hin].
    rewrite !Rleb_true by assumption. reflexivity. }
  destruct (select mask dB) as [| s0 sel] eqn:Es; [congruence |].
  eexists. split; [reflexivity |].
  apply Rmult_le_pos; [apply deviations_from_minimum |].
  left. apply Rinv_0_lt_compat. lra.
Qed.

End BioacousticsFacts.

(* ================================================================== *)
(** ** Acoustic richness *)

Module RichnessFacts.
Import Richness SpectralEntropy.
Local Open Scope string_scope.
Local Open Scope Q_scope.

Lemma rankdata_length : forall a, length (rankdata a) = length a.
Proof. intro a. unfold rankdata. apply length_map. Qed.

(** Two filters that exclude each other share the list. *)
Lemma filter_disjoint_length :
  forall A (f g : A -> bool) l,
    (forall a, f a = true -> g a = false) ->
    (length (filter f l) + length (filter g l) <= length l)%nat.
Proof.
  intros A f g l H. induction l as [| a l IH]; simpl; [lia |].
  destruct (f a) eqn:E.
  - rewrite (H a E). simpl. lia.
  - destruct (g a); simpl; lia.
Qed.

Lemma filter_In_length :
  forall A (f : A -> bool) l a,
    In a l -> f a = true -> (1 <= length (filter f l))%nat.
Proof.
  intros A f l a Hin Hf. induction l as [| b l IH]; [contradiction |].
  simpl. destruct Hin as [-> | Hin].
  - rewrite Hf. simpl. lia.
  - destruct (f b); simpl; [lia | apply IH; exact Hin].
Qed.

(** A rank lies between 1 and the number of values. *)
Lemma rank_bounds :
  forall a, Forall (fun r => 1 <= r <= inject_Z (Z.of_nat (length a)))
              (rankdata a).
Proof.
  intro a. unfold rankdata. apply Forall_map. apply Forall_forall.
  intros x Hx.
  set (less := length (filter (fun y => negb (Qle_bool x y)) a)).
  set (same := length (filter (fun y => Qeq_bool y x) a)).
  assert (H1 : (1 <= same)%nat).
  { apply (filter_In_length _ _ a x Hx). apply Qeq_bool_iff. reflexivity. }
  assert (H2 : (less + same <= length a)%nat).
  { apply filter_disjoint_length. intros y Hy.
    apply negb_true_iff in Hy.
    destruct (Qeq_bool y x) eqn:E; [| reflexivity].
    apply Qeq_bool_iff in E.
    assert (F : Qle_bool x y = true) by (apply Qle_bool_iff; lra).
    congruence. }
  assert (Q1 : 1 <= inject_Z (Z.of_nat same))
    by (change 1 with (inject_Z 1); rewrite <- Zle_Qle; lia).
  assert (Q0 : 0 <= inject_Z (Z.of_nat less))
    by (change 0 with (inject_Z 0); rewrite <- Zle_Qle; lia).
  assert (Q2 : inject_Z (Z.of_nat less) + inject_Z (Z.of_nat same)
               <= inject_Z (Z.of_nat (length a))).
  { rewrite <- inject_Z_plus, <- Zle_Qle. lia. }
  split.
  - assert (1 <= (inject_Z (Z.of_nat same) + 1) / 2)
      by (apply Qle_shift_div_l; lra).
    lra.
  - assert ((inject_Z (Z.of_nat same) + 1) / 2 <= inject_Z (Z.of_nat same))
      by (apply Qle_shift_div_r; lra).
    lra.
Qed.

Lemma square_of_length :
  forall n, inject_Z (Z.of_nat (n ^ 2))
            == inject_Z (Z.of_nat n) * inject_Z (Z.of_nat n).
Proof.
  intro n. rewrite <- inject_Z_mult. replace (n ^ 2)%nat with (n * n)%nat
    by (simpl; lia).
  rewrite Nat2Z.inj_mul. reflexivity.
Qed.

(** X28: The richness of a file is the product of its two ranks over the
    square of the number of files: for two vectors of the same length
    [n >= 1] no warning is printed and every value lies between [1/n^2]
    and 1. *)
Theorem acousticRichnessIndex_bounds :
  forall Ht M,
    length Ht = length M -> Ht <> [] ->
    exists AR,
      acousticRichnessIndex Ht M = ([], Ok AR)
      /\ length AR = length Ht
      /\ Forall (fun v => 1 / inject_Z (Z.of_nat (length Ht ^ 2)) <= v <= 1)
           AR.
Proof.
  intros Ht M Hlen Hne. unfold acousticRichnessIndex, broadcast_mul.
  rewrite !rankdata_length, Hlen, Nat.eqb_refl. cbn [bind].
  eexists. split; [reflexivity |]. split.
  - rewrite length_map, length_map, length_combine, !rankdata_length, Hlen.
    apply Nat.min_id.
  - assert (Hn : 1 <= inject_Z (Z.of_nat (length M))).
    { change 1 with (inject_Z 1). rewrite <- Zle_Qle.
      rewrite <- Hlen. destruct Ht; [congruence | simpl; lia]. }
    apply Forall_map. apply Forall_map. apply Forall_forall.
    intros [r s] Hin. cbn [fst snd].
    pose proof (in_combine_l _ _ _ _ Hin) as Hr.
    pose proof (in_combine_r _ _ _ _ Hin) as Hs.
    pose proof (rank_bounds Ht) as BH. pose proof (rank_bounds M) as BM.
    rewrite Forall_forall in BH, BM.
    destruct (BH r Hr) as [R1 R2]. destruct (BM s Hs) as [S1 S2].
    rewrite Hlen in R2. rewrite square_of_length.
    set (n := inject_Z (Z.of_nat (length M))) in *.
    assert (Hnn : 0 < n * n) by nra.
    split.
    + apply Qle_shift_div_l; [exact Hnn |].
      setoid_replace (1 / (n * n) * (n * n)) with 1 by (field; lra).
      nra.
    + apply Qle_shift_div_r; [exact Hnn |]. nra.
Qed.


(** *** Shapes *)

(** X29: The warning about the lengths does not stop the call: it is printed
    exactly when the lengths differ, and numpy then raises [ValueError]
    unless one of the two vectors has a single value, which it
    stretches. *)
Theorem acousticRichnessIndex_shapes :
  forall Ht M,
    (fst (acousticRichnessIndex Ht M) = [] <-> length Ht = length M)
    /\ (fst (acousticRichnessIndex Ht M) = [length_warning]
        <-> length Ht <> length M)
    /\ (snd (acousticRichnessIndex Ht M) = Raise ValueError
        <-> (length Ht <> length M /\ length Ht <> 1%nat
             /\ length M <> 1%nat))
    /\ (forall e, snd (acousticRichnessIndex Ht M) = Raise e
                  -> e = ValueError).
Proof.
  intros Ht M. unfold acousticRichnessIndex, broadcast_mul. cbn [fst snd].
  rewrite !rankdata_length.
  destruct (Nat.eqb_spec (length Ht) (length M)) as [E | E].
  - cbn [bind]. repeat split; try tauto; try discriminate.
  - split; [split; [discriminate | contradiction] |].
    split; [tauto |].
    destruct Ht as [| h0 [| h1 Ht]]; destruct M as [| m0 [| m1 M]];
      cbn [rankdata map length bind] in *; unfold rankdata;
      cbn [map bind];
      try (exfalso; apply E; reflexivity);
      (split;
       [split; [try discriminate; intros _; repeat split; try discriminate;
                 try (simpl; lia)
               | try reflexivity; intros [_ [H1 H2]];
                 try (exfalso; apply H1; reflexivity);
                 try (exfalso; apply H2; reflexivity)]
       | intros e H; inversion H; reflexivity]).
Qed.

(** *** Order *)

Lemma filter_map_length :
  forall A B (f : A -> B) (p : B -> bool) l,
    length (filter p (map f l)) = length (filter (fun a => p (f a)) l).
Proof.
  intros A B f p l. induction l as [| a l IH]; simpl; [reflexivity |].
  destruct (p (f a)); simpl; rewrite IH; reflexivity.
Qed.

Lemma filter_ext_length :
  forall A (p q : A -> bool) l,
    (forall a, p a = q a) -> length (filter p l) = length (filter q l).
Proof.
  intros A p q l H. rewrite (filter_ext _ _ H). reflexivity.
Qed.

(** Ranks only see the order: an increasing affine change of the values
    changes no rank. *)
Lemma rankdata_increasing :
  forall a b l, 0 < a -> rankdata (map (fun v => a * v + b) l) = rankdata l.
Proof.
  intros a b l Ha. unfold rankdata. rewrite map_map.
  apply map_ext. intro x. rewrite !filter_map_length.
  rewrite (filter_ext_length _
             (fun y => negb (Qle_bool (a * x + b) (a * y + b)))
             (fun y => negb (Qle_bool x y))).
  - rewrite (filter_ext_length _
               (fun y => Qeq_bool (a * y + b) (a * x + b))
               (fun y => Qeq_bool y x)); [reflexivity |].
    intro y. apply eq_true_iff_eq. rewrite !Qeq_bool_iff.
    split; intro H; [| rewrite H; reflexivity].
    assert (E : a * (y - x) == 0) by lra.
    apply Qmult_integral in E. destruct E as [E | E]; lra.
  - intro y. f_equal. apply eq_true_iff_eq. rewrite !Qle_bool_iff.
    split; intro H; nra.
Qed.

(** X30: The richness depends on the entropies and on the amplitudes through
    their order alone: increasing affine changes of either vector (other
    units, an offset) change nothing. *)
Theorem acousticRichnessIndex_order_only :
  forall a b a' b' Ht M,
    0 < a -> 0 < a' ->
    acousticRichnessIndex (map (fun v => a * v + b) Ht)
      (map (fun v => a' * v + b') M)
    = acousticRichnessIndex Ht M.
Proof.
  intros a b a' b' Ht M Ha Ha'. unfold acousticRichnessIndex.
  rewrite !rankdata_increasing by assumption.
  rewrite !length_map. reflexivity.
Qed.

End RichnessFacts.

(* ================================================================== *)
(** ** The theorems at concrete inputs *)

Module Witnesses.

Local Open Scope string_scope.
Local Open Scope num_scope.

(** [intoBins] on a 3x2 matrix over the positions 0, 1, 2 with the native
    step 1. *)
Lemma intoBins_InvalidArgument_iff_witness :
  exists xbin bins,
    Binning.intoBins
      (Arr2 2 [[Fin 1; Fin 2]; [Fin 3; Fin 4]; [Fin 5; Fin 6]])
      [Fin 0; Fin 1; Fin 2] (Fin 1) 0 None None
    = Ok (xbin, bins).
Proof.
  apply (proj2
           (BinningFacts.intoBins_InvalidArgument_iff
              (Arr2 2 [[Fin 1; Fin 2]; [Fin 3; Fin 4]; [Fin 5; Fin 6]])
              [Fin 0; Fin 1; Fin 2] (Fin 1) 0 None None)
           2%nat [[Fin 1; Fin 2]; [Fin 3; Fin 4]; [Fin 5; Fin 6]]
           (Fin 0) (Fin 1) [Fin 2] 0%Q 2%Q);
    try reflexivity.
  - intro H. discriminate H.
  - unfold Qle. simpl. lia.
Defined.

(** [score] of the vector 1, 2, 3 against the threshold 2. *)
Lemma score_in_bounds_witness :
  exists s count,
    Stats.score (Arr1 [Fin 1; Fin 2; Fin 3]) (Fin 2) 0 = Ok (s, count) /\
    values count
    = map (fun line => length (filter (fun v => v >=? Fin 2) line))
        (lines (Arr1 [Fin 1; Fin 2; Fin 3]) 0) /\
    Forall (fun k => (0 <= k <= 3)%nat) (values count) /\
    Forall2
      (fun f k =>
         has_value f (inject_Z (Z.of_nat k) / inject_Z (Z.of_nat 3)))
      (values s) (values count) /\
    Forall (fun f => exists q, f = Fin q /\ (0 <= q <= 1)%Q) (values s) /\
    (Forall (fun v => (v >=? Fin 2) = false)
       (flatten (Arr1 [Fin 1; Fin 2; Fin 3])) ->
     Forall (fun k => k = 0%nat) (values count) /\
     Forall (fun f => f = Fin 0) (values s)) /\
    (forall m,
        Stats.amax (Arr1 [Fin 1; Fin 2; Fin 3]) = Ok m ->
        (m <? m + Fin 1) = true ->
        exists s0 count0,
          Stats.score (Arr1 [Fin 1; Fin 2; Fin 3]) (m + Fin 1) 0
          = Ok (s0, count0) /\
          Forall (fun k => k = 0%nat) (values count0) /\
          Forall (fun f => f = Fin 0) (values s0)).
Proof.
  apply (StatsFacts.score_in_bounds
           (Arr1 [Fin 1; Fin 2; Fin 3]) (Fin 2) 0 3).
  - exact I.
  - reflexivity.
  - lia.
Defined.

(** The index of the all-zero 2x2 spectrogram: no finite entry. *)
Lemma ACI_global_returns_witness :
  exists xx per_bin s,
    Indices.acousticComplexityIndex
      (Arr2 2 [[Fin 0; Fin 0]; [Fin 0; Fin 0]]) "global"
    = Ok (Arr2 1 xx, per_bin, s) /\
    Forall (Forall (fun e => Num.is_finite e = false)) xx.
Proof.
  destruct (ACIFacts.ACI_global_returns 2 [[Fin 0; Fin 0]; [Fin 0; Fin 0]])
    as [xx [pb [s [E H]]]].
  exists xx, pb, s. split; [exact E |]. apply H. reflexivity.
Defined.

(** The entropy of the one-hot vector [1, 0]. *)
Lemma entropy_one_hot_witness :
  Entropy.entropy (Arr1 (repeat 0%R 0 ++ 1%R :: repeat 0%R 1)) 0
  = ([], Some (Scalar (Entropy.one_hot_entropy 0 1)))
  /\ (0 < Entropy.one_hot_entropy 0 1)%R.
Proof.
  apply (EntropyFacts.entropy_one_hot 0 1 1%R).
  - exact Rlt_0_1.
  - apply le_n.
Defined.

(** The uniform vector [5, 5, 5]. *)
Lemma entropy_uniform_witness :
  Entropy.entropy (Arr1 (repeat 5%R 3)) 0 = ([], Some (Scalar 1%R)).
Proof.
  apply (EntropyFacts.entropy_uniform 3 5%R).
  - apply le_S. apply le_n.
  - lra.
Defined.

(** Scaling [1, 2] by 3. *)
Lemma entropy_scale_invariant_witness :
  Entropy.entropy (Entropy.scale 3%R (Arr1 [1%R; 2%R])) 0
  = Entropy.entropy (Arr1 [1%R; 2%R]) 0.
Proof.
  apply (EntropyFacts.entropy_scale_invariant (Arr1 [1%R; 2%R]) 0 3%R).
  - lra.
  - repeat constructor; lra.
Defined.

(** The entries of [1, -1] cancel. *)
Lemma entropy_zero_sum_witness :
  Entropy.entropy (Arr1 [1%R; (-1)%R]) 0 = ([], Some (Scalar 0%R)).
Proof.
  apply (EntropyFacts.entropy_zero_sum (Arr1 [1%R; (-1)%R]) 0 2).
  - reflexivity.
  - discriminate.
  - simpl. lra.
Defined.

(** One run of two samples at or above 6 dB in a vector of four. *)
Lemma acoustic_events_single_run_witness :
  Events.acoustic_events
    (Arr1 ([Fin 0] ++ [Fin 7; Fin 8] ++ [Fin 1])) (Fin (1 # 2)) (Fin 6)
    (Some (Fin 0))
  = Ok (Scalar (Num.of_nat 2 * Fin (1 # 2)),
        Scalar (Num.of_nat 2 * Fin (1 # 2)),
        Scalar (Num.one
                / (Num.of_Z
                     (Z.of_nat
                        (length ([Fin 0] ++ [Fin 7; Fin 8] ++ [Fin 1])) - 1)
                   * Fin (1 # 2))),
        Arr1 (map (fun v => v >=? Fin 6)
                ([Fin 0] ++ [Fin 7; Fin 8] ++ [Fin 1]))).
Proof.
  apply (EventsFacts.acoustic_events_single_run
           [Fin 0] [Fin 7; Fin 8] [Fin 1] (Fin (1 # 2)) (Fin 6)).
  - repeat constructor.
  - repeat constructor.
  - repeat constructor.
  - discriminate.
  - reflexivity.
  - reflexivity.
Defined.



(** The default band on a 2x1 spectrogram over 0 and 1000 Hz. *)
Lemma spectral_entropy_flim_witness :
  exists r,
    SpectralEntropy.spectral_entropy (Arr2 1 [[1%R]; [2%R]]) [0%R; 1000%R]
      SpectralEntropy.FlimNone
    = ([], Ok (Some r)).
Proof.
  apply (proj2 (proj2 (SpectralEntropyFacts.spectral_entropy_flim
                         (Arr2 1 [[1%R]; [2%R]]) [0%R; 1000%R] 0%R))
           1%nat [[1%R]; [2%R]]).
  - reflexivity.
  - repeat constructor.
  - reflexivity.
  - discriminate.
  - discriminate.
Defined.

(** The scores of 1, 2, 3 against the thresholds 1 and 3. *)
Lemma score_antitone_witness :
  exists s1 count1 s2 count2,
    Stats.score (Arr1 [Fin 1; Fin 2; Fin 3]) (Fin 1) 0 = Ok (s1, count1) /\
    Stats.score (Arr1 [Fin 1; Fin 2; Fin 3]) (Fin 3) 0 = Ok (s2, count2) /\
    Forall2 (fun k2 k1 => (k2 <= k1)%nat) (values count2) (values count1) /\
    Forall2 (fun f2 f1 => (f2 <=? f1) = true) (values s2) (values s1).
Proof.
  apply (ScoreFacts.score_antitone
           (Arr1 [Fin 1; Fin 2; Fin 3]) (Fin 1) (Fin 3) 0 3).
  - reflexivity.
  - lia.
  - reflexivity.
Defined.

(** Three values 2, and the value 2 among three zeros. *)
Lemma gini_extremes_witness :
  fst (Stats.gini (repeat (Fin 2) 3) false) = Fin 0
  /\ fst (Stats.gini (repeat (Fin 0) 1 ++ Fin 2 :: repeat (Fin 0) 2) false)
     = Num.of_nat 3 / Num.of_nat 4
  /\ fst (Stats.gini (repeat (Fin 0) 1 ++ Fin 2 :: repeat (Fin 0) 2) true)
     = Fin 1.
Proof.
  destruct (GiniValueFacts.gini_extremes 2 ltac:(reflexivity)) as [H1 H2].
  split; [apply (H1 3%nat false); lia |].
  destruct (H2 1%nat 2%nat) as [H3 H4].
  split; [exact H3 | apply H4; lia].
Defined.

(** The values 3, 1, 2 and their triple. *)
Lemma gini_scale_invariant_witness :
  fst (Stats.gini (scaled (Fin 3) [Fin 3; Fin 1; Fin 2]) false)
  = fst (Stats.gini [Fin 3; Fin 1; Fin 2] false).
Proof.
  apply (GiniValueFacts.gini_scale_invariant 3 [Fin 3; Fin 1; Fin 2] false).
  - reflexivity.
  - repeat constructor.
Defined.

(** A 2x2 spectrogram and its double. *)
Lemma ACI_scale_invariant_witness :
  Indices.acousticComplexityIndex
    (amap (Num.mul (Fin 2)) (Arr2 2 [[Fin 1; Fin 3]; [Fin 2; Fin 2]]))
    "global"
  = Indices.acousticComplexityIndex
      (Arr2 2 [[Fin 1; Fin 3]; [Fin 2; Fin 2]]) "global".
Proof.
  apply (ACIScaleFacts.ACI_scale_invariant 2
           (Arr2 2 [[Fin 1; Fin 3]; [Fin 2; Fin 2]]) "global").
  - reflexivity.
  - repeat constructor.
Defined.

(** Two bins of constant amplitudes 1 and 2 over three frames. *)
Lemma ACI_stationary_witness :
  Indices.acousticComplexityIndex
    (Arr2 3 (map (fun v => repeat (Fin v) 3) [1%Q; 2%Q])) "per_bin"
  = Ok (Arr2 2 (map (fun _ => repeat (Fin 0) 2) [1%Q; 2%Q]),
        map (fun _ => Fin 0) [1%Q; 2%Q], Fin 0).
Proof.
  apply (ACIScaleFacts.ACI_stationary [1%Q; 2%Q] 3 "per_bin").
  - right. reflexivity.
  - repeat constructor.
  - discriminate.
  - lia.
Defined.

(** Three samples below 6 dB, events under 0.2 s rejected at 0.1 s per
    sample. *)
Lemma acoustic_events_silence_witness :
  Events.acoustic_events (Arr1 [Fin 1; Fin 2; Fin 0]) (Fin (1 # 10)) (Fin 6)
    (Some (Fin (1 # 5)))
  = Ok (Scalar (Fin 0), Scalar (Fin 0), Scalar (Fin 0),
        Arr1 (repeat false 3)).
Proof.
  apply (OpeningFacts.acoustic_events_silence
           [Fin 1; Fin 2; Fin 0] (1 # 10) (Fin 6) (Some (Fin (1 # 5)))).
  - repeat constructor.
  - simpl. lia.
  - intro H. discriminate H.
  - exists 2%Z. split; [reflexivity | lia].
Defined.

(** An event of two samples against [rejectDuration = 2] at one sample
    per second: it is removed. *)
Lemma acoustic_events_rejectDuration_witness :
  Events.acoustic_events
    (Arr1 ([Fin 0] ++ [Fin 7; Fin 8] ++ [Fin 1; Fin 0])) (Fin 1) (Fin 6)
    (Some (Fin 2))
  = Ok (Scalar (Fin 0), Scalar (Fin 0), Scalar (Fin 0),
        Arr1 (repeat false 5)).
Proof.
  apply (OpeningFacts.acoustic_events_rejectDuration
           [Fin 0] [Fin 7; Fin 8] [Fin 1; Fin 0] 1 (Fin 6) (Fin 2) 2%Z).
  - repeat constructor.
  - repeat constructor.
  - repeat constructor.
  - reflexivity.
  - lia.
  - simpl. lia.
Defined.

(** The vector 1, 4, 2, 7 and its triple. *)
Lemma roughness_quadratic_witness :
  Roughness.roughness
    (amap (Num.mul (Fin 3)) (Arr1 [Fin 1; Fin 4; Fin 2; Fin 7])) None 0
  = (r <- Roughness.roughness (Arr1 [Fin 1; Fin 4; Fin 2; Fin 7]) None 0 ;;
     Ok (vmap (Num.mul (Fin (3 * 3))) r)).
Proof.
  apply (RoughnessFacts.roughness_quadratic 3
           (Arr1 [Fin 1; Fin 4; Fin 2; Fin 7]) 0).
  repeat constructor.
Defined.

(** The same vector, normalised by its maximum 7. *)
Lemma roughness_global_scale_invariant_witness :
  Roughness.roughness
    (amap (Num.mul (Fin 2)) (Arr1 [Fin 1; Fin 4; Fin 2; Fin 7]))
    (Some "global") 0
  = Roughness.roughness (Arr1 [Fin 1; Fin 4; Fin 2; Fin 7]) (Some "global") 0.
Proof.
  apply (RoughnessFacts.roughness_global_scale_invariant 2
           (Arr1 [Fin 1; Fin 4; Fin 2; Fin 7]) 0 (Fin 7)).
  - reflexivity.
  - repeat constructor.
  - reflexivity.
  - reflexivity.
Defined.

(** Weights 1, 3 on the bins 0, 5; doubled weights on the bins 10, 15. *)
Lemma raoQ_invariant_witness :
  RaoQ.raoQ (scaled (Fin 2) [Fin 1; Fin 3])
    (map (fun b => b + Fin 10) [Fin 0; Fin 5])
  = RaoQ.raoQ [Fin 1; Fin 3] [Fin 0; Fin 5].
Proof.
  apply (RaoQFacts.raoQ_invariant 2 10 [Fin 1; Fin 3] [Fin 0; Fin 5]).
  - reflexivity.
  - repeat constructor.
  - repeat constructor.
Defined.

(** All the weight on the second of three bins. *)
Lemma raoQ_point_mass_witness :
  RaoQ.raoQ (repeat (Fin 0) 1 ++ Fin 5 :: repeat (Fin 0) 1)
    [Fin 1; Fin 2; Fin 4]
  = Ok (Fin 0).
Proof.
  apply (RaoQFacts.raoQ_point_mass 5 1 1 [Fin 1; Fin 2; Fin 4]).
  - intro H. discriminate H.
  - repeat constructor.
  - reflexivity.
Defined.

(** A 3x3 spectrogram over 0, 1000, 2000 Hz and the band 0-500 Hz. *)
Lemma tfsd_is_a_share_witness :
  exists q per_bin,
    TFSD.tfsd
      (Arr2 3 [[Fin 1; Fin 2; Fin 4]; [Fin 0; Fin 5; Fin 1];
               [Fin 2; Fin 2; Fin 9]])
      [Fin 0; Fin 1000; Fin 2000] (Fin 0, Fin 500)
    = Ok (Fin q, per_bin)
    /\ (0 <= q <= 1)%Q
    /\ has_value (Np.sum per_bin) q
    /\ Forall (fun v => exists r, v = Fin r /\ (0 <= r)%Q) per_bin.
Proof.
  apply (TFSDFacts.tfsd_is_a_share 3
           [[Fin 1; Fin 2; Fin 4]; [Fin 0; Fin 5; Fin 1];
            [Fin 2; Fin 2; Fin 9]]
           [Fin 0; Fin 1000; Fin 2000] (Fin 0, Fin 500)).
  - repeat constructor.
  - reflexivity.
  - reflexivity.
Defined.

(** The spectrogram [a[i] + b[j]] of the spectrum 1, 2 and the envelope
    0, 3, 5. *)
Lemma tfsd_separable_is_nan_witness :
  exists per_bin,
    TFSD.tfsd
      (Arr2 3 (map (fun ai => map (fun bj => Fin ai + Fin bj)
                                [0%Q; 3%Q; 5%Q])
                 [1%Q; 2%Q]))
      [Fin 0; Fin 1000] (Fin 0, Fin 500)
    = Ok (NaN, per_bin)
    /\ Forall (fun v => v = NaN) per_bin.
Proof.
  apply (TFSDFacts.tfsd_separable_is_nan [1%Q; 2%Q] [0%Q; 3%Q; 5%Q]
           [Fin 0; Fin 1000] (Fin 0, Fin 500)).
  reflexivity.
Defined.

(** The columns of a positive 2x2 matrix. *)
Lemma entropy_in_unit_interval_witness :
  exists H,
    Entropy.entropy (Arr2 2 [[1%R; 2%R]; [3%R; 4%R]]) 0 = ([], Some H)
    /\ Forall (fun h => (0 <= h <= 1)%R) (values H).
Proof.
  apply (EntropyBoundFacts.entropy_in_unit_interval
           (Arr2 2 [[1%R; 2%R]; [3%R; 4%R]]) 0 2).
  - repeat constructor.
  - reflexivity.
  - lia.
  - discriminate.
  - repeat constructor; lra.
Defined.

(** The vector 1, 3. *)
Lemma shannonEntropy_formula_witness :
  Shannon.shannonEntropy (Arr1 [1%R; 3%R]) 0
  = ([], Ok (Scalar (Shannon.shannon (Shannon.probabilities [1%R; 3%R]))))
  /\ (0 <= Shannon.shannon (Shannon.probabilities [1%R; 3%R])
      <= ln (INR (length [1%R; 3%R])))%R.
Proof.
  apply (EntropyBoundFacts.shannonEntropy_formula [1%R; 3%R]).
  - repeat constructor; lra.
  - simpl. lia.
Defined.

(** A 2x2 spectrogram. *)
Lemma surfaceRoughness_Ra_le_Rq_witness :
  exists Ra_per_bin Rq_per_bin Ra Rq,
    Surface.surfaceRoughness (Arr2 2 [[1%R; 2%R]; [3%R; 5%R]]) "global"
    = Ok (Ra_per_bin, Rq_per_bin, Ra, Rq)
    /\ Forall2 (fun a q => (0 <= a <= q)%R) Ra_per_bin Rq_per_bin
    /\ (0 <= Ra <= Rq)%R.
Proof.
  apply (SurfaceFacts.surfaceRoughness_Ra_le_Rq 2
           [[1%R; 2%R]; [3%R; 5%R]] "global").
  - right. reflexivity.
  - repeat constructor.
  - lia.
  - discriminate.
Defined.

(** The same spectrogram, 10 higher. *)
Lemma surfaceRoughness_offset_invariant_witness :
  Surface.surfaceRoughness
    (amap (fun a => (a + 10)%R) (Arr2 2 [[1%R; 2%R]; [3%R; 5%R]])) "per_bin"
  = Surface.surfaceRoughness (Arr2 2 [[1%R; 2%R]; [3%R; 5%R]]) "per_bin".
Proof.
  apply (SurfaceFacts.surfaceRoughness_offset_invariant 10%R 2
           [[1%R; 2%R]; [3%R; 5%R]] "per_bin").
  - repeat constructor.
  - lia.
  - discriminate.
Defined.

(** The signal 0, 1 under [x -> 2 x + 1]. *)
Lemma moments_affine_witness :
  SpectralEntropy.kurtosis (map (fun v => (2 * v + 1)%R) [0%R; 1%R])
  = SpectralEntropy.kurtosis [0%R; 1%R]
  /\ ((0 < 2)%R ->
      SpectralEntropy.skewness (map (fun v => (2 * v + 1)%R) [0%R; 1%R])
      = SpectralEntropy.skewness [0%R; 1%R])
  /\ ((2 < 0)%R ->
      SpectralEntropy.skewness (map (fun v => (2 * v + 1)%R) [0%R; 1%R])
      = (- SpectralEntropy.skewness [0%R; 1%R])%R).
Proof.
  apply (MomentFacts.moments_affine 2%R 1%R [0%R; 1%R]).
  - lra.
  - unfold SpectralEntropy.Rvar, Entropy.Rmean, Entropy.Rsum. simpl. lra.
Defined.

(** A 2x1 spectrogram, tripled and read on another band. *)
Lemma bioacousticsIndex_band_and_gain_witness :
  Bioacoustics.bioacousticsIndex
    (Entropy.scale 3%R (Arr2 1 [[1%R]; [2%R]])) [0%R; 1%R] (5%R, 6%R) false
  = Bioacoustics.bioacousticsIndex
      (Arr2 1 [[1%R]; [2%R]]) [0%R; 1%R] (0%R, 1%R) false.
Proof.
  apply (BioacousticsFacts.bioacousticsIndex_band_and_gain 3%R
           (Arr2 1 [[1%R]; [2%R]]) [0%R; 1%R] (0%R, 1%R) (5%R, 6%R)).
  - lra.
  - apply Exists_cons_hd. lra.
Defined.

(** Three frequencies 0, 1, 2 kHz and the band up to 1 kHz. *)
Lemma bioacousticsIndex_nonneg_witness :
  (0 < Entropy.Rmaximum (concat [[1%R; 2%R]; [3%R; 4%R]; [1%R; 1%R]]))%R /\
  Forall (fun row =>
            (0 < Entropy.Rmean
                   (map (fun a =>
                           a / Entropy.Rmaximum
                                 (concat [[1; 2]; [3; 4]; [1; 1]]))
                      row) <= 1)%R)
    [[1%R; 2%R]; [3%R; 4%R]; [1%R; 1%R]] /\
  exists BI,
    Bioacoustics.bioacousticsIndex
      (Arr2 2 [[1%R; 2%R]; [3%R; 4%R]; [1%R; 1%R]])
      [0%R; 1000%R; 2000%R] (0%R, 1000%R) true
    = Ok BI
    /\ (0 <= BI)%R.
Proof.
  apply (BioacousticsFacts.bioacousticsIndex_nonneg 2
           [[1%R; 2%R]; [3%R; 4%R]; [1%R; 1%R]] 0%R 1000%R [2000%R]
           (0%R, 1000%R)).
  - lra.
  - repeat constructor.
  - lia.
  - reflexivity.
  - repeat constructor; try lra; apply Exists_cons_hd; lra.
  - apply Exists_cons_hd. simpl. lra.
Defined.

(** Two files. *)
Lemma acousticRichnessIndex_bounds_witness :
  exists AR,
    Richness.acousticRichnessIndex [1 # 2; 3 # 4]%Q [3; 1]%Q = ([], Ok AR)
    /\ length AR = length [1 # 2; 3 # 4]%Q
    /\ Forall (fun v =>
                 (1 / inject_Z (Z.of_nat (length [1 # 2; 3 # 4]%Q ^ 2)) <= v
                  <= 1)%Q) AR.
Proof.
  apply (RichnessFacts.acousticRichnessIndex_bounds
           [1 # 2; 3 # 4]%Q [3; 1]%Q).
  - reflexivity.
  - discriminate.
Defined.

(** The same files with the entropies in percent and the amplitudes
    shifted. *)
Lemma acousticRichnessIndex_order_only_witness :
  Richness.acousticRichnessIndex
    (map (fun v => (100 * v + 0)%Q) [1 # 2; 3 # 4]%Q)
    (map (fun v => (1 * v + 5)%Q) [3; 1]%Q)
  = Richness.acousticRichnessIndex [1 # 2; 3 # 4]%Q [3; 1]%Q.
Proof.
  apply (RichnessFacts.acousticRichnessIndex_order_only
           100%Q 0%Q 1%Q 5%Q [1 # 2; 3 # 4]%Q [3; 1]%Q).
  - reflexivity.
  - reflexivity.
Defined.

End Witnesses.
